(** * Constraint-propagation solver (solver.py, sudoku.py, map.py)

    A shallow embedding of the [ConstraintSolver] base class and of its two
    adapters, [Sudoku] and [Australia], followed by the properties of the
    propagation rules, of the propagation loop and of the depth-first search.

    Conventions of the embedding.
    - A Python [str] naming a variable is a [string]; a [str] holding the
      candidate symbols of a variable is the list of its characters ([cand]).
    - A Python [dict] is an association list in insertion order: the solver
      iterates over [state.keys()], and that order decides which of two
      clashing variables is emptied first.
    - A method that mutates the dictionary it receives and returns it is a
      function from the contents before the call to the contents after it.
      Where a caller keeps a reference to the dictionary ([solve] keeps
      [self.__internal_state]), the contents after the call are returned
      next to the Python return value.
    - The peers of a variable, a Python [set] in both adapters, are a list
      without repetition; [eliminate_order] shows that the order in which
      the members are listed does not change what elimination leaves.
    - A call either returns, or raises ([KeyError] for a missing key,
      [ValueError] for [min] of an empty sequence), or is cut off by the
      recursion bound of the model ([Unfinished]).
    - What a method prints on the console is the list of the lines it
      printed; the methods that draw with matplotlib and the functions
      that read the puzzle files are not modelled. *)

From Stdlib Require Import String Ascii Arith Bool Lia List.
From Stdlib Require Import OrderedTypeEx Permutation.
Import ListNotations.

Set Implicit Arguments.

(* ================================================================== *)
(** * Python values *)

Module Py.

(** Candidate strings: sequences of one-character symbols. *)
Definition cand := list ascii.

Definition chars (s : string) : cand := list_ascii_of_string s.

Definition cand_eqb (a b : cand) : bool :=
  if list_eq_dec ascii_dec a b then true else false.

(** [c in s] for a one-character [c]. *)
Definition mem (c : ascii) (s : cand) : bool :=
  existsb (Ascii.eqb c) s.

(** [is_prefix p s]: [s.startswith(p)]. *)
Fixpoint is_prefix (p s : cand) : bool :=
  match p, s with
  | [], _ => true
  | _ :: _, [] => false
  | a :: p', b :: s' => Ascii.eqb a b && is_prefix p' s'
  end.

(** [s.replace(old, '')]: the non-overlapping occurrences of [old] are
    dropped from left to right; an empty [old] leaves [s] as it is.
    [skip] counts the characters of a match still to be dropped. *)
Fixpoint remove_from (old : cand) (skip : nat) (s : cand) : cand :=
  match s with
  | [] => []
  | c :: s' =>
      match skip with
      | S k => remove_from old k s'
      | O => if is_prefix old s
             then remove_from old (length old - 1) s'
             else c :: remove_from old 0 s'
      end
  end.

Definition replace_empty (s old : cand) : cand :=
  match old with
  | [] => s
  | _ :: _ => remove_from old 0 s
  end.

(** Dictionaries with string keys, in insertion order. *)
Definition dict (V : Type) := list (string * V).

Section Dict.
Variable V : Type.

Fixpoint get (d : dict V) (k : string) : option V :=
  match d with
  | [] => None
  | (k', v) :: d' => if String.eqb k' k then Some v else get d' k
  end.

(** [d[k] = v]: in place when [k] is a key, at the end otherwise. *)
Fixpoint set (d : dict V) (k : string) (v : V) : dict V :=
  match d with
  | [] => [(k, v)]
  | (k', v') :: d' =>
      if String.eqb k' k then (k', v) :: d' else (k', v') :: set d' k v
  end.

Definition keys (d : dict V) : list string := map fst d.

Definition is_empty (d : dict V) : bool :=
  match d with [] => true | _ :: _ => false end.
End Dict.

(** Exceptions the solver can raise. *)
Inductive exn : Type :=
| KeyError (k : string)
| ValueError.

Inductive outcome (A : Type) : Type :=
| Returned (a : A)
| Raised (e : exn)
| Unfinished.

Arguments Raised {A} e.
Arguments Unfinished {A}.

Definition bind {A B} (m : outcome A) (f : A -> outcome B) : outcome B :=
  match m with
  | Returned a => f a
  | Raised e => Raised e
  | Unfinished => Unfinished
  end.

(** [d[k]] as an expression. *)
Definition getitem {V} (d : dict V) (k : string) : outcome V :=
  match get d k with
  | Some v => Returned v
  | None => Raised (KeyError k)
  end.

End Py.

Import Py.

Arguments replace_empty s old : simpl never.

Declare Scope py_scope.
Delimit Scope py_scope with py.
Notation "x <- m ;; k" := (bind m (fun x => k))
  (at level 61, m at next level, right associativity) : py_scope.
Notation "' p <- m ;; k" := (bind m (fun p => k))
  (at level 61, p pattern, m at next level, right associativity) : py_scope.
Open Scope py_scope.

(** The state of a problem: every variable with its candidate string. *)
Definition State := dict cand.

(** A reduction function: mutates the state it is given and returns it. *)
Definition rule := State -> outcome State.

(* ================================================================== *)
(** * solver.py *)

Record ConstraintSolver : Type := mkSolver {
  internal_state : State;
  X : list string;
  D : cand;
  C : list (list string);
  peers : dict (list string);
  solved : bool;
  reduce_funcs : list rule;
  reduce_count : nat;
  search_count : nat
}.

(** [__solved_units]:
    [[item for item in state.keys() if len(state[item]) == 1]].  The keys
    are visited in the order of the dictionary, and [state[item]] for a
    key of [state] is the value stored with it. *)
Definition solved_units (state : State) : list string :=
  map fst (filter (fun kv => length (snd kv) =? 1) state).

(** [__solved_units_count]: the length of the same list. *)
Definition solved_units_count (state : State) : nat :=
  length (solved_units state).

(** [__unsolvable_units]:
    [len([item for item in state.keys() if len(state[item]) == 0]) > 0]. *)
Definition unsolvable_units (state : State) : bool :=
  0 <? length (filter (fun kv => length (snd kv) =? 0) state).

(** [assign_value]: [state[item]] is read first, so a missing key raises
    before anything is written. *)
Definition assign_value (state : State) (item : string) (new_val : cand)
  : outcome State :=
  old <- getitem state item ;;
  if negb (cand_eqb old new_val)
  then Returned (set state item new_val)
  else Returned state.

(** The inner loop of [__eliminate]: [val] is removed from every peer. *)
Fixpoint eliminate_peers (val : cand) (ps : list string) (state : State)
  : outcome State :=
  match ps with
  | [] => Returned state
  | peer :: ps' =>
      v <- getitem state peer ;;
      state1 <- assign_value state peer (replace_empty v val) ;;
      eliminate_peers val ps' state1
  end.

(** The outer loop of [__eliminate], over the variables that were solved
    when the rule was entered. *)
Fixpoint eliminate_items (prs : dict (list string)) (items : list string)
  (state : State) : outcome State :=
  match items with
  | [] => Returned state
  | item :: rest =>
      val <- getitem state item ;;
      ps <- getitem prs item ;;
      state1 <- eliminate_peers val ps state ;;
      eliminate_items prs rest state1
  end.

(** [__eliminate], with the peers it reads from [self.__peers]. *)
Definition eliminate (prs : dict (list string)) : rule :=
  fun state => eliminate_items prs (solved_units state) state.

(** [dplaces]: the variables of [unit] that still have [unit_val]. *)
Fixpoint dplaces (unit_val : ascii) (unit : list string) (state : State)
  : outcome (list string) :=
  match unit with
  | [] => Returned []
  | item :: rest =>
      v <- getitem state item ;;
      r <- dplaces unit_val rest state ;;
      Returned (if mem unit_val v then item :: r else r)
  end.

Fixpoint only_choice_vals (unit : list string) (vals : cand) (state : State)
  : outcome State :=
  match vals with
  | [] => Returned state
  | unit_val :: vals' =>
      dp <- dplaces unit_val unit state ;;
      state1 <- match dp with
                | [item] => assign_value state item [unit_val]
                | _ => Returned state
                end ;;
      only_choice_vals unit vals' state1
  end.

Fixpoint only_choice_units (units : list (list string)) (dom : cand)
  (state : State) : outcome State :=
  match units with
  | [] => Returned state
  | unit :: units' =>
      state1 <- only_choice_vals unit dom state ;;
      only_choice_units units' dom state1
  end.

(** [__only_choice], with the groups and the alphabet it reads from
    [self.__C] and [self.__D]. *)
Definition only_choice (units : list (list string)) (dom : cand) : rule :=
  fun state => only_choice_units units dom state.

(** The diagnostic counters [__reduce_count] and [__search_count]. *)
Record Counts : Type := mkCounts { reduces : nat; searches : nat }.

(** [for fun in self.__reduce_funcs: state = fun(state)] *)
Fixpoint apply_rules (funcs : list rule) (state : State) : outcome State :=
  match funcs with
  | [] => Returned state
  | f :: funcs' => state1 <- f state ;; apply_rules funcs' state1
  end.

(** The [while not stalled] loop of [__reduce].  The result pairs the
    contents of the dictionary with [true] when the state is returned and
    with [false] when [False] is returned. *)
Fixpoint reduce_loop (funcs : list rule) (fuel : nat) (state : State)
  : outcome (State * bool) :=
  match fuel with
  | O => Unfinished
  | S fuel' =>
      let solved_values_before := solved_units_count state in
      state1 <- apply_rules funcs state ;;
      let solved_values_after := solved_units_count state1 in
      let stalled := solved_values_before =? solved_values_after in
      if unsolvable_units state1 then Returned (state1, false)
      else if stalled then Returned (state1, true)
      else reduce_loop funcs fuel' state1
  end.

Definition reduce (funcs : list rule) (fuel : nat) (state : State)
  (cnt : Counts) : outcome (State * bool * Counts) :=
  let cnt1 := mkCounts (reduces cnt + 1) (searches cnt) in
  '(state1, feasible) <- reduce_loop funcs fuel state ;;
  Returned (state1, feasible, cnt1).

(** What [__search] returns: [False], [None] (falling off the end of the
    loop) or a state. *)
Inductive pyval : Type :=
| PyFalse
| PyNone
| PyDict (d : State).

(** [if attempt:] *)
Definition truthy (v : pyval) : bool :=
  match v with
  | PyDict d => negb (is_empty d)
  | _ => false
  end.

(** [all(len(state[item]) == 1 for item in self.__X)] *)
Fixpoint all_solved (state : State) (xs : list string) : outcome bool :=
  match xs with
  | [] => Returned true
  | item :: xs' =>
      v <- getitem state item ;;
      if length v =? 1 then all_solved state xs' else Returned false
  end.

(** [(len(state[item]), item) for item in self.__X if len(state[item]) > 1] *)
Fixpoint unsolved_pairs (state : State) (xs : list string)
  : outcome (list (nat * string)) :=
  match xs with
  | [] => Returned []
  | item :: xs' =>
      v <- getitem state item ;;
      r <- unsolved_pairs state xs' ;;
      Returned (if 1 <? length v then (length v, item) :: r else r)
  end.

(** Tuple comparison [a < b]. *)
Definition pair_ltb (a b : nat * string) : bool :=
  (fst a <? fst b) || ((fst a =? fst b) && String.ltb (snd a) (snd b)).

Fixpoint min_from (cur : nat * string) (l : list (nat * string))
  : nat * string :=
  match l with
  | [] => cur
  | p :: l' => min_from (if pair_ltb p cur then p else cur) l'
  end.

(** [min(...)]: the first least element; [ValueError] on nothing. *)
Definition py_min (l : list (nat * string)) : outcome (nat * string) :=
  match l with
  | [] => Raised ValueError
  | p :: l' => Returned (min_from p l')
  end.

(** The [for val in state[s]] loop of [__search], over the recursive call. *)
Fixpoint try_values (rec : State -> Counts -> outcome (State * pyval * Counts))
  (state : State) (s : string) (vals : cand) (cnt : Counts)
  : outcome (pyval * Counts) :=
  match vals with
  | [] => Returned (PyNone, cnt)
  | val :: vals' =>
      let new := state in
      new_state <- assign_value new s [val] ;;
      '(_, attempt, cnt1) <- rec new_state cnt ;;
      if truthy attempt then Returned (attempt, cnt1)
      else try_values rec state s vals' cnt1
  end.

(** [__search].  The result holds the contents of the dictionary that was
    passed in (changed by [__reduce] only: every branch works on a copy),
    the value returned and the counters. *)
Fixpoint search (funcs : list rule) (xs : list string) (fuel : nat)
  (state : State) (cnt : Counts) : outcome (State * pyval * Counts) :=
  match fuel with
  | O => Unfinished
  | S fuel' =>
      '(state1, feasible, cnt1) <- reduce funcs fuel state cnt ;;
      if negb feasible then Returned (state1, PyFalse, cnt1)
      else
        done <- all_solved state1 xs ;;
        if done then Returned (state1, PyDict state1, cnt1)
        else
          pairs <- unsolved_pairs state1 xs ;;
          '(_, s) <- py_min pairs ;;
          let cnt2 := mkCounts (reduces cnt1) (searches cnt1 + 1) in
          vals <- getitem state1 s ;;
          '(attempt, cnt3) <-
            try_values (search funcs xs fuel') state1 s vals cnt2 ;;
          Returned (state1, attempt, cnt3)
  end.

(** [solve]: the counters are reset, the search runs on the dictionary the
    solver holds, and a truthy attempt replaces it. *)
Definition solve (fuel : nat) (self : ConstraintSolver)
  : outcome (ConstraintSolver * bool) :=
  '(state1, attempt, cnt) <-
    search (reduce_funcs self) (X self) fuel (internal_state self)
           (mkCounts 0 0) ;;
  let self1 :=
    match attempt with
    | PyDict d =>
        if truthy attempt
        then mkSolver d (X self) (D self) (C self) (peers self) true
               (reduce_funcs self) (reduces cnt) (searches cnt)
        else mkSolver state1 (X self) (D self) (C self) (peers self)
               (solved self) (reduce_funcs self) (reduces cnt) (searches cnt)
    | _ => mkSolver state1 (X self) (D self) (C self) (peers self)
             (solved self) (reduce_funcs self) (reduces cnt) (searches cnt)
    end in
  Returned (self1, solved self1).

(** [ConstraintSolver.__init__]: the arguments are stored as they come. *)
Definition ConstraintSolver_init (state : State) (xs : list string)
  (dom : cand) (units : list (list string)) (prs : dict (list string))
  : ConstraintSolver :=
  mkSolver state xs dom units prs false
    [eliminate prs; only_choice units dom] 0 0.

(* ================================================================== *)
(** * The adapters: peers, map.py and sudoku.py *)

Definition mem_str (s : string) (l : list string) : bool :=
  existsb (String.eqb s) l.

(** The members of a Python [set] built from a list, each once. *)
Fixpoint dedup (l : list string) : list string :=
  match l with
  | [] => []
  | x :: l' => x :: filter (fun y => negb (String.eqb x y)) (dedup l')
  end.

(** [[u for u in unitlist if s in u]] *)
Definition groups_of (unitlist : list (list string)) (s : string)
  : list (list string) :=
  filter (fun u => mem_str s u) unitlist.

(** [set(sum(groups[s], [])) - set([s])].  A set has no order of its own;
    the members are listed by first occurrence. *)
Definition peers_of (unitlist : list (list string)) (s : string)
  : list string :=
  filter (fun y => negb (String.eqb s y))
         (dedup (List.concat (groups_of unitlist s))).

(** [dict((s, f(s)) for s in xs)]: a later pair for a key that is already
    there replaces the value and keeps the place. *)
Fixpoint dict_of (V : Type) (kvs : list (string * V)) (acc : dict V)
  : dict V :=
  match kvs with
  | [] => acc
  | (k, v) :: kvs' => dict_of kvs' (set acc k v)
  end.

Definition make_peers (unitlist : list (list string)) (xs : list string)
  : dict (list string) :=
  dict_of (map (fun s => (s, peers_of unitlist s)) xs) [].

Module Australia.

Definition X_map : list string :=
  ["WA"; "NT"; "SA"; "QL"; "NSW"; "VT"]%string.

Definition D_map : cand := chars "RBG".

Definition C_map : list (list string) :=
  [ ["WA"; "NT"; "SA"]; ["NT"; "SA"; "QL"];
    ["SA"; "QL"; "NSW"]; ["SA"; "NSW"; "VT"] ]%string.

(** [state_setup]: a fresh dictionary over [X_map]; a region the caller
    gave keeps the caller's value, whatever it is. *)
Definition state_setup (state : option State) : State :=
  let D_all := D_map in
  match state with
  | None => dict_of (map (fun x => (x, D_all)) X_map) []
  | Some st =>
      dict_of
        (map (fun x => match get st x with
                       | Some v => (x, v)
                       | None => (x, D_all)
                       end) X_map) []
  end.

Definition init (state : option State) : ConstraintSolver :=
  let prs := make_peers C_map X_map in
  let new_state := state_setup state in
  ConstraintSolver_init new_state X_map D_map C_map prs.

End Australia.

Module Sudoku.

Definition rows : cand := chars "ABCDEFGHI".
Definition cols : cand := chars "123456789".
Definition unit_values : cand := cols.

(** [[s+t for s in A for t in B]] *)
Definition cross (A B : cand) : list string :=
  flat_map (fun s => map (fun t => String s (String t EmptyString)) B) A.

Definition boxes : list string := cross rows cols.

Definition row_units : list (list string) :=
  map (fun r => cross [r] cols) rows.

Definition column_units : list (list string) :=
  map (fun c => cross rows [c]) cols.

Definition square_units : list (list string) :=
  flat_map (fun rs => map (fun cs => cross rs cs)
                          [chars "123"; chars "456"; chars "789"])
           [chars "ABC"; chars "DEF"; chars "GHI"].

(** [[row + col for row, col in zip(rows, cols)]] and the same over the
    reversed columns. *)
Definition diagonal (rs cs : cand) : list (list string) :=
  let diag1 := map (fun rc => String (fst rc) (String (snd rc) EmptyString))
                   (combine rs cs) in
  let diag2 := map (fun rc => String (fst rc) (String (snd rc) EmptyString))
                   (combine rs (rev cs)) in
  [diag1; diag2].

Definition unitlist (diag : bool) : list (list string) :=
  let base := row_units ++ column_units ++ square_units in
  if diag then base ++ diagonal rows cols else base.

(** The character loop of [__grid_values] with [non_val = True]: [None]
    stands for the [return False] on a character that is neither a digit
    nor a dot. *)
Fixpoint grid_chars (grid : cand) : option (list cand) :=
  match grid with
  | [] => Some []
  | c :: grid' =>
      if mem c unit_values then option_map (cons [c]) (grid_chars grid')
      else if Ascii.eqb c "."%char
           then option_map (cons unit_values) (grid_chars grid')
           else None
  end.

Definition grid_values (grid : cand) : option State :=
  match grid_chars grid with
  | None => None
  | Some chs =>
      if negb (length chs =? 81) then None
      else Some (dict_of (combine boxes chs) [])
  end.

(** The pairs of a unit: [state[box]] for the boxes with two candidates. *)
Fixpoint pair_values (unit : list string) (state : State)
  : outcome (list cand) :=
  match unit with
  | [] => Returned []
  | box :: unit' =>
      v <- getitem state box ;;
      r <- pair_values unit' state ;;
      Returned (if length v =? 2 then v :: r else r)
  end.

Fixpoint count_cand (v : cand) (l : list cand) : nat :=
  match l with
  | [] => 0
  | w :: l' => (if cand_eqb v w then 1 else 0) + count_cand v l'
  end.

(** The keys of a [Counter], in order of first occurrence. *)
Fixpoint counter_keys (l : list cand) : list cand :=
  match l with
  | [] => []
  | v :: l' => v :: filter (fun w => negb (cand_eqb v w)) (counter_keys l')
  end.

(** [[key for key, val in all_pairs.items() if val == 2]] *)
Definition twins_of (pairs : list cand) : list cand :=
  filter (fun key => count_cand key pairs =? 2) (counter_keys pairs).

(** [for box in unit: if twin != state[box]: ...replace(num, '')] *)
Fixpoint twins_boxes (twin : cand) (num : ascii) (unit : list string)
  (state : State) : outcome State :=
  match unit with
  | [] => Returned state
  | box :: unit' =>
      v <- getitem state box ;;
      state1 <- (if negb (cand_eqb twin v)
                 then assign_value state box (replace_empty v [num])
                 else Returned state) ;;
      twins_boxes twin num unit' state1
  end.

Fixpoint twins_nums (twin : cand) (nums : cand) (unit : list string)
  (state : State) : outcome State :=
  match nums with
  | [] => Returned state
  | num :: nums' =>
      state1 <- twins_boxes twin num unit state ;;
      twins_nums twin nums' unit state1
  end.

Fixpoint twins_loop (twins : list cand) (unit : list string)
  (state : State) : outcome State :=
  match twins with
  | [] => Returned state
  | twin :: twins' =>
      state1 <- twins_nums twin twin unit state ;;
      twins_loop twins' unit state1
  end.

Fixpoint naked_twins_units (units : list (list string)) (state : State)
  : outcome State :=
  match units with
  | [] => Returned state
  | unit :: units' =>
      all_pairs <- pair_values unit state ;;
      state1 <- twins_loop (twins_of all_pairs) unit state ;;
      naked_twins_units units' state1
  end.

Definition naked_twins (units : list (list string)) : rule :=
  fun state => naked_twins_units units state.

(** [Sudoku.__init__]: on a bad grid the constructor prints and returns
    before the base class is initialised ([None]); otherwise the base
    solver is set up and [naked_twins] is appended to its rules. *)
Definition init (grid : cand) (diag : bool) : option ConstraintSolver :=
  let units := unitlist diag in
  let prs := make_peers units boxes in
  match grid_values grid with
  | None => None
  | Some state =>
      let base := ConstraintSolver_init state boxes unit_values units prs in
      Some (mkSolver (internal_state base) (X base) (D base) (C base)
              (peers base) (solved base)
              (reduce_funcs base ++ [naked_twins (C base)])
              (reduce_count base) (search_count base))
  end.

End Sudoku.

(** The rest of sudoku.py that does not draw: the table of coordinates,
    the grid read with its flag, and the board printed on the console. *)
Module Board.

(** The inner loop of [__cross_cord]: [table_dict[s+t] = (s_idx, t_idx)]
    for [t_idx, t in enumerate(B)], from [t_idx] on. *)
Fixpoint cross_cord_cols (s : ascii) (s_idx : nat) (B : cand) (t_idx : nat)
  (table_dict : dict (nat * nat)) : dict (nat * nat) :=
  match B with
  | [] => table_dict
  | t :: B' =>
      cross_cord_cols s s_idx B' (S t_idx)
        (set table_dict (String s (String t EmptyString)) (s_idx, t_idx))
  end.

(** The outer loop, [for s_idx, s in enumerate(A)], from [s_idx] on. *)
Fixpoint cross_cord_rows (A : cand) (s_idx : nat) (B : cand)
  (table_dict : dict (nat * nat)) : dict (nat * nat) :=
  match A with
  | [] => table_dict
  | s :: A' =>
      cross_cord_rows A' (S s_idx) B (cross_cord_cols s s_idx B 0 table_dict)
  end.

(** [__cross_cord] *)
Definition cross_cord (A B : cand) : dict (nat * nat) :=
  cross_cord_rows A 0 B [].

(** The character loop of [__grid_values], with its flag: a blank cell
    becomes the nine digits when [non_val] is set and the dot itself when
    it is not. *)
Fixpoint grid_chars (grid : cand) (non_val : bool) : option (list cand) :=
  match grid with
  | [] => Some []
  | c :: grid' =>
      if mem c Sudoku.unit_values
      then option_map (cons [c]) (grid_chars grid' non_val)
      else if Ascii.eqb c "."%char
           then if non_val
                then option_map (cons Sudoku.unit_values)
                                (grid_chars grid' non_val)
                else option_map (cons ["."%char]) (grid_chars grid' non_val)
           else None
  end.

(** [__grid_values(grid, non_val)] *)
Definition grid_values (grid : cand) (non_val : bool) : option State :=
  match grid_chars grid non_val with
  | None => None
  | Some chs =>
      if negb (length chs =? 81) then None
      else Some (dict_of (combine Sudoku.boxes chs) [])
  end.

(** [self.__org_state], set after the base class is initialised. *)
Definition org_state (grid : cand) : option State := grid_values grid false.

End Board.

(** What [__display] prints, line by line.  The only lookup that can fail
    is the first, in [max]: the rows read the keys it has read, so nothing
    is printed before an exception. *)
Module Console.

(** [s.center(width)]: when the padding cannot be split evenly, the extra
    space goes to the left if the width is odd, to the right if not. *)
Definition center (s : cand) (width : nat) : cand :=
  if width <=? length s then s
  else
    let marg := width - length s in
    let left := marg / 2 + Nat.land (Nat.land marg width) 1 in
    repeat " "%char left ++ s ++ repeat " "%char (marg - left).

(** [len(state[s]) for s in self.__boxes] *)
Fixpoint lengths (state : State) (bs : list string) : outcome (list nat) :=
  match bs with
  | [] => Returned []
  | s :: bs' =>
      v <- getitem state s ;;
      r <- lengths state bs' ;;
      Returned (length v :: r)
  end.

(** [max(...)]; [ValueError] on nothing. *)
Definition py_max (l : list nat) : outcome nat :=
  match l with
  | [] => Raised ValueError
  | n :: l' => Returned (fold_left Nat.max l' n)
  end.

(** [sep.join(parts)] *)
Fixpoint join (sep : cand) (parts : list cand) : cand :=
  match parts with
  | [] => []
  | p :: ps => match ps with
               | [] => p
               | _ :: _ => p ++ sep ++ join sep ps
               end
  end.

(** The pieces of one row:
    [state[r+c].center(width) + ('|' if c in '36' else '') for c in cols]. *)
Fixpoint display_cells (state : State) (r : ascii) (cs : cand) (width : nat)
  : outcome (list cand) :=
  match cs with
  | [] => Returned []
  | c :: cs' =>
      v <- getitem state (String r (String c EmptyString)) ;;
      rest <- display_cells state r cs' width ;;
      Returned ((center v width
                 ++ (if mem c (chars "36") then ["|"%char] else [])) :: rest)
  end.

(** The loop over the rows; [out] holds the lines printed so far. *)
Fixpoint display_rows (state : State) (rs : cand) (width : nat)
  (line : cand) (out : list cand) : outcome (list cand) :=
  match rs with
  | [] => Returned out
  | r :: rs' =>
      cells <- display_cells state r Sudoku.cols width ;;
      let out1 := out ++ [join [] cells] in
      let out2 := if mem r (chars "CF") then out1 ++ [line] else out1 in
      display_rows state rs' width line out2
  end.

(** [__display]: the lines it prints. *)
Definition display (state : State) : outcome (list cand) :=
  ls <- lengths state Sudoku.boxes ;;
  m <- py_max ls ;;
  let width := 1 + m in
  let line := join ["+"%char] (repeat (repeat "-"%char (width * 3)) 3) in
  display_rows state Sudoku.rows width line [].

End Console.

(** What [display_state_cmd] and [display_org_cmd] of map.py print.  The
    loop prints one line for every item, so an exception leaves the lines
    of the items before it on the console: the result holds both. *)
Module MapConsole.

(** What a loop that prints may raise. *)
Inductive raised : Type :=
| RaisedKeyError (k : string)
| RaisedAttributeError.

Definition X_name : dict string :=
  [("WA", "Western Australia"); ("NT", "Northern Territory");
   ("SA", "South Australia"); ("QL", "Queensland");
   ("NSW", "New South Wales"); ("VT", "Victoria")]%string.

Definition D_map_name : dict string :=
  [("R", "Red"); ("B", "Blue"); ("G", "Green")]%string.

(** The field [{0:<20}]: the text, then spaces up to twenty columns. *)
Definition ljust (s : cand) (width : nat) : cand :=
  s ++ repeat " "%char (width - length s).

(** [[self.__D_map_name[c] for c in value]] *)
Fixpoint colour_names (value : cand) : raised + list cand :=
  match value with
  | [] => inr []
  | c :: value' =>
      match get D_map_name (String c EmptyString) with
      | None => inl (RaisedKeyError (String c EmptyString))
      | Some name =>
          match colour_names value' with
          | inl e => inl e
          | inr names => inr (chars name :: names)
          end
      end
  end.

(** The line printed for one item:
    ["{0:<20}: {1:}".format(self.__X_name[key], ",".join(...))]. *)
Definition item_line (key : string) (value : cand) : raised + cand :=
  match get X_name key with
  | None => inl (RaisedKeyError key)
  | Some name =>
      match colour_names value with
      | inl e => inl e
      | inr names =>
          inr (ljust (chars name) 20 ++ chars ": "
               ++ Console.join [","%char] names)
      end
  end.

(** [for key, value in state.items(): print(...)]: the lines printed, and
    the exception that stopped the loop if one did. *)
Fixpoint display_items (items : State) (out : list cand)
  : list cand * option raised :=
  match items with
  | [] => (out, None)
  | (key, value) :: items' =>
      match item_line key value with
      | inl e => (out, Some e)
      | inr line => display_items items' (out ++ [line])
      end
  end.

(** [display_state_cmd] *)
Definition display_state_cmd (self : ConstraintSolver)
  : list cand * option raised :=
  display_items (internal_state self) [].

(** [display_org_cmd]: [self.__org_state] is the dictionary the caller
    gave, or [None]. *)
Definition display_org_cmd (org_state : option State)
  : list cand * option raised :=
  match org_state with
  | None => ([], Some RaisedAttributeError)
  | Some state => display_items state []
  end.

End MapConsole.

(* ================================================================== *)
(** * The vocabulary of the statements *)

(** [sub w v]: the candidates [w] are among the candidates [v], and there
    are no more of them. *)
Definition sub (w v : cand) : Prop :=
  incl w v /\ length w <= length v.

(** Two states over the same keys in the same order, the candidates of the
    first among the candidates of the second. *)
Definition state_rel (R : cand -> cand -> Prop) (st' st : State) : Prop :=
  Forall2 (fun kv' kv => fst kv' = fst kv /\ R (snd kv') (snd kv)) st' st.

Definition state_le : State -> State -> Prop := state_rel sub.

(** A rule is shrinking when the state it returns has the keys of the state
    it was given, each with candidates among those it had. *)
Definition shrinking (f : rule) : Prop :=
  forall st st', f st = Returned st' -> state_le st' st.

Definition no_empty (st : State) : Prop :=
  Forall (fun kv => snd kv <> []) st.

(** The variables that are not solved: the measure of the search. *)
Definition unsolved_count (st : State) : nat :=
  length (filter (fun kv => negb (length (snd kv) =? 1)) st).

(** One pass of the loop from [st0] to [st']. *)
Definition pass (funcs : list rule) (st0 st' : State) : Prop :=
  apply_rules funcs st0 = Returned st'.

(** The loop over the candidate values, as a relation: the values are
    tried from left to right, each on the state with that one value
    assigned; the first truthy attempt is the result, and [None] is the
    result when there is none. *)
Inductive tried (rec : State -> Counts -> outcome (State * pyval * Counts))
  (state : State) (s : string) : cand -> Counts -> pyval -> Counts -> Prop :=
| tried_none cnt : tried rec state s [] cnt PyNone cnt
| tried_hit val vals cnt new st1 attempt cnt1 :
    assign_value state s [val] = Returned new ->
    rec new cnt = Returned (st1, attempt, cnt1) ->
    truthy attempt = true ->
    tried rec state s (val :: vals) cnt attempt cnt1
| tried_miss val vals cnt new st1 attempt cnt1 r cnt' :
    assign_value state s [val] = Returned new ->
    rec new cnt = Returned (st1, attempt, cnt1) ->
    truthy attempt = false ->
    tried rec state s vals cnt1 r cnt' ->
    tried rec state s (val :: vals) cnt r cnt'.

(** One call of [__search], case by case. *)
Inductive search_step (funcs : list rule) (xs : list string) (fuel : nat)
  (state : State) (cnt : Counts) : State -> pyval -> Counts -> Prop :=
| step_infeasible state1 :
    reduce_loop funcs (S fuel) state = Returned (state1, false) ->
    search_step funcs xs fuel state cnt state1 PyFalse
      (mkCounts (reduces cnt + 1) (searches cnt))
| step_solved state1 :
    reduce_loop funcs (S fuel) state = Returned (state1, true) ->
    all_solved state1 xs = Returned true ->
    search_step funcs xs fuel state cnt state1 (PyDict state1)
      (mkCounts (reduces cnt + 1) (searches cnt))
| step_branch state1 pairs n s vals r cnt' :
    reduce_loop funcs (S fuel) state = Returned (state1, true) ->
    all_solved state1 xs = Returned false ->
    unsolved_pairs state1 xs = Returned pairs ->
    py_min pairs = Returned (n, s) ->
    get state1 s = Some vals ->
    tried (search funcs xs fuel) state1 s vals
      (mkCounts (reduces cnt + 1) (searches cnt + 1)) r cnt' ->
    search_step funcs xs fuel state cnt state1 r cnt'.

(** The rule lists the repository builds: the two of the base class, and
    those with [naked_twins] appended by the Sudoku adapter. *)
Definition base_rules (self : ConstraintSolver) : list rule :=
  [eliminate (peers self); only_choice (C self) (D self)].

Definition sudoku_rules (self : ConstraintSolver) : list rule :=
  base_rules self ++ [Sudoku.naked_twins (C self)].

Definition repository_rules (self : ConstraintSolver) : Prop :=
  reduce_funcs self = base_rules self \/ reduce_funcs self = sudoku_rules self.

(** The peers are derived from the groups: two different variables of one
    group are peers of each other. *)
Definition peers_cover (units : list (list string))
  (prs : dict (list string)) : Prop :=
  forall g a b, In g units -> In a g -> In b g -> a <> b ->
  exists ps, get prs a = Some ps /\ In b ps.

Definition peers_coverb (units : list (list string))
  (prs : dict (list string)) : bool :=
  forallb (fun g =>
    forallb (fun a =>
      forallb (fun b =>
        String.eqb a b ||
        match get prs a with
        | Some ps => mem_str b ps
        | None => false
        end) g) g) units.

(** The state a successful search returns: every variable of [xs] is
    solved in it, it is below the state the search started from, and it
    came out of a last pass, from a state [st0], that left the count of
    solved variables as it was and emptied nothing. *)
Definition search_result (funcs : list rule) (xs : list string)
  (st d : State) : Prop :=
  all_solved d xs = Returned true /\ state_le d st /\
  exists st0, pass funcs st0 d /\
              solved_units_count st0 = solved_units_count d /\
              no_empty d.

(** The solver of the map with nothing coloured, and what [solve] leaves
    in it. *)
Definition australia_blank : ConstraintSolver := Australia.init None.

Definition australia_coloured : ConstraintSolver :=
  mkSolver
    [("WA", chars "B"); ("NT", chars "R"); ("SA", chars "G");
     ("QL", chars "B"); ("NSW", chars "R"); ("VT", chars "B")]%string
    Australia.X_map Australia.D_map Australia.C_map
    (make_peers Australia.C_map Australia.X_map) true
    (reduce_funcs australia_blank) 3 2.

(** A call finishes when the recursion bound of the model did not cut it
    off: it returned or it raised. *)
Definition finishes (A : Type) (m : outcome A) : Prop := m <> Unfinished.

(** A rule is total when it finishes on every state. *)
Definition total (f : rule) : Prop := forall st, finishes (f st).

(** A problem is well formed when every variable of [X], every member of
    a group and every peer is a key of the state, and every key has its
    entry in the peers. *)
Definition well_formed (self : ConstraintSolver) : Prop :=
  let K := keys (internal_state self) in
  incl (X self) K /\
  (forall k, In k K ->
     exists ps, get (peers self) k = Some ps /\ incl ps K) /\
  (forall g, In g (C self) -> incl g K).

Definition well_formedb (self : ConstraintSolver) : bool :=
  let K := keys (internal_state self) in
  forallb (fun x => mem_str x K) (X self) &&
  forallb (fun k => match get (peers self) k with
                    | Some ps => forallb (fun p => mem_str p K) ps
                    | None => false
                    end) K &&
  forallb (fun g => forallb (fun x => mem_str x K) g) (C self).

Definition returns (A : Type) (m : outcome A) : Prop :=
  exists a, m = Returned a.

(** A rule is defined on the states with keys [K] when it returns on
    every one of them. *)
Definition defined_on (K : list string) (f : rule) : Prop :=
  forall st, keys st = K -> returns (f st).

(** A full assignment gives every variable one symbol.  It is consistent
    with the groups when two different variables of one group get
    different symbols, and it is within a state when the symbol of every
    variable is one of its candidates there. *)
Definition assignment := string -> ascii.

Definition consistent (units : list (list string)) (sigma : assignment)
  : Prop :=
  forall g a b, In g units -> In a g -> In b g -> a <> b ->
  sigma a <> sigma b.

Definition within (sigma : assignment) (st : State) : Prop :=
  forall k v, get st k = Some v -> In (sigma k) v.

Definition solvable (self : ConstraintSolver) : Prop :=
  exists sigma, consistent (C self) sigma /\ within sigma (internal_state self).

(** The map with Western Australia and the Northern Territory both red. *)
Definition australia_clash : ConstraintSolver :=
  Australia.init (Some [("WA", chars "R"); ("NT", chars "R")]%string).

Definition australia_clash_after : ConstraintSolver :=
  mkSolver
    [("WA", chars "R"); ("NT", []); ("SA", chars "B");
     ("QL", chars "R"); ("NSW", chars "G"); ("VT", chars "R")]%string
    Australia.X_map Australia.D_map Australia.C_map
    (make_peers Australia.C_map Australia.X_map) false
    (reduce_funcs australia_clash) 1 0.

(** A call of the base constructor: it raises nowhere and validates
    nothing, so the caller always gets the object. *)
Definition construct (state : State) (xs : list string) (dom : cand)
  (units : list (list string)) (prs : dict (list string))
  : option ConstraintSolver :=
  Some (ConstraintSolver_init state xs dom units prs).

(** The inputs the description wants refused: a group with a variable that
    is not in the variable list, an alphabet with a repeated symbol, an
    initial value with a symbol that is not in the alphabet.  (The alphabet
    is a string, so each of its values is one symbol.) *)
Definition invalid_problem (state : State) (xs : list string) (dom : cand)
  (units : list (list string)) : Prop :=
  (exists g v, In g units /\ In v g /\ ~ In v xs) \/
  ~ NoDup dom \/
  (exists k v c, get state k = Some v /\ In c v /\ ~ In c dom).

(** The claim of the description, for a constructor [build]. *)
Definition rejects_invalid
  (build : State -> list string -> cand -> list (list string) ->
           dict (list string) -> option ConstraintSolver) : Prop :=
  forall state xs dom units prs,
    invalid_problem state xs dom units ->
    build state xs dom units prs = None.

(** The claim of the description: a second call on the solver the first
    call left gives the same result and the same two counts. *)
Definition repeated_solve_same (self : ConstraintSolver) (fuel : nat)
  : Prop :=
  forall self1 b1 self2 b2,
    solve fuel self = Returned (self1, b1) ->
    solve fuel self1 = Returned (self2, b2) ->
    b1 = b2 /\ reduce_count self1 = reduce_count self2 /\
    search_count self1 = search_count self2.

(** The assignment read off a state: the first candidate of every
    variable. *)
Definition assignment_of (d : State) : assignment :=
  fun k => match get d k with
           | Some (c :: _) => c
           | _ => "0"%char
           end.

Fixpoint nodupb (l : list string) : bool :=
  match l with
  | [] => true
  | x :: l' => negb (mem_str x l') && nodupb l'
  end.

(** The peers hold nothing but the groups: a peer of a variable is another
    variable of one of its groups. *)
Definition peers_from_groups (units : list (list string))
  (prs : dict (list string)) : Prop :=
  forall a ps b, get prs a = Some ps -> In b ps ->
  a <> b /\ exists g, In g units /\ In a g /\ In b g.

(** Every group has as many variables, all different, as the alphabet has
    symbols, all different: each symbol has to appear in each group. *)
Definition exact_groups (units : list (list string)) (dom : cand) : Prop :=
  NoDup dom /\
  forall g, In g units -> NoDup g /\ length g = length dom.

Definition exact_groupsb (units : list (list string)) (dom : cand) : bool :=
  (fix nodup (l : cand) : bool :=
     match l with
     | [] => true
     | c :: l' => negb (mem c l') && nodup l'
     end) dom &&
  forallb (fun g => nodupb g && (length g =? length dom)) units.

(** A rule is sound for an assignment, on the states with keys [K], when
    it keeps the assignment within the state. *)
Definition sound_on (K : list string) (sigma : assignment) (f : rule)
  : Prop :=
  forall st st', keys st = K -> within sigma st -> f st = Returned st' ->
  within sigma st'.

(** Three variables, each pair of them a group, three colours, and [B]
    restricted to two of them. *)
Definition triangle : ConstraintSolver :=
  let units := [["A"; "B"]; ["B"; "C"]; ["A"; "C"]]%string in
  let xs := ["A"; "B"; "C"]%string in
  ConstraintSolver_init
    [("A", chars "RGB"); ("B", chars "RG"); ("C", chars "RGB")]%string
    xs (chars "RGB") units (make_peers units xs).

(** The claim of the description: [solve] fails exactly when no consistent
    assignment exists. *)
Definition unsolvable_exactly (self : ConstraintSolver) (fuel : nat) : Prop :=
  forall self' b, solve fuel self = Returned (self', b) ->
  (b = false <-> ~ solvable self).

(** What one turn of the innermost loop of [naked_twins] does to the
    candidates of a box. *)
Definition twin_step (twin : cand) (num : ascii) (v : cand) : cand :=
  if negb (cand_eqb twin v) then replace_empty v [num] else v.

(** The state [S] reached from [S0] while a unit is processed: [S] is
    below [S0]; the candidates of a box are those it had or fewer; boxes
    that had the same candidates still have the same. *)
Definition twins_invariant (unit : list string) (S0 S : State) : Prop :=
  state_le S S0 /\
  (forall b v, In b unit -> get S0 b = Some v ->
     exists w, get S b = Some w /\ (w = v \/ length w < length v)) /\
  (forall b b' v, In b unit -> In b' unit ->
     get S0 b = Some v -> get S0 b' = Some v -> get S b = get S b').

(** Two dictionaries of peers that list the same peers for every variable,
    each once, in whatever order. *)
Definition same_peers (prs prs' : dict (list string)) : Prop :=
  forall k ps, get prs k = Some ps ->
  NoDup ps /\ exists ps', get prs' k = Some ps' /\ Permutation ps ps'.

(** The candidates [v'] are the candidates [v], or one symbol of them. *)
Definition same_or_chosen (dom : cand) (v' v : cand) : Prop :=
  v' = v \/ exists u, v' = [u] /\ In u v /\ In u dom.

(** Every entry of the state holds one symbol. *)
Definition fully_solved (st : State) : Prop :=
  Forall (fun kv => length (snd kv) = 1) st.

(** A solved variable and one of its peers hold the same symbol. *)
Definition peer_clash (prs : dict (list string)) (st : State) : Prop :=
  exists a ps b c, get prs a = Some ps /\ In b ps /\
                   get st a = Some [c] /\ get st b = Some [c].

(** From [cnt] to [cnt'] the count of reductions went up by at least [n]
    more than the count of branchings, and neither went down. *)
Definition counted (n : nat) (cnt cnt' : Counts) : Prop :=
  searches cnt' + reduces cnt + n <= reduces cnt' + searches cnt /\
  searches cnt <= searches cnt'.

(** The map with Western Australia and the Northern Territory both red,
    in a solver whose flag is already set. *)
Definition australia_clash_marked : ConstraintSolver :=
  mkSolver (internal_state australia_clash) (X australia_clash)
    (D australia_clash) (C australia_clash) (peers australia_clash) true
    (reduce_funcs australia_clash) 0 0.

(** What [solve] returns is an answer: it returns, it returns [True]
    exactly when the problem has a solution, and the state it then leaves
    is one. *)
Definition decides (self : ConstraintSolver) : Prop :=
  exists self' b,
    (forall fuel, unsolved_count (internal_state self) < fuel ->
       solve fuel self = Returned (self', b)) /\
    (b = true <-> solvable self) /\
    (b = true ->
     (forall x, In x (X self) ->
        exists c, get (internal_state self') x = Some [c]) /\
     consistent (C self) (assignment_of (internal_state self')) /\
     within (assignment_of (internal_state self')) (internal_state self)).

(** The exception is [KeyError] for a name that is not among [K] or has
    no entry in the peers. *)
Definition missing_key (K : list string) (prs : dict (list string))
  (e : exn) : Prop :=
  exists k, e = KeyError k /\ (~ In k K \/ ~ In k (keys prs)).

(** A call that raises nothing else. *)
Definition raises_only (P : exn -> Prop) (A : Type) (m : outcome A) : Prop :=
  forall e, m = Raised e -> P e.

(** [enumerate(l)], counting from [i]. *)
Definition enumerate_from (i : nat) (l : cand) : list (nat * ascii) :=
  combine (seq i (length l)) l.

(** The entries [__cross_cord] writes, in the order it writes them. *)
Definition cord_entries (A B : cand) (i j : nat)
  : list (string * (nat * nat)) :=
  flat_map (fun si =>
    map (fun jt => (String (snd si) (String (snd jt) EmptyString),
                    (fst si, fst jt)))
        (enumerate_from j B))
    (enumerate_from i A).

(** The map with Western Australia red and nothing else coloured, and the
    states elimination, only-choice after it, and the whole propagation
    leave. *)
Definition wa_red : State :=
  Australia.state_setup (Some [("WA", chars "R")]%string).

Definition wa_red_eliminated : State :=
  [("WA", chars "R"); ("NT", chars "BG"); ("SA", chars "BG");
   ("QL", chars "RBG"); ("NSW", chars "RBG"); ("VT", chars "RBG")]%string.

Definition wa_red_chosen : State :=
  [("WA", chars "R"); ("NT", chars "BG"); ("SA", chars "BG");
   ("QL", chars "R"); ("NSW", chars "RBG"); ("VT", chars "RBG")]%string.

Definition wa_red_reduced : State :=
  [("WA", chars "R"); ("NT", chars "BG"); ("SA", chars "BG");
   ("QL", chars "R"); ("NSW", chars "BG"); ("VT", chars "R")]%string.

(** A colouring of the map with Western Australia red. *)
Definition wa_red_coloured : State :=
  [("WA", chars "R"); ("NT", chars "B"); ("SA", chars "G");
   ("QL", chars "R"); ("NSW", chars "B"); ("VT", chars "R")]%string.

(** Two variables in one group, and a variable list that names a third. *)
Definition unknown_variable_problem : ConstraintSolver :=
  ConstraintSolver_init
    [("A", chars "RG"); ("B", chars "RG")]%string ["A"; "Z"]%string
    (chars "RG") [["A"; "B"]]%string
    (make_peers [["A"; "B"]]%string ["A"; "B"]%string).

(** The same two variables, and a second group that names a third. *)
Definition unknown_member_problem : ConstraintSolver :=
  ConstraintSolver_init
    [("A", chars "RG"); ("B", chars "RG")]%string ["A"; "B"]%string
    (chars "RG") [["A"; "B"]; ["A"; "Z"]]%string
    (make_peers [["A"; "B"]]%string ["A"; "B"]%string).

(** The grid of the docstring of [Sudoku]. *)
Definition docstring_grid : cand :=
  chars "5.............62....1....7...6..8...3...9...7...6..4...4....8....52.............3".

(** The peers of the map, each set listed backwards. *)
Definition reversed_peers : dict (list string) :=
  map (fun kv => (fst kv, rev (snd kv))) (peers australia_blank).

(** The line of one item: the full name of the region in twenty columns,
    a colon and a space, the full names of its colours with commas. *)
Definition map_line (kv : string * cand) (line : cand) : Prop :=
  exists name names,
    get MapConsole.X_name (fst kv) = Some name /\
    Forall2 (fun c n => exists colour,
               get MapConsole.D_map_name (String c EmptyString) = Some colour
               /\ n = chars colour) (snd kv) names /\
    length (MapConsole.ljust (chars name) 20) = 20 /\
    line = MapConsole.ljust (chars name) 20 ++ chars ": "
           ++ Console.join [","%char] names.

(** Three boxes in one unit, two of them twins. *)
Definition twins_before : State :=
  [("A", chars "12"); ("B", chars "12"); ("C", chars "123")]%string.

Definition twins_after : State :=
  [("A", chars "12"); ("B", chars "12"); ("C", chars "3")]%string.

(** The propagation loop as the description words it, written without the
    helpers of the code.  A variable is solved when its candidate set has
    exactly one member and contradictory when it has none.  A pass applies
    the rules in order, each on the state the one before returned, and
    stops at once when a rule has left a variable with no candidate.  The
    loop records the count of solved variables, makes a pass, and stops on
    the infeasible result if the pass was cut short, on the state reached
    if the count is what it was, and goes on from that state if not.  The
    result holds the state at which the loop stopped, with [true] for the
    fixed point and [false] for the infeasible result. *)
Module Described.

Definition is_solved (v : cand) : bool :=
  match v with
  | [_] => true
  | _ => false
  end.

Definition is_contradictory (v : cand) : bool :=
  match v with
  | [] => true
  | _ => false
  end.

Fixpoint solved_count (st : State) : nat :=
  match st with
  | [] => 0
  | (_, v) :: st' => (if is_solved v then 1 else 0) + solved_count st'
  end.

Fixpoint contradictory (st : State) : bool :=
  match st with
  | [] => false
  | (_, v) :: st' => is_contradictory v || contradictory st'
  end.

Fixpoint run_pass (funcs : list rule) (st : State)
  : outcome (State * bool) :=
  match funcs with
  | [] => Returned (st, true)
  | f :: funcs' =>
      st1 <- f st ;;
      if contradictory st1 then Returned (st1, false)
      else run_pass funcs' st1
  end.

Fixpoint loop (funcs : list rule) (fuel : nat) (st : State)
  : outcome (State * bool) :=
  match fuel with
  | O => Unfinished
  | S fuel' =>
      let before := solved_count st in
      '(st1, whole) <- run_pass funcs st ;;
      if negb whole then Returned (st1, false)
      else if before =? solved_count st1 then Returned (st1, true)
      else loop funcs fuel' st1
  end.

(** The same loop with the test for a contradictory variable moved to the
    end of the pass: the pass is never cut short, and the test comes when
    every rule has been applied, before the counts are compared. *)
Fixpoint whole_pass (funcs : list rule) (st : State) : outcome State :=
  match funcs with
  | [] => Returned st
  | f :: funcs' => st1 <- f st ;; whole_pass funcs' st1
  end.

Fixpoint loop_late (funcs : list rule) (fuel : nat) (st : State)
  : outcome (State * bool) :=
  match fuel with
  | O => Unfinished
  | S fuel' =>
      let before := solved_count st in
      st1 <- whole_pass funcs st ;;
      if contradictory st1 then Returned (st1, false)
      else if before =? solved_count st1 then Returned (st1, true)
      else loop_late funcs fuel' st1
  end.

End Described.

(** The claim of the description: [__reduce] stops where the described
    loop stops, with the same result and the same state left in the
    dictionary. *)
Definition stops_as_described (funcs : list rule) (fuel : nat) (st : State)
  : Prop :=
  forall r, reduce_loop funcs fuel st = Returned r ->
            Described.loop funcs fuel st = Returned r.

(** The state of the clashing map when elimination has emptied the
    Northern Territory, before only-choice has run. *)
Definition australia_clash_eliminated : State :=
  [("WA", chars "R"); ("NT", []); ("SA", chars "BG");
   ("QL", chars "RBG"); ("NSW", chars "RBG"); ("VT", chars "RBG")]%string.

(** Every branch of the search from a state has been tried and has ended
    on an empty candidate string: the propagation of the state is
    infeasible; or it stalls on a state that is not solved and, whichever
    candidate is assigned to the variable the search branches on, the same
    holds of the state that results. *)
Inductive exhausted (funcs : list rule) (xs : list string) : State -> Prop :=
| exhausted_infeasible st fuel st1 :
    reduce_loop funcs fuel st = Returned (st1, false) ->
    exhausted funcs xs st
| exhausted_branches st fuel st1 pairs n s vals :
    reduce_loop funcs fuel st = Returned (st1, true) ->
    all_solved st1 xs = Returned false ->
    unsolved_pairs st1 xs = Returned pairs ->
    py_min pairs = Returned (n, s) ->
    get st1 s = Some vals ->
    (forall val new, In val vals ->
       assign_value st1 s [val] = Returned new ->
       exhausted funcs xs new) ->
    exhausted funcs xs st.

(** A grid with no solution on which propagation stalls and the search
    has to branch. *)
Definition dead_end_grid : cand :=
  chars ".....9.....265..4......4316....3.16..9.....3...6912..8..9.4...15.3.......6.87...3".

Definition sudoku_dead_end : ConstraintSolver :=
  match Sudoku.init dead_end_grid false with
  | Some self => self
  | None => australia_blank
  end.

(** The map with no colouring on which elimination finds nothing to
    remove, and the solver a failed [solve] leaves. *)
Definition australia_dead_end : ConstraintSolver :=
  Australia.init
    (Some [("WA", chars "G"); ("NT", chars "RB"); ("SA", chars "RB");
           ("QL", chars "G"); ("NSW", chars "RB"); ("VT", chars "RB")]%string).

Definition australia_dead_end_after : ConstraintSolver :=
  mkSolver (internal_state australia_dead_end)
    Australia.X_map Australia.D_map Australia.C_map
    (make_peers Australia.C_map Australia.X_map) false
    (reduce_funcs australia_dead_end) 3 1.

(** The result and the two counts of a call. *)
Definition report (r : outcome (ConstraintSolver * bool))
  : option (bool * nat * nat) :=
  match r with
  | Returned (self', b) => Some (b, reduce_count self', search_count self')
  | _ => None
  end.

(** Two variables in one group, both red, with peers that do not list
    one for the other. *)
Definition unlinked_pair : ConstraintSolver :=
  ConstraintSolver_init
    [("A", chars "R"); ("B", chars "R")]%string ["A"; "B"]%string
    (chars "RG") [["A"; "B"]]%string [("A", []); ("B", [])]%string.

(** The claim of the description: after a [solve] that returned [True]
    every variable has exactly one candidate, and in every group the
    values of two different variables differ. *)
Definition success_solved_distinct (self : ConstraintSolver) (fuel : nat)
  : Prop :=
  forall self', solve fuel self = Returned (self', true) ->
  (forall x, In x (X self) ->
     exists c, get (internal_state self') x = Some [c]) /\
  (forall g a b ca cb,
     In g (C self) -> In a g -> In b g -> a <> b ->
     get (internal_state self') a = Some [ca] ->
     get (internal_state self') b = Some [cb] -> ca <> cb).

(** The claim of the description: after a [solve] that returned [True]
    the single value of every variable is one of the candidates the
    variable had before the call. *)
Definition success_within_initial (self : ConstraintSolver) (fuel : nat)
  : Prop :=
  forall self', solve fuel self = Returned (self', true) ->
  forall x, In x (X self) ->
  exists c v0, get (internal_state self') x = Some [c] /\
               get (internal_state self) x = Some v0 /\ In c v0.

(** The solved map after [assign_value(state, 'NT', state['WA'])]: the
    Northern Territory has the colour of Western Australia, and the flag
    is the one the first [solve] set. *)
Definition australia_recoloured : ConstraintSolver :=
  mkSolver
    (set (internal_state australia_coloured) "NT"%string (chars "B"))
    Australia.X_map Australia.D_map Australia.C_map
    (make_peers Australia.C_map Australia.X_map) true
    (reduce_funcs australia_blank) 3 2.

(* ================================================================== *)
(** * Candidate strings and dictionaries *)

Lemma sub_refl v : sub v v.
Proof. split; [apply incl_refl | lia]. Qed.

Lemma sub_trans u v w : sub u v -> sub v w -> sub u w.
Proof.
  intros [H1 H2] [H3 H4]; split; [eapply incl_tran; eauto | lia].
Qed.

Lemma sub_nil v : sub [] v.
Proof. split; [intros c [] | simpl; lia]. Qed.

Lemma sub_of_nil w : sub w [] -> w = [].
Proof. intros [_ H]; destruct w; simpl in H; [reflexivity | lia]. Qed.

Lemma sub_of_single w c : sub w [c] -> w = [] \/ w = [c].
Proof.
  intros [Hi Hl]. destruct w as [|a [|b w]]; simpl in Hl; try lia; auto.
  right. destruct (Hi a (or_introl eq_refl)) as [->|[]]. reflexivity.
Qed.

Lemma cand_eqb_eq a b : cand_eqb a b = true <-> a = b.
Proof.
  unfold cand_eqb; destruct (list_eq_dec ascii_dec a b); split;
    intros; congruence.
Qed.

Lemma cand_eqb_refl a : cand_eqb a a = true.
Proof. apply cand_eqb_eq; reflexivity. Qed.

Lemma mem_In c s : mem c s = true <-> In c s.
Proof.
  unfold mem; rewrite existsb_exists; split.
  - intros [x [Hx He]]. apply Ascii.eqb_eq in He; subst; assumption.
  - intros H; exists c; split; [assumption | apply Ascii.eqb_refl].
Qed.

Lemma remove_from_sub old : forall s skip, sub (remove_from old skip s) s.
Proof.
  induction s as [|c s IH]; intros skip; simpl.
  - apply sub_refl.
  - destruct skip as [|k].
    + destruct (is_prefix old (c :: s)).
      * destruct (IH (length old - 1)) as [Hi Hl]; split;
          [apply incl_tl; assumption | simpl; lia].
      * destruct (IH 0) as [Hi Hl]; split.
        -- intros x [->|Hx]; [left; reflexivity | right; apply Hi; assumption].
        -- simpl; lia.
    + destruct (IH k) as [Hi Hl]; split;
        [apply incl_tl; assumption | simpl; lia].
Qed.

Lemma replace_empty_sub s old : sub (replace_empty s old) s.
Proof.
  destruct old; unfold replace_empty; [apply sub_refl | apply remove_from_sub].
Qed.

(** Removing one symbol keeps every other symbol. *)
Lemma replace_single_keeps s v c :
  In c s -> c <> v -> In c (replace_empty s [v]).
Proof.
  unfold replace_empty. induction s as [|a s IH]; simpl; intros Hin Hne.
  - contradiction.
  - destruct (Ascii.eqb v a) eqn:E; simpl.
    + apply Ascii.eqb_eq in E; subst a.
      destruct Hin as [->|Hin]; [congruence | apply IH; assumption].
    + destruct Hin as [->|Hin]; [left; reflexivity | right; apply IH; assumption].
Qed.

Lemma replace_single_self v : replace_empty [v] [v] = [].
Proof. unfold replace_empty; simpl. rewrite Ascii.eqb_refl. reflexivity. Qed.

(** A lookup on one side of [state_rel] has its counterpart on the other. *)
Lemma state_rel_get R st' st k v :
  state_rel R st' st -> get st k = Some v ->
  exists v', get st' k = Some v' /\ R v' v.
Proof.
  induction 1 as [|[k1 v1] [k2 v2] l l' [Hk Hs] _ IH]; simpl; intros Hg.
  - discriminate.
  - simpl in Hk, Hs; subst k2.
    destruct (String.eqb k1 k).
    + inversion Hg; subst; eauto.
    + apply IH; assumption.
Qed.

Lemma state_rel_get_rev R st' st k v' :
  state_rel R st' st -> get st' k = Some v' ->
  exists v, get st k = Some v /\ R v' v.
Proof.
  induction 1 as [|[k1 v1] [k2 v2] l l' [Hk Hs] _ IH]; simpl; intros Hg.
  - discriminate.
  - simpl in Hk, Hs; subst k2.
    destruct (String.eqb k1 k).
    + inversion Hg; subst; eauto.
    + apply IH; assumption.
Qed.

Lemma state_le_refl st : state_le st st.
Proof.
  induction st; constructor; [split; [reflexivity | apply sub_refl] | assumption].
Qed.

Lemma state_le_trans a b c : state_le a b -> state_le b c -> state_le a c.
Proof.
  unfold state_le, state_rel; intros H; revert c.
  induction H as [|x y l l' [Hk Hs] _ IH]; intros c Hc; inversion Hc; subst.
  - constructor.
  - constructor.
    + destruct H1 as [Hk' Hs']; split; [congruence | eapply sub_trans; eauto].
    + apply IH; assumption.
Qed.

Lemma state_le_keys st' st : state_le st' st -> keys st' = keys st.
Proof.
  unfold keys; induction 1 as [|x y l l' [Hk _] _ IH]; simpl; [reflexivity|].
  rewrite Hk, IH; reflexivity.
Qed.

Lemma state_le_length st' st : state_le st' st -> length st' = length st.
Proof. intros H; eapply Forall2_length; exact H. Qed.

Lemma state_le_get st' st k v :
  state_le st' st -> get st k = Some v ->
  exists v', get st' k = Some v' /\ sub v' v.
Proof. apply state_rel_get. Qed.

Lemma state_le_get_rev st' st k v' :
  state_le st' st -> get st' k = Some v' ->
  exists v, get st k = Some v /\ sub v' v.
Proof. apply state_rel_get_rev. Qed.

Lemma get_set_same (st : State) k v w :
  get st k = Some v -> get (set st k w) k = Some w.
Proof.
  induction st as [|[k1 v1] st IH]; simpl; intros Hg; [discriminate|].
  destruct (String.eqb k1 k) eqn:E; simpl; rewrite E; auto.
Qed.

Lemma get_set_other (st : State) k k' w :
  k' <> k -> get (set st k w) k' = get st k'.
Proof.
  intros Hne. induction st as [|[k1 v1] st IH]; simpl.
  - destruct (String.eqb k k') eqn:E; [|reflexivity].
    apply String.eqb_eq in E; congruence.
  - destruct (String.eqb k1 k) eqn:E; simpl.
    + apply String.eqb_eq in E; subst k1.
      destruct (String.eqb k k') eqn:E'; [|reflexivity].
      apply String.eqb_eq in E'; congruence.
    + destruct (String.eqb k1 k'); [reflexivity | assumption].
Qed.

Lemma set_le (st : State) k v w :
  get st k = Some v -> sub w v -> state_le (set st k w) st.
Proof.
  induction st as [|[k1 v1] st IH]; simpl; intros Hg Hs; [discriminate|].
  destruct (String.eqb k1 k).
  - inversion Hg; subst. constructor; [split; auto | apply state_le_refl].
  - constructor; [split; [reflexivity | apply sub_refl] | apply IH; assumption].
Qed.

(** Inversion of a bind that returned. *)
Lemma bind_Returned A B (m : outcome A) (f : A -> outcome B) b :
  bind m f = Returned b -> exists a, m = Returned a /\ f a = Returned b.
Proof. destruct m; simpl; intros H; try discriminate; eauto. Qed.

Lemma getitem_Returned V (d : dict V) k v :
  getitem d k = Returned v <-> get d k = Some v.
Proof.
  unfold getitem; destruct (get d k); split; intros H; inversion H; reflexivity.
Qed.

Ltac inv_bind H :=
  let a := fresh "a" in
  let Ha := fresh "Ha" in
  apply bind_Returned in H; destruct H as [a [Ha H]].

Lemma assign_value_spec state item new_val st' :
  assign_value state item new_val = Returned st' ->
  exists old, get state item = Some old /\
              get st' item = Some new_val /\
              (forall k, k <> item -> get st' k = get state k) /\
              (sub new_val old -> state_le st' state).
Proof.
  unfold assign_value; intros H. inv_bind H.
  apply getitem_Returned in Ha. exists a; split; [assumption|].
  destruct (cand_eqb a new_val) eqn:E; simpl in H; inversion H; subst.
  - apply cand_eqb_eq in E; subst. repeat split; auto using state_le_refl.
  - repeat split.
    + eapply get_set_same; eauto.
    + intros; apply get_set_other; assumption.
    + intros; eapply set_le; eauto.
Qed.

(* ================================================================== *)
(** * The rules only remove candidates *)

Lemma assign_value_le state item new_val old st' :
  get state item = Some old -> sub new_val old ->
  assign_value state item new_val = Returned st' -> state_le st' state.
Proof.
  intros Hg Hs H. apply assign_value_spec in H.
  destruct H as [old' [Hg' [_ [_ Hle]]]].
  rewrite Hg in Hg'; inversion Hg'; subst; auto.
Qed.

Lemma eliminate_peers_le val : forall ps st st',
  eliminate_peers val ps st = Returned st' -> state_le st' st.
Proof.
  induction ps as [|peer ps IH]; simpl; intros st st' H.
  - inversion H; apply state_le_refl.
  - inv_bind H. apply getitem_Returned in Ha. inv_bind H.
    eapply state_le_trans; [eapply IH; eassumption|].
    eapply assign_value_le; eauto using replace_empty_sub.
Qed.

Lemma eliminate_items_le prs : forall items st st',
  eliminate_items prs items st = Returned st' -> state_le st' st.
Proof.
  induction items as [|item items IH]; simpl; intros st st' H.
  - inversion H; apply state_le_refl.
  - inv_bind H. inv_bind H. inv_bind H.
    eapply state_le_trans; [eapply IH; eassumption|].
    eapply eliminate_peers_le; eassumption.
Qed.

Lemma eliminate_shrinking prs : shrinking (eliminate prs).
Proof. intros st st' H; eapply eliminate_items_le; exact H. Qed.

(** Every variable in [dplaces] has the symbol among its candidates. *)
Lemma dplaces_In unit_val state : forall unit dp item,
  dplaces unit_val unit state = Returned dp -> In item dp ->
  In item unit /\ exists v, get state item = Some v /\ In unit_val v.
Proof.
  induction unit as [|x unit IH]; simpl; intros dp item H Hin.
  - inversion H; subst; contradiction.
  - inv_bind H. apply getitem_Returned in Ha. inv_bind H.
    inversion H; subst; clear H.
    destruct (mem unit_val a) eqn:E.
    + destruct Hin as [->|Hin].
      * split; [left; reflexivity|]. exists a; split; [assumption|].
        apply mem_In; assumption.
      * destruct (IH _ _ Ha0 Hin) as [H1 H2]; split; [right|]; assumption.
    + destruct (IH _ _ Ha0 Hin) as [H1 H2]; split; [right|]; assumption.
Qed.

Lemma single_sub c v : In c v -> sub [c] v.
Proof.
  intros Hin; split.
  - intros x [->|[]]; assumption.
  - destruct v; [contradiction | simpl; lia].
Qed.

Lemma only_choice_vals_le unit : forall vals st st',
  only_choice_vals unit vals st = Returned st' -> state_le st' st.
Proof.
  induction vals as [|u vals IH]; simpl; intros st st' H.
  - inversion H; apply state_le_refl.
  - inv_bind H. inv_bind H.
    eapply state_le_trans; [eapply IH; eassumption|].
    destruct a as [|item [|? ?]]; try (inversion Ha0; apply state_le_refl).
    destruct (dplaces_In _ _ _ item Ha (or_introl eq_refl))
      as [_ [v [Hg Hin]]].
    eapply assign_value_le; eauto using single_sub.
Qed.

Lemma only_choice_units_le dom : forall units st st',
  only_choice_units units dom st = Returned st' -> state_le st' st.
Proof.
  induction units as [|unit units IH]; simpl; intros st st' H.
  - inversion H; apply state_le_refl.
  - inv_bind H.
    eapply state_le_trans; [eapply IH; eassumption|].
    eapply only_choice_vals_le; eassumption.
Qed.

Lemma only_choice_shrinking units dom : shrinking (only_choice units dom).
Proof. intros st st' H; eapply only_choice_units_le; exact H. Qed.

Lemma twins_boxes_le twin num : forall unit st st',
  Sudoku.twins_boxes twin num unit st = Returned st' -> state_le st' st.
Proof.
  induction unit as [|box unit IH]; simpl; intros st st' H.
  - inversion H; apply state_le_refl.
  - inv_bind H. apply getitem_Returned in Ha. inv_bind H.
    eapply state_le_trans; [eapply IH; eassumption|].
    destruct (negb (cand_eqb twin a)).
    + eapply assign_value_le; eauto using replace_empty_sub.
    + inversion Ha0; apply state_le_refl.
Qed.

Lemma twins_nums_le twin unit : forall nums st st',
  Sudoku.twins_nums twin nums unit st = Returned st' -> state_le st' st.
Proof.
  induction nums as [|num nums IH]; simpl; intros st st' H.
  - inversion H; apply state_le_refl.
  - inv_bind H.
    eapply state_le_trans; [eapply IH; eassumption|].
    eapply twins_boxes_le; eassumption.
Qed.

Lemma twins_loop_le unit : forall twins st st',
  Sudoku.twins_loop twins unit st = Returned st' -> state_le st' st.
Proof.
  induction twins as [|twin twins IH]; simpl; intros st st' H.
  - inversion H; apply state_le_refl.
  - inv_bind H.
    eapply state_le_trans; [eapply IH; eassumption|].
    eapply twins_nums_le; eassumption.
Qed.

Lemma naked_twins_units_le : forall units st st',
  Sudoku.naked_twins_units units st = Returned st' -> state_le st' st.
Proof.
  induction units as [|unit units IH]; simpl; intros st st' H.
  - inversion H; apply state_le_refl.
  - inv_bind H. inv_bind H.
    eapply state_le_trans; [eapply IH; eassumption|].
    eapply twins_loop_le; eassumption.
Qed.

Lemma naked_twins_shrinking units : shrinking (Sudoku.naked_twins units).
Proof. intros st st' H; eapply naked_twins_units_le; exact H. Qed.

Lemma apply_rules_le : forall funcs st st',
  Forall shrinking funcs ->
  apply_rules funcs st = Returned st' -> state_le st' st.
Proof.
  induction funcs as [|f funcs IH]; simpl; intros st st' HF H.
  - inversion H; apply state_le_refl.
  - inversion HF; subst. inv_bind H.
    eapply state_le_trans; [eapply IH; eassumption|]. auto.
Qed.

(* ================================================================== *)
(** * Counting solved variables *)

Lemma unsolvable_units_false st : unsolvable_units st = false <-> no_empty st.
Proof.
  unfold unsolvable_units, no_empty. induction st as [|[k v] st IH]; simpl.
  - split; [constructor | reflexivity].
  - destruct v as [|c v]; simpl.
    + split; [discriminate | intros H; inversion H; subst; simpl in *; congruence].
    + rewrite IH. split; intros H.
      * constructor; [simpl; discriminate | assumption].
      * inversion H; assumption.
Qed.

Lemma solved_units_count_cons k v st :
  solved_units_count ((k, v) :: st) =
  (if length v =? 1 then 1 else 0) + solved_units_count st.
Proof.
  unfold solved_units_count, solved_units; simpl.
  destruct (length v =? 1); simpl; reflexivity.
Qed.

Lemma unsolved_count_cons k v st :
  unsolved_count ((k, v) :: st) =
  (if length v =? 1 then 0 else 1) + unsolved_count st.
Proof.
  unfold unsolved_count; simpl. destruct (length v =? 1); reflexivity.
Qed.

Lemma solved_plus_unsolved st :
  solved_units_count st + unsolved_count st = length st.
Proof.
  induction st as [|[k v] st IH]; [reflexivity|].
  rewrite solved_units_count_cons, unsolved_count_cons; simpl length.
  destruct (length v =? 1); lia.
Qed.

Lemma In_solved_units st k c :
  get st k = Some [c] -> In k (solved_units st).
Proof.
  unfold solved_units. induction st as [|[k1 v1] st IH]; simpl; intros H.
  - discriminate.
  - destruct (String.eqb k1 k) eqn:E.
    + inversion H; subst. apply String.eqb_eq in E; subst. simpl. left; reflexivity.
    + destruct (length v1 =? 1); simpl; auto.
Qed.

(** Without an empty candidate string after it, a shrinking step keeps
    every solved variable solved, with its value. *)
Lemma solved_stays st' st :
  state_le st' st -> no_empty st' ->
  state_rel (fun v' v => length v = 1 -> v' = v) st' st.
Proof.
  induction 1 as [|[k1 v1] [k2 v2] l l' [Hk Hs] _ IH]; intros Hne.
  - constructor.
  - inversion Hne; subst. constructor; [|apply IH; assumption].
    split; [assumption|]. simpl in *. intros Hl.
    destruct v2 as [|c [|? ?]]; simpl in Hl; try lia.
    destruct (sub_of_single Hs); congruence.
Qed.

Lemma solved_count_mono st' st :
  state_le st' st -> no_empty st' ->
  solved_units_count st <= solved_units_count st'.
Proof.
  intros Hle Hne. pose proof (solved_stays Hle Hne) as Hs. clear Hle Hne.
  induction Hs as [|[k1 v1] [k2 v2] l l' [Hk Hv] _ IH]; [lia|].
  rewrite !solved_units_count_cons. simpl in Hv.
  destruct (length v2 =? 1) eqn:E2.
  - apply Nat.eqb_eq in E2. rewrite (Hv E2), E2; simpl. lia.
  - destruct (length v1 =? 1); lia.
Qed.

(** If moreover the count of solved variables is the same, the solved
    variables are the same ones. *)
Lemma solved_count_same st' st :
  state_le st' st -> no_empty st' ->
  solved_units_count st = solved_units_count st' ->
  state_rel (fun v' v => length v' = 1 -> v = v') st' st.
Proof.
  induction 1 as [|[k1 v1] [k2 v2] l l' [Hk Hs] Hl IH]; intros Hne Hc.
  - constructor.
  - inversion Hne; subst.
    pose proof (@solved_count_mono l l' Hl H2) as Hm.
    rewrite !solved_units_count_cons in Hc. simpl in *.
    assert (Hst : length v2 = 1 -> v1 = v2).
    { intros E. destruct v2 as [|c [|? ?]]; simpl in E; try lia.
      destruct (sub_of_single Hs); congruence. }
    destruct (length v2 =? 1) eqn:E2.
    + apply Nat.eqb_eq in E2. pose proof (Hst E2) as ->.
      rewrite E2 in Hc; simpl in Hc.
      constructor; [split; auto | apply IH; [assumption | lia]].
    + destruct (length v1 =? 1) eqn:E1; [lia|].
      apply Nat.eqb_neq in E1.
      constructor; [split; [assumption | simpl; intros; contradiction]
                   | apply IH; [assumption | lia]].
Qed.

Lemma unsolved_count_mono st' st :
  state_le st' st -> no_empty st' -> unsolved_count st' <= unsolved_count st.
Proof.
  intros Hle Hne.
  pose proof (solved_count_mono Hle Hne).
  pose proof (solved_plus_unsolved st). pose proof (solved_plus_unsolved st').
  pose proof (state_le_length Hle). lia.
Qed.

(* ================================================================== *)
(** * The propagation loop *)

Lemma reduce_loop_le funcs : Forall shrinking funcs ->
  forall fuel st st' b,
  reduce_loop funcs fuel st = Returned (st', b) -> state_le st' st.
Proof.
  intros HF. induction fuel as [|fuel IH]; simpl; intros st st' b H.
  - discriminate.
  - inv_bind H. pose proof (apply_rules_le _ HF Ha) as Hle.
    destruct (unsolvable_units a).
    + inversion H; subst; assumption.
    + destruct (solved_units_count st =? solved_units_count a).
      * inversion H; subst; assumption.
      * eapply state_le_trans; [eapply IH; eassumption | assumption].
Qed.

(** A state returned by the loop comes out of a last pass that left the
    count of solved variables as it was and emptied no candidate string. *)
Lemma reduce_loop_final funcs : Forall shrinking funcs ->
  forall fuel st st',
  reduce_loop funcs fuel st = Returned (st', true) ->
  exists st0, state_le st0 st /\ pass funcs st0 st' /\
              solved_units_count st0 = solved_units_count st' /\
              no_empty st'.
Proof.
  intros HF. induction fuel as [|fuel IH]; simpl; intros st st' H.
  - discriminate.
  - inv_bind H. pose proof (apply_rules_le _ HF Ha) as Hle.
    destruct (unsolvable_units a) eqn:Eu.
    + inversion H.
    + destruct (solved_units_count st =? solved_units_count a) eqn:Ec.
      * inversion H; subst. exists st; repeat split.
        -- apply state_le_refl.
        -- exact Ha.
        -- apply Nat.eqb_eq; assumption.
        -- apply unsolvable_units_false; assumption.
      * destruct (IH _ _ H) as [st0 [H0 Hrest]].
        exists st0; split; [eapply state_le_trans; eassumption | assumption].
Qed.

Lemma reduce_loop_false funcs : forall fuel st st',
  reduce_loop funcs fuel st = Returned (st', false) ->
  unsolvable_units st' = true.
Proof.
  induction fuel as [|fuel IH]; simpl; intros st st' H.
  - discriminate.
  - inv_bind H. destruct (unsolvable_units a) eqn:Eu.
    + inversion H; subst; assumption.
    + destruct (solved_units_count st =? solved_units_count a).
      * inversion H.
      * eapply IH; eassumption.
Qed.

(* ================================================================== *)
(** * The choice of the branching variable *)

Lemma string_ltb_trans a b c :
  String.ltb a b = true -> String.ltb b c = true -> String.ltb a c = true.
Proof.
  unfold String.ltb. intros Hab Hbc.
  destruct (String.compare a b) eqn:E1; try discriminate.
  destruct (String.compare b c) eqn:E2; try discriminate.
  apply String_as_OT.cmp_lt in E1, E2.
  pose proof (@String_as_OT.lt_trans _ _ _ E1 E2) as Hac.
  apply String_as_OT.cmp_lt in Hac. unfold String_as_OT.cmp in Hac.
  rewrite Hac; reflexivity.
Qed.

Lemma string_ltb_irrefl s : String.ltb s s = false.
Proof.
  unfold String.ltb. pose proof (String.compare_antisym s s) as H.
  destruct (String.compare s s); simpl in H; congruence.
Qed.

Lemma pair_ltb_trans p q r :
  pair_ltb p q = true -> pair_ltb q r = true -> pair_ltb p r = true.
Proof.
  unfold pair_ltb. destruct p as [n1 s1], q as [n2 s2], r as [n3 s3]; simpl.
  rewrite !orb_true_iff, !andb_true_iff, !Nat.ltb_lt, !Nat.eqb_eq.
  intros [H1|[H1 H1']] [H2|[H2 H2']]; try (left; lia).
  right; split; [lia | eapply string_ltb_trans; eassumption].
Qed.

Lemma string_ltb_total a b :
  String.ltb a b = false -> String.ltb b a = false -> a = b.
Proof.
  unfold String.ltb. rewrite (String.compare_antisym b a).
  destruct (String.compare a b) eqn:E; simpl; try discriminate.
  intros _ _. apply String.compare_eq_iff; assumption.
Qed.

(** The order on tuples is total: two tuples neither of which is less
    than the other are the same tuple. *)
Lemma pair_ltb_total p q :
  pair_ltb p q = false -> pair_ltb q p = false -> p = q.
Proof.
  unfold pair_ltb. destruct p as [n1 s1], q as [n2 s2]; simpl.
  rewrite !orb_false_iff, !andb_false_iff, !Nat.ltb_ge, !Nat.eqb_neq.
  intros [H1 H1'] [H2 H2'].
  assert (n1 = n2) by lia. subst n2.
  destruct H1' as [?|H1']; [congruence|].
  destruct H2' as [?|H2']; [congruence|].
  f_equal; apply string_ltb_total; assumption.
Qed.

Lemma min_from_In : forall l cur, In (min_from cur l) (cur :: l).
Proof.
  induction l as [|p l IH]; simpl; intros cur; [left; reflexivity|].
  destruct (IH (if pair_ltb p cur then p else cur)) as [H|H].
  - destruct (pair_ltb p cur); [right; left | left]; congruence.
  - right; right; assumption.
Qed.

(** Nothing in the sequence is less than the minimum. *)
Lemma min_from_least : forall l cur p,
  In p (cur :: l) -> pair_ltb p (min_from cur l) = false.
Proof.
  assert (Hmono : forall l cur, pair_ltb cur (min_from cur l) = false).
  { induction l as [|q l IH]; simpl; intros cur.
    - unfold pair_ltb. destruct cur as [n s]; simpl.
      rewrite Nat.ltb_irrefl, Nat.eqb_refl; simpl.
      apply string_ltb_irrefl.
    - destruct (pair_ltb q cur) eqn:E; [|apply IH].
      destruct (pair_ltb cur (min_from q l)) eqn:E'; [|reflexivity].
      pose proof (pair_ltb_trans _ _ _ E E') as Ht.
      rewrite IH in Ht; discriminate. }
  induction l as [|q l IH]; simpl; intros cur p Hin.
  - destruct Hin as [->|[]]. apply (Hmono [] p).
  - destruct Hin as [->|[->|Hin]].
    + apply (Hmono (q :: l) p).
    + destruct (pair_ltb p cur) eqn:E; [apply Hmono|].
      destruct (pair_ltb p (min_from cur l)) eqn:E'; [|reflexivity].
      pose proof (Hmono l cur) as Hc.
      destruct (pair_ltb cur p) eqn:E''.
      * pose proof (pair_ltb_trans _ _ _ E'' E') as Ht.
        rewrite Hc in Ht; discriminate.
      * rewrite (pair_ltb_total _ _ E E'') in E'. congruence.
    + apply IH; right; assumption.
Qed.

Lemma unsolved_pairs_In state : forall xs pairs n s,
  unsolved_pairs state xs = Returned pairs ->
  (In (n, s) pairs <->
   In s xs /\ exists v, get state s = Some v /\ n = length v /\ 1 < n).
Proof.
  induction xs as [|x xs IH]; simpl; intros pairs n s H.
  - inversion H; subst; simpl. split; [contradiction | intros [[] _]].
  - inv_bind H. apply getitem_Returned in Ha. inv_bind H.
    inversion H; subst; clear H. specialize (IH _ n s Ha0).
    destruct (1 <? length a) eqn:E.
    + apply Nat.ltb_lt in E. simpl. rewrite IH. split.
      * intros [Heq|[Hin Hv]]; [|split; [right|]; assumption].
        inversion Heq; subst. split; [left; reflexivity|].
        exists a; repeat split; assumption.
      * intros [[->|Hin] [v [Hg [Hn Hl]]]].
        -- left. rewrite Ha in Hg; inversion Hg; subst; reflexivity.
        -- right; split; [assumption|]. exists v; auto.
    + apply Nat.ltb_ge in E. rewrite IH. split.
      * intros [Hin Hv]; split; [right|]; assumption.
      * intros [[->|Hin] [v [Hg [Hn Hl]]]].
        -- rewrite Ha in Hg; inversion Hg; subst. lia.
        -- split; [assumption|]. exists v; auto.
Qed.

Lemma all_solved_true state : forall xs,
  all_solved state xs = Returned true <->
  forall x, In x xs -> exists c, get state x = Some [c].
Proof.
  induction xs as [|x xs IH]; simpl.
  - split; [intros _ y [] | reflexivity].
  - split.
    + intros H. inv_bind H. apply getitem_Returned in Ha.
      destruct (length a =? 1) eqn:E; [|discriminate].
      apply Nat.eqb_eq in E. destruct a as [|c [|? ?]]; simpl in E; try lia.
      intros y [->|Hy]; [eauto | apply IH; assumption].
    + intros H. destruct (H x (or_introl eq_refl)) as [c Hc].
      unfold getitem; rewrite Hc; simpl. apply IH.
      intros y Hy; apply H; right; assumption.
Qed.

(* ================================================================== *)
(** * The search *)

Lemma try_values_tried rec state s : forall vals cnt r cnt',
  try_values rec state s vals cnt = Returned (r, cnt') <->
  tried rec state s vals cnt r cnt'.
Proof.
  induction vals as [|val vals IH]; simpl; intros cnt r cnt'.
  - split; intros H; inversion H; subst; constructor.
  - split; intros H.
    + inv_bind H. inv_bind H. destruct a0 as [[st1 attempt] cnt1].
      destruct (truthy attempt) eqn:E.
      * inversion H; subst. eapply tried_hit; eassumption.
      * eapply tried_miss; try eassumption. apply IH; assumption.
    + inversion H as [ | ? ? ? ? ? ? ? Hass Hrec Htr
                       | ? ? ? ? ? ? ? ? ? Hass Hrec Htr Hrest ]; subst.
      * rewrite Hass; simpl. rewrite Hrec; simpl. rewrite Htr. reflexivity.
      * rewrite Hass; simpl. rewrite Hrec; simpl. rewrite Htr.
        apply IH; assumption.
Qed.

Lemma search_unfold funcs xs fuel state cnt st' r cnt' :
  search funcs xs (S fuel) state cnt = Returned (st', r, cnt') <->
  search_step funcs xs fuel state cnt st' r cnt'.
Proof.
  split.
  - intros H. cbn [search] in H. unfold reduce in H.
    inv_bind H. destruct a as [[state1 feasible] cnt1].
    inv_bind Ha. destruct a as [state1' feasible'].
    inversion Ha; subst; clear Ha.
    destruct feasible; simpl in H.
    + inv_bind H. destruct a.
      * inversion H; subst. apply step_solved; assumption.
      * inv_bind H. inv_bind H. destruct a0 as [n s].
        inv_bind H. apply getitem_Returned in Ha3.
        inv_bind H. destruct a1 as [attempt cnt3].
        inversion H; subst. apply try_values_tried in Ha4.
        eapply step_branch; eassumption.
    + inversion H; subst. apply step_infeasible; assumption.
  - intros H. cbn [search]. unfold reduce.
    inversion H as [ ? Hred | ? Hred Hall
                   | ? ? ? ? ? ? ? Hred Hall Hpairs Hmin Hget Htried ]; subst.
    + rewrite Hred; simpl. reflexivity.
    + rewrite Hred; simpl. rewrite Hall; simpl. reflexivity.
    + rewrite Hred; simpl. rewrite Hall; simpl. rewrite Hpairs; simpl.
      rewrite Hmin; simpl. unfold getitem; rewrite Hget; simpl.
      apply try_values_tried in Htried. rewrite Htried. reflexivity.
Qed.

(** Induction over the successful searches: a property of the state that
    comes back holds if it holds where the search stops and is carried
    from every branch to the state that was branched on. *)
Lemma search_success_ind funcs xs (Q : State -> State -> Prop) :
  (forall fuel st st1,
      reduce_loop funcs fuel st = Returned (st1, true) ->
      all_solved st1 xs = Returned true -> Q st st1) ->
  (forall fuel st st1 pairs n s vals val new d,
      reduce_loop funcs fuel st = Returned (st1, true) ->
      unsolved_pairs st1 xs = Returned pairs ->
      py_min pairs = Returned (n, s) ->
      get st1 s = Some vals -> In val vals ->
      assign_value st1 s [val] = Returned new ->
      Q new d -> Q st d) ->
  forall fuel st cnt st' d cnt',
    search funcs xs fuel st cnt = Returned (st', PyDict d, cnt') -> Q st d.
Proof.
  intros Hbase Hstep. induction fuel as [|fuel IH]; intros st cnt st' d cnt' H.
  - discriminate.
  - apply search_unfold in H.
    inversion H as [ ? Hred | ? Hred Hall
                   | ? ? ? ? ? ? ? Hred Hall Hpairs Hmin Hget Htried ]; subst.
    + eapply Hbase; eassumption.
    + assert (Ht : forall vs c r c',
                 tried (search funcs xs fuel) st' s vs c r c' ->
                 incl vs vals -> r = PyDict d -> Q st d).
      { clear Htried H. induction 1; intros Hi Hr.
        - discriminate.
        - subst attempt. eapply Hstep; try eassumption.
          + apply Hi; left; reflexivity.
          + eapply IH; eassumption.
        - apply IHtried; [|assumption].
          intros x Hx; apply Hi; right; assumption. }
      eapply Ht; [eassumption | apply incl_refl | reflexivity].
Qed.

(* ================================================================== *)
(** * Elimination empties one of two clashing peers *)

Lemma replace_of_sub_single vb c :
  sub vb [c] -> replace_empty vb [c] = [].
Proof.
  intros H; destruct (sub_of_single H); subst.
  - reflexivity.
  - apply replace_single_self.
Qed.

Lemma eliminate_peers_clash c b : forall ps st st1,
  eliminate_peers [c] ps st = Returned st1 -> In b ps ->
  (exists vb, get st b = Some vb /\ sub vb [c]) ->
  get st1 b = Some [].
Proof.
  induction ps as [|peer ps IH]; simpl; intros st st1 H Hin [vb [Hb Hs]].
  - contradiction.
  - inv_bind H. apply getitem_Returned in Ha. inv_bind H.
    pose proof (eliminate_peers_le _ _ _ H) as Hle.
    destruct (String.eqb peer b) eqn:E.
    + apply String.eqb_eq in E; subst peer.
      rewrite Hb in Ha; inversion Ha; subst a.
      rewrite (replace_of_sub_single Hs) in Ha0.
      apply assign_value_spec in Ha0. destruct Ha0 as [_ [_ [Hg _]]].
      destruct (state_le_get _ Hle Hg) as [w [Hw Hsw]].
      rewrite (sub_of_nil Hsw) in Hw; assumption.
    + apply String.eqb_neq in E. destruct Hin as [?|Hin]; [congruence|].
      eapply IH; try eassumption.
      apply assign_value_spec in Ha0. destruct Ha0 as [_ [_ [_ [Ho _]]]].
      exists vb; split; [rewrite Ho; auto | assumption].
Qed.

Lemma eliminate_items_clash prs a b c ps :
  get prs a = Some ps -> In b ps ->
  forall items st st1,
  eliminate_items prs items st = Returned st1 -> In a items ->
  (exists va, get st a = Some va /\ sub va [c]) ->
  (exists vb, get st b = Some vb /\ sub vb [c]) ->
  get st1 a = Some [] \/ get st1 b = Some [].
Proof.
  intros Hps Hb. induction items as [|item items IH]; simpl;
    intros st st1 H Hin [va [Ha Hsa]] [vb [Hvb Hsb]].
  - contradiction.
  - inv_bind H. apply getitem_Returned in Ha0. inv_bind H.
    apply getitem_Returned in Ha1. inv_bind H.
    pose proof (eliminate_peers_le _ _ _ Ha2) as Hle1.
    pose proof (eliminate_items_le _ _ _ H) as Hle2.
    destruct (String.eqb item a) eqn:E.
    + apply String.eqb_eq in E; subst item.
      rewrite Ha in Ha0; inversion Ha0; subst a0.
      rewrite Hps in Ha1; inversion Ha1; subst a1.
      destruct (sub_of_single Hsa); subst va.
      * left. destruct (state_le_get _ (state_le_trans Hle2 Hle1) Ha)
          as [w [Hw Hsw]].
        rewrite (sub_of_nil Hsw) in Hw; assumption.
      * right.
        assert (Hb1 : get a2 b = Some []).
        { eapply eliminate_peers_clash; eauto. }
        destruct (state_le_get _ Hle2 Hb1) as [w [Hw Hsw]].
        rewrite (sub_of_nil Hsw) in Hw; assumption.
    + apply String.eqb_neq in E. destruct Hin as [?|Hin]; [congruence|].
      destruct (state_le_get _ Hle1 Ha) as [va' [Ha' Hsa']].
      destruct (state_le_get _ Hle1 Hvb) as [vb' [Hb' Hsb']].
      eapply IH; try eassumption.
      * exists va'; split; [assumption | eapply sub_trans; eassumption].
      * exists vb'; split; [assumption | eapply sub_trans; eassumption].
Qed.

(** After a pass that starts with elimination and empties nothing, two
    variables that were solved before it, one a peer of the other, did not
    have the same value. *)
Lemma pass_no_clash prs rest st0 st' a b ps ca cb :
  Forall shrinking rest ->
  pass (eliminate prs :: rest) st0 st' -> no_empty st' ->
  get prs a = Some ps -> In b ps ->
  get st0 a = Some [ca] -> get st0 b = Some [cb] -> ca <> cb.
Proof.
  intros HF Hp Hne Hps Hb Ha Hvb Heq. subst cb.
  unfold pass in Hp; simpl in Hp. inv_bind Hp.
  pose proof (apply_rules_le _ HF Hp) as Hle.
  assert (Hclash : get a0 a = Some [] \/ get a0 b = Some []).
  { eapply eliminate_items_clash; try eassumption.
    - eapply In_solved_units; eassumption.
    - exists [ca]; split; [assumption | apply sub_refl].
    - exists [ca]; split; [assumption | apply sub_refl]. }
  assert (Hno : forall k, get st' k <> Some []).
  { intros k Hk. clear - Hne Hk. induction st' as [|[k1 v1] st' IH].
    - discriminate.
    - inversion Hne; subst. simpl in *. destruct (String.eqb k1 k).
      + inversion Hk; subst; congruence.
      + apply IH; assumption. }
  destruct Hclash as [Hc|Hc];
    destruct (state_le_get _ Hle Hc) as [w [Hw Hsw]];
    rewrite (sub_of_nil Hsw) in Hw; eapply Hno; eassumption.
Qed.

(* ================================================================== *)
(** * What a successful search returns *)

Lemma mem_str_In s l : mem_str s l = true <-> In s l.
Proof.
  unfold mem_str; rewrite existsb_exists; split.
  - intros [x [Hx He]]. apply String.eqb_eq in He; subst; assumption.
  - intros H; exists s; split; [assumption | apply String.eqb_refl].
Qed.

Lemma peers_coverb_cover units prs :
  peers_coverb units prs = true -> peers_cover units prs.
Proof.
  unfold peers_coverb, peers_cover. rewrite forallb_forall.
  intros H g a b Hg Ha Hb Hne. specialize (H g Hg).
  rewrite forallb_forall in H. specialize (H a Ha).
  rewrite forallb_forall in H. specialize (H b Hb).
  apply orb_true_iff in H. destruct H as [H|H].
  - apply String.eqb_eq in H; contradiction.
  - destruct (get prs a) as [ps|]; [|discriminate].
    exists ps; split; [reflexivity | apply mem_str_In; assumption].
Qed.

Lemma repository_rules_shrinking self :
  repository_rules self -> Forall shrinking (reduce_funcs self).
Proof.
  intros [H|H]; rewrite H; unfold sudoku_rules, base_rules; simpl;
    repeat constructor;
    auto using eliminate_shrinking, only_choice_shrinking,
               naked_twins_shrinking.
Qed.

Lemma repository_rules_head self :
  repository_rules self ->
  exists rest, reduce_funcs self = eliminate (peers self) :: rest /\
               Forall shrinking rest.
Proof.
  intros [H|H]; rewrite H; unfold sudoku_rules, base_rules; simpl;
    eexists; (split; [reflexivity|]);
    repeat constructor;
    auto using only_choice_shrinking, naked_twins_shrinking.
Qed.

Lemma search_success funcs xs : Forall shrinking funcs ->
  forall fuel st cnt st' d cnt',
  search funcs xs fuel st cnt = Returned (st', PyDict d, cnt') ->
  search_result funcs xs st d.
Proof.
  intros HF. apply search_success_ind.
  - intros fuel st st1 Hred Hall.
    destruct (reduce_loop_final HF _ _ Hred) as [st0 [H0 [Hp [Hc Hne]]]].
    split; [assumption|]. split; [eapply reduce_loop_le; eassumption|].
    exists st0; auto.
  - intros fuel st st1 pairs n s vals val new d Hred _ _ Hget Hin Hass
           [Hall [Hle Hlast]].
    split; [assumption|]. split; [|assumption].
    eapply state_le_trans; [eassumption|].
    eapply state_le_trans; [|eapply reduce_loop_le; eassumption].
    eapply assign_value_le; eauto using single_sub.
Qed.

(** In the state a successful search returns, a solved variable and a
    solved peer of it have different values. *)
Lemma search_result_peers prs rest xs st d a b ps ca cb :
  Forall shrinking rest ->
  search_result (eliminate prs :: rest) xs st d ->
  get prs a = Some ps -> In b ps ->
  get d a = Some [ca] -> get d b = Some [cb] -> ca <> cb.
Proof.
  intros HF [_ [_ [st0 [Hp [Hc Hne]]]]] Hps Hb Ha Hvb.
  assert (HF' : Forall shrinking (eliminate prs :: rest)).
  { constructor; [apply eliminate_shrinking | assumption]. }
  pose proof (apply_rules_le _ HF' Hp) as Hle.
  pose proof (solved_count_same Hle Hne Hc) as Hsame.
  destruct (state_rel_get_rev _ Hsame Ha) as [va [Ha0 Hva]].
  destruct (state_rel_get_rev _ Hsame Hvb) as [vb [Hb0 Hvb']].
  rewrite (Hva eq_refl) in Ha0. rewrite (Hvb' eq_refl) in Hb0.
  eapply (@pass_no_clash prs rest st0 d a b ps); eassumption.
Qed.

(** What [solve] did when it returned [True] on a solver that was not
    marked solved, and when it returned [False]. *)
Lemma solve_true self fuel self' :
  solved self = false -> solve fuel self = Returned (self', true) ->
  exists st1 d cnt,
    search (reduce_funcs self) (X self) fuel (internal_state self)
           (mkCounts 0 0) = Returned (st1, PyDict d, cnt) /\
    is_empty d = false /\
    self' = mkSolver d (X self) (D self) (C self) (peers self) true
              (reduce_funcs self) (reduces cnt) (searches cnt).
Proof.
  unfold solve; intros Hs H. inv_bind H. destruct a as [[st1 attempt] cnt].
  exists st1. destruct attempt as [| |d]; simpl in H;
    try (inversion H; subst; congruence).
  destruct (is_empty d) eqn:E; simpl in H; inversion H; subst;
    try congruence.
  exists d, cnt; auto.
Qed.

Lemma solve_false self fuel self' :
  solve fuel self = Returned (self', false) ->
  exists st1 r cnt,
    search (reduce_funcs self) (X self) fuel (internal_state self)
           (mkCounts 0 0) = Returned (st1, r, cnt) /\
    truthy r = false /\ solved self = false /\
    self' = mkSolver st1 (X self) (D self) (C self) (peers self) false
              (reduce_funcs self) (reduces cnt) (searches cnt).
Proof.
  unfold solve; intros H. inv_bind H. destruct a as [[st1 attempt] cnt].
  exists st1, attempt, cnt. split; [assumption|].
  destruct attempt as [| |d]; simpl in H.
  - injection H as Hs1 Hs2. rewrite Hs2 in Hs1. auto.
  - injection H as Hs1 Hs2. rewrite Hs2 in Hs1. auto.
  - destruct (is_empty d) eqn:E; simpl in H; [|discriminate].
    injection H as Hs1 Hs2. rewrite Hs2 in Hs1. simpl. rewrite E. auto.
Qed.

(* ================================================================== *)
(** * The solved state *)

Lemma australia_blank_solve :
  solve 10 australia_blank = Returned (australia_coloured, true).
Proof. vm_compute. reflexivity. Qed.

(** C1, as the code has it.  If [solve] succeeds on a solver whose flag
    was not set, with the rules of the repository, then in the state it
    leaves every variable of [X] has exactly one candidate; and when the
    peers cover the groups (two different variables of one group are peers
    of each other), two different variables of a group that are solved
    have different values. *)
Theorem solve_success_solved_distinct self fuel self' :
  solved self = false ->
  repository_rules self ->
  solve fuel self = Returned (self', true) ->
  (forall x, In x (X self) ->
     exists c, get (internal_state self') x = Some [c]) /\
  (peers_cover (C self) (peers self) ->
   forall g a b ca cb,
     In g (C self) -> In a g -> In b g -> a <> b ->
     get (internal_state self') a = Some [ca] ->
     get (internal_state self') b = Some [cb] -> ca <> cb).
Proof.
  intros Hs Hrules H.
  destruct (@solve_true _ _ _ Hs H) as [st1 [d [cnt [Hsearch [_ ->]]]]].
  simpl. pose proof (repository_rules_shrinking Hrules) as HF.
  pose proof (@search_success _ _ HF _ _ _ _ _ _ Hsearch) as Hres.
  split.
  - destruct Hres as [Hall _]. apply all_solved_true; assumption.
  - intros Hcover g a b ca cb Hg Ha Hb Hne Hca Hcb.
    destruct (Hcover g a b Hg Ha Hb Hne) as [ps [Hps Hin]].
    destruct (repository_rules_head Hrules) as [rest [Hrest HFr]].
    rewrite Hrest in Hres.
    eapply search_result_peers; eassumption.
Qed.

Lemma solve_success_solved_distinct_witness :
  (forall x, In x (X australia_blank) ->
     exists c, get (internal_state australia_coloured) x = Some [c]) /\
  (forall g a b ca cb,
     In g (C australia_blank) -> In a g -> In b g -> a <> b ->
     get (internal_state australia_coloured) a = Some [ca] ->
     get (internal_state australia_coloured) b = Some [cb] -> ca <> cb).
Proof.
  destruct (@solve_success_solved_distinct australia_blank 10
              australia_coloured eq_refl (or_introl eq_refl))
    as [H1 H2]; [vm_compute; reflexivity|].
  split; [exact H1|]. apply H2.
  apply peers_coverb_cover; vm_compute; reflexivity.
Defined.

(** Two variables of one group that are not peers of each other both keep
    the one colour they have: [solve] returns [True] on a state that
    breaks the group. *)
Lemma unlinked_pair_succeeds : ~ success_solved_distinct unlinked_pair 10.
Proof.
  intros H.
  destruct (H (mkSolver (internal_state unlinked_pair) (X unlinked_pair)
                 (D unlinked_pair) (C unlinked_pair) (peers unlinked_pair)
                 true (reduce_funcs unlinked_pair) 1 0)
              ltac:(vm_compute; reflexivity)) as [_ Hd].
  apply (Hd ["A"; "B"]%string "A"%string "B"%string "R"%char "R"%char);
    try reflexivity; simpl; auto.
  discriminate.
Qed.

(** C9. The flag is not cleared.  [solve] colours the blank map;
    [assign_value] then writes the colour of Western Australia into the
    Northern Territory, in the dictionary the solver holds; on the solver
    so left the search fails and [solve] still returns [True], with the
    Northern Territory left without a value. *)
Theorem stale_flag_reports_success :
  solve 10 australia_blank = Returned (australia_coloured, true) /\
  get (internal_state australia_coloured) "WA"%string = Some (chars "B") /\
  assign_value (internal_state australia_coloured) "NT"%string (chars "B")
    = Returned (internal_state australia_recoloured) /\
  (exists self',
     solve 10 australia_recoloured = Returned (self', true) /\
     get (internal_state self') "NT"%string = Some []) /\
  ~ success_within_initial australia_recoloured 10.
Proof.
  split; [vm_compute; reflexivity|].
  split; [reflexivity|]. split; [vm_compute; reflexivity|]. split.
  - eexists. split; vm_compute; reflexivity.
  - intros H.
    destruct (H (mkSolver
                   [("WA", chars "B"); ("NT", []); ("SA", chars "G");
                    ("QL", chars "B"); ("NSW", chars "R");
                    ("VT", chars "B")]%string
                   (X australia_recoloured) (D australia_recoloured)
                   (C australia_recoloured) (peers australia_recoloured)
                   true (reduce_funcs australia_recoloured) 1 0)
                ltac:(vm_compute; reflexivity) "NT"%string
                ltac:(vm_compute; auto))
      as [c [v0 [Hc _]]].
    vm_compute in Hc. discriminate Hc.
Qed.

(** X28. When [solve] succeeds on a solver whose flag was not set, the
    state it leaves is below the initial one: every candidate string holds
    only symbols it held at the start, so the single value of every
    variable of [X] is one of its initial candidates, and a variable that
    was solved at the start has kept its value. *)
Theorem solve_success_within_initial self fuel self' :
  solved self = false ->
  repository_rules self ->
  solve fuel self = Returned (self', true) ->
  state_le (internal_state self') (internal_state self) /\
  (forall x, In x (X self) ->
     exists c v0, get (internal_state self') x = Some [c] /\
                  get (internal_state self) x = Some v0 /\
                  In c v0 /\ (length v0 = 1 -> v0 = [c])).
Proof.
  intros Hs Hrules H.
  destruct (@solve_true _ _ _ Hs H) as [st1 [d [cnt [Hsearch [_ ->]]]]].
  simpl. pose proof (repository_rules_shrinking Hrules) as HF.
  destruct (@search_success _ _ HF _ _ _ _ _ _ Hsearch) as [Hall [Hle _]].
  split; [assumption|]. intros x Hx.
  destruct (proj1 (all_solved_true d (X self)) Hall x Hx) as [c Hc].
  destruct (state_le_get_rev _ Hle Hc) as [v0 [Hv0 [Hincl Hlen]]].
  exists c, v0. repeat split; try assumption.
  - apply Hincl; left; reflexivity.
  - intros Hl. destruct v0 as [|c0 [|? ?]]; simpl in Hl; try lia.
    destruct (Hincl c (or_introl eq_refl)) as [->|[]]. reflexivity.
Qed.

Lemma solve_success_within_initial_witness :
  state_le (internal_state australia_coloured)
           (internal_state australia_blank) /\
  (forall x, In x (X australia_blank) ->
     exists c v0, get (internal_state australia_coloured) x = Some [c] /\
                  get (internal_state australia_blank) x = Some v0 /\
                  In c v0 /\ (length v0 = 1 -> v0 = [c])).
Proof.
  apply (@solve_success_within_initial australia_blank 10 australia_coloured).
  - reflexivity.
  - left; reflexivity.
  - vm_compute; reflexivity.
Defined.

(** C6. A propagation pass made of elimination, only-choice and naked
    twins, in any order and number, keeps the keys of the state and never
    adds a candidate: the candidate string of every variable after the
    pass holds only symbols it held before, and is no longer. *)
Theorem pass_never_grows prs units dom funcs st st' :
  incl funcs [eliminate prs; only_choice units dom;
              Sudoku.naked_twins units] ->
  pass funcs st st' ->
  keys st' = keys st /\
  (forall x v, get st x = Some v ->
     exists v', get st' x = Some v' /\ incl v' v /\ length v' <= length v).
Proof.
  intros Hincl Hp.
  assert (HF : Forall shrinking funcs).
  { apply Forall_forall. intros f Hf.
    destruct (Hincl f Hf) as [<-|[<-|[<-|[]]]];
      auto using eliminate_shrinking, only_choice_shrinking,
                 naked_twins_shrinking. }
  pose proof (apply_rules_le _ HF Hp) as Hle.
  split; [apply state_le_keys; assumption|].
  intros x v Hx. destruct (state_le_get _ Hle Hx) as [v' [Hv' [Hi Hl]]].
  exists v'; auto.
Qed.

Lemma pass_never_grows_witness :
  let st := [("WA", chars "R"); ("NT", chars "RBG"); ("SA", chars "RBG");
             ("QL", chars "RBG"); ("NSW", chars "RBG");
             ("VT", chars "RBG")]%string in
  let st' := [("WA", chars "R"); ("NT", chars "BG"); ("SA", chars "BG");
              ("QL", chars "R"); ("NSW", chars "RBG");
              ("VT", chars "RBG")]%string in
  keys st' = keys st /\
  (forall x v, get st x = Some v ->
     exists v', get st' x = Some v' /\ incl v' v /\ length v' <= length v).
Proof.
  intros st st'.
  apply (@pass_never_grows (make_peers Australia.C_map Australia.X_map)
           Australia.C_map Australia.D_map
           (base_rules australia_blank) st st').
  - intros f [<-|[<-|[]]]; simpl; auto.
  - vm_compute; reflexivity.
Defined.

(* ================================================================== *)
(** * Termination *)

Lemma finishes_bind A B (m : outcome A) (f : A -> outcome B) :
  finishes m -> (forall a, m = Returned a -> finishes (f a)) ->
  finishes (bind m f).
Proof.
  unfold finishes; destruct m; simpl; intros Hm Hf; auto; discriminate.
Qed.

Lemma finishes_getitem V (d : dict V) k : finishes (getitem d k).
Proof. unfold finishes, getitem; destruct (get d k); discriminate. Qed.

Lemma finishes_assign_value st k v : finishes (assign_value st k v).
Proof.
  unfold assign_value. apply finishes_bind; [apply finishes_getitem|].
  intros a _. destruct (negb (cand_eqb a v)); discriminate.
Qed.

Ltac finish_step :=
  first [ apply finishes_getitem | apply finishes_assign_value
        | discriminate ].

Lemma finishes_eliminate_peers val : forall ps st,
  finishes (eliminate_peers val ps st).
Proof.
  induction ps as [|p ps IH]; simpl; intros st; [discriminate|].
  apply finishes_bind; [finish_step|]; intros v _.
  apply finishes_bind; [finish_step|]; intros st1 _. apply IH.
Qed.

Lemma total_eliminate prs : total (eliminate prs).
Proof.
  unfold total, eliminate. intros st. generalize (solved_units st) at 1.
  intros items; revert st.
  induction items as [|item items IH]; simpl; intros st0; [discriminate|].
  apply finishes_bind; [finish_step|]; intros v _.
  apply finishes_bind; [finish_step|]; intros ps _.
  apply finishes_bind; [apply finishes_eliminate_peers|]; intros st1 _.
  apply IH.
Qed.

Lemma finishes_dplaces u st : forall unit, finishes (dplaces u unit st).
Proof.
  induction unit as [|x unit IH]; simpl; [discriminate|].
  apply finishes_bind; [finish_step|]; intros v _.
  apply finishes_bind; [apply IH|]; intros r _. discriminate.
Qed.

Lemma total_only_choice units dom : total (only_choice units dom).
Proof.
  unfold total, only_choice.
  assert (Hv : forall unit vals st, finishes (only_choice_vals unit vals st)).
  { induction vals as [|u vals IH]; simpl; intros st; [discriminate|].
    apply finishes_bind; [apply finishes_dplaces|]; intros dp _.
    apply finishes_bind; [|intros st1 _; apply IH].
    destruct dp as [|item [|? ?]]; finish_step. }
  induction units as [|unit units IH]; simpl; intros st; [discriminate|].
  apply finishes_bind; [apply Hv|]; intros st1 _. apply IH.
Qed.

Lemma total_naked_twins units : total (Sudoku.naked_twins units).
Proof.
  unfold total, Sudoku.naked_twins.
  assert (Hp : forall st unit, finishes (Sudoku.pair_values unit st)).
  { induction unit as [|x unit IH]; simpl; [discriminate|].
    apply finishes_bind; [finish_step|]; intros v _.
    apply finishes_bind; [apply IH|]; intros r _. discriminate. }
  assert (Hb : forall twin num unit st,
             finishes (Sudoku.twins_boxes twin num unit st)).
  { induction unit as [|x unit IH]; simpl; intros st; [discriminate|].
    apply finishes_bind; [finish_step|]; intros v _.
    apply finishes_bind; [|intros st1 _; apply IH].
    destruct (negb (cand_eqb twin v)); finish_step. }
  assert (Hn : forall twin unit nums st,
             finishes (Sudoku.twins_nums twin nums unit st)).
  { induction nums as [|num nums IH]; simpl; intros st; [discriminate|].
    apply finishes_bind; [apply Hb|]; intros st1 _. apply IH. }
  assert (Hl : forall unit twins st,
             finishes (Sudoku.twins_loop twins unit st)).
  { induction twins as [|twin twins IH]; simpl; intros st; [discriminate|].
    apply finishes_bind; [apply Hn|]; intros st1 _. apply IH. }
  induction units as [|unit units IH]; simpl; intros st; [discriminate|].
  apply finishes_bind; [apply Hp|]; intros ap _.
  apply finishes_bind; [apply Hl|]; intros st1 _. apply IH.
Qed.

Lemma repository_rules_total self :
  repository_rules self -> Forall total (reduce_funcs self).
Proof.
  intros [H|H]; rewrite H; unfold sudoku_rules, base_rules; simpl;
    repeat constructor;
    auto using total_eliminate, total_only_choice, total_naked_twins.
Qed.

Lemma finishes_apply_rules : forall funcs st,
  Forall total funcs -> finishes (apply_rules funcs st).
Proof.
  induction funcs as [|f funcs IH]; simpl; intros st HF; [discriminate|].
  inversion HF; subst.
  apply finishes_bind; [auto|]; intros st1 _. apply IH; assumption.
Qed.

Lemma finishes_all_solved st : forall xs, finishes (all_solved st xs).
Proof.
  induction xs as [|x xs IH]; simpl; [discriminate|].
  apply finishes_bind; [finish_step|]; intros v _.
  destruct (length v =? 1); [apply IH | discriminate].
Qed.

Lemma finishes_unsolved_pairs st : forall xs, finishes (unsolved_pairs st xs).
Proof.
  induction xs as [|x xs IH]; simpl; [discriminate|].
  apply finishes_bind; [finish_step|]; intros v _.
  apply finishes_bind; [apply IH|]; intros r _. discriminate.
Qed.

(** In a pass that is not the last, the count of solved variables goes
    up, so the count of the others goes down. *)
Lemma pass_progress funcs st st1 :
  Forall shrinking funcs -> pass funcs st st1 ->
  unsolvable_units st1 = false ->
  solved_units_count st <> solved_units_count st1 ->
  unsolved_count st1 < unsolved_count st.
Proof.
  intros HF Hp Hu Hc. pose proof (apply_rules_le _ HF Hp) as Hle.
  apply unsolvable_units_false in Hu.
  pose proof (solved_count_mono Hle Hu).
  pose proof (solved_plus_unsolved st). pose proof (solved_plus_unsolved st1).
  pose proof (state_le_length Hle). lia.
Qed.

Lemma reduce_loop_finishes funcs :
  Forall shrinking funcs -> Forall total funcs ->
  forall fuel st, unsolved_count st < fuel ->
  finishes (reduce_loop funcs fuel st).
Proof.
  intros HS HT. induction fuel as [|fuel IH]; intros st Hlt; [lia|].
  simpl. apply finishes_bind; [apply finishes_apply_rules; assumption|].
  intros st1 Hp.
  destruct (unsolvable_units st1) eqn:Eu; [discriminate|].
  destruct (solved_units_count st =? solved_units_count st1) eqn:Ec;
    [discriminate|].
  apply Nat.eqb_neq in Ec. apply IH.
  pose proof (pass_progress HS Hp Eu Ec). lia.
Qed.

(** More fuel does not change a call that finished. *)
Lemma reduce_loop_more_fuel funcs : forall fuel st r,
  reduce_loop funcs fuel st = r -> finishes r ->
  forall fuel', fuel <= fuel' -> reduce_loop funcs fuel' st = r.
Proof.
  induction fuel as [|fuel IH]; intros st r H Hf fuel' Hle.
  - simpl in H; subst; exfalso; apply Hf; reflexivity.
  - destruct fuel' as [|fuel']; [lia|]. simpl in *.
    destruct (apply_rules funcs st) as [st1| |]; simpl in *; auto.
    destruct (unsolvable_units st1); auto.
    destruct (solved_units_count st =? solved_units_count st1); auto.
    apply IH; [assumption | assumption | lia].
Qed.

Lemma unsolved_count_set (st : State) s (v : cand) c :
  get st s = Some v -> length v <> 1 ->
  unsolved_count (set st s [c]) + 1 = unsolved_count st.
Proof.
  induction st as [|[k1 v1] st IH]; simpl; intros Hg Hl; [discriminate|].
  destruct (String.eqb k1 s).
  - inversion Hg; subst. rewrite !unsolved_count_cons. simpl.
    apply Nat.eqb_neq in Hl. rewrite Hl. lia.
  - rewrite !unsolved_count_cons. rewrite <- (IH Hg Hl). lia.
Qed.

Lemma assign_decreases (st : State) s (v : cand) c new :
  get st s = Some v -> 1 < length v ->
  assign_value st s [c] = Returned new ->
  unsolved_count new < unsolved_count st.
Proof.
  unfold assign_value, getitem; intros Hg Hl H. rewrite Hg in H; simpl in H.
  destruct (cand_eqb v [c]) eqn:E; simpl in H.
  - apply cand_eqb_eq in E; subst; simpl in Hl; lia.
  - inversion H; subst.
    assert (Hne : length v <> 1) by lia.
    pose proof (unsolved_count_set st s c Hg Hne). lia.
Qed.

Lemma py_min_In pairs p : py_min pairs = Returned p -> In p pairs.
Proof.
  destruct pairs as [|q l]; simpl; intros H; inversion H.
  apply min_from_In.
Qed.

(** The state a branch starts from has fewer unsolved variables than the
    state the search was called on. *)
Lemma branch_decreases funcs xs fuel st st1 pairs n s val new :
  Forall shrinking funcs ->
  reduce_loop funcs fuel st = Returned (st1, true) ->
  unsolved_pairs st1 xs = Returned pairs ->
  py_min pairs = Returned (n, s) ->
  assign_value st1 s [val] = Returned new ->
  unsolved_count new < unsolved_count st.
Proof.
  intros HF Hred Hpairs Hmin Hass.
  apply py_min_In in Hmin.
  apply (unsolved_pairs_In _ _ n s Hpairs) in Hmin.
  destruct Hmin as [_ [v [Hg [-> Hl]]]].
  pose proof (assign_decreases _ _ _ Hg Hl Hass).
  destruct (reduce_loop_final HF _ _ Hred) as [st0 [_ [_ [_ Hne]]]].
  pose proof (reduce_loop_le HF _ _ Hred) as Hle.
  pose proof (unsolved_count_mono Hle Hne). lia.
Qed.

Lemma finishes_try_values rec st1 s v bound :
  (forall new cnt, unsolved_count new < bound -> finishes (rec new cnt)) ->
  get st1 s = Some v -> 1 < length v -> unsolved_count st1 <= bound ->
  forall vals cnt, finishes (try_values rec st1 s vals cnt).
Proof.
  intros Hrec Hg Hl Hb. induction vals as [|val vals IH]; simpl; intros cnt.
  - discriminate.
  - apply finishes_bind; [apply finishes_assign_value|]. intros new Hass.
    pose proof (assign_decreases _ _ _ Hg Hl Hass).
    apply finishes_bind; [apply Hrec; lia|].
    intros [[st2 attempt] cnt1] _.
    destruct (truthy attempt); [discriminate | apply IH].
Qed.

Lemma search_finishes funcs xs :
  Forall shrinking funcs -> Forall total funcs ->
  forall fuel st cnt, unsolved_count st < fuel ->
  finishes (search funcs xs fuel st cnt).
Proof.
  intros HS HT. induction fuel as [|fuel IH]; intros st cnt Hlt; [lia|].
  cbn [search]. unfold reduce.
  apply finishes_bind.
  { apply finishes_bind; [apply reduce_loop_finishes; assumption|].
    intros [st1 b] _; discriminate. }
  intros [[st1 feasible] cnt1] Hred.
  apply bind_Returned in Hred. destruct Hred as [[st1' b'] [Hred Heq]].
  inversion Heq; subst; clear Heq.
  destruct feasible; simpl; [|discriminate].
  apply finishes_bind; [apply finishes_all_solved|]. intros done _.
  destruct done; [discriminate|].
  apply finishes_bind; [apply finishes_unsolved_pairs|]. intros pairs Hpairs.
  apply finishes_bind.
  { unfold finishes; destruct pairs; simpl; discriminate. }
  intros [n s] Hmin.
  apply finishes_bind; [apply finishes_getitem|]. intros vals Hvals.
  apply getitem_Returned in Hvals.
  apply py_min_In in Hmin.
  apply (unsolved_pairs_In _ _ n s Hpairs) in Hmin.
  destruct Hmin as [_ [v [Hg [-> Hl]]]].
  rewrite Hg in Hvals; inversion Hvals; subst v.
  destruct (reduce_loop_final HS _ _ Hred) as [st0 [_ [_ [_ Hne]]]].
  pose proof (reduce_loop_le HS _ _ Hred) as Hle.
  pose proof (unsolved_count_mono Hle Hne).
  apply finishes_bind.
  { apply (@finishes_try_values _ st1 s vals fuel); auto; lia. }
  intros [attempt cnt3] _; discriminate.
Qed.

Lemma try_values_more_fuel
  (rec rec' : State -> Counts -> outcome (State * pyval * Counts)) st s :
  (forall new cnt r, rec new cnt = r -> finishes r -> rec' new cnt = r) ->
  forall vals cnt r,
  try_values rec st s vals cnt = r -> finishes r ->
  try_values rec' st s vals cnt = r.
Proof.
  intros Hrec. induction vals as [|val vals IH]; simpl; intros cnt r H Hf.
  - assumption.
  - destruct (assign_value st s [val]) as [new| |]; simpl in *; auto.
    destruct (rec new cnt) as [[[st2 attempt] cnt1]| |] eqn:E.
    + rewrite (Hrec _ _ _ E); [|discriminate]. simpl in *.
      destruct (truthy attempt); auto.
    + rewrite (Hrec _ _ _ E); [|discriminate]. assumption.
    + simpl in H; subst; exfalso; apply Hf; reflexivity.
Qed.

Lemma search_more_fuel funcs xs : forall fuel st cnt r,
  search funcs xs fuel st cnt = r -> finishes r ->
  forall fuel', fuel <= fuel' -> search funcs xs fuel' st cnt = r.
Proof.
  induction fuel as [|fuel IH]; intros st cnt r H Hf fuel' Hle.
  - simpl in H; subst; exfalso; apply Hf; reflexivity.
  - destruct fuel' as [|fuel']; [lia|].
    cbn [search] in *. unfold reduce in *.
    destruct (reduce_loop funcs (S fuel) st) as [[st1 b]| |] eqn:E;
      cbn [bind reduces searches] in H.
    + erewrite reduce_loop_more_fuel; [|exact E|discriminate|lia].
      cbn [bind reduces searches]. destruct b; cbn [negb] in *; [|assumption].
      destruct (all_solved st1 xs) as [done| |]; cbn [bind reduces searches] in *; auto.
      destruct done; auto.
      destruct (unsolved_pairs st1 xs) as [pairs| |]; cbn [bind reduces searches] in *; auto.
      destruct (py_min pairs) as [[n s]| |]; cbn [bind reduces searches] in *; auto.
      destruct (getitem st1 s) as [vals| |]; cbn [bind reduces searches] in *; auto.
      remember (mkCounts (reduces cnt + 1) (searches cnt + 1)) as cnt2.
      assert (Hrec : forall new c r0,
                 search funcs xs fuel new c = r0 -> finishes r0 ->
                 search funcs xs fuel' new c = r0).
      { intros new c r0 Hr Hfr. eapply IH; eauto; lia. }
      destruct (try_values (search funcs xs fuel) st1 s vals cnt2)
        as [[attempt cnt3]| |] eqn:Et; cbn [bind reduces searches] in H.
      * erewrite try_values_more_fuel; [|exact Hrec|exact Et|discriminate].
        assumption.
      * erewrite try_values_more_fuel; [|exact Hrec|exact Et|discriminate].
        assumption.
      * subst; exfalso; apply Hf; reflexivity.
    + erewrite reduce_loop_more_fuel; [|exact E|discriminate|lia]. assumption.
    + subst; exfalso; apply Hf; reflexivity.
Qed.

(* ================================================================== *)
(** * No exception on a well-formed problem *)

Lemma well_formedb_wf self : well_formedb self = true -> well_formed self.
Proof.
  unfold well_formedb, well_formed.
  rewrite !andb_true_iff, !forallb_forall. intros [[H1 H2] H3].
  repeat split.
  - intros x Hx. apply mem_str_In. auto.
  - intros k Hk. specialize (H2 k Hk).
    destruct (get (peers self) k) as [ps|]; [|discriminate].
    exists ps; split; [reflexivity|].
    rewrite forallb_forall in H2. intros p Hp. apply mem_str_In. auto.
  - intros g Hg. specialize (H3 g Hg). rewrite forallb_forall in H3.
    intros x Hx. apply mem_str_In. auto.
Qed.

Lemma get_keys V (d : dict V) k : In k (keys d) <-> exists v, get d k = Some v.
Proof.
  unfold keys. induction d as [|[k1 v1] d IH]; simpl.
  - split; [contradiction | intros [v Hv]; discriminate].
  - destruct (String.eqb k1 k) eqn:E.
    + apply String.eqb_eq in E. split; [eauto | auto].
    + apply String.eqb_neq in E. rewrite IH. split; [|auto].
      intros [?|H]; [contradiction | assumption].
Qed.

Lemma returns_bind A B (m : outcome A) (f : A -> outcome B) :
  returns m -> (forall a, m = Returned a -> returns (f a)) ->
  returns (bind m f).
Proof. intros [a Ha] Hf. rewrite Ha; simpl. apply Hf; assumption. Qed.

Lemma returns_getitem V (d : dict V) k : In k (keys d) -> returns (getitem d k).
Proof.
  intros H. apply get_keys in H. destruct H as [v Hv].
  exists v. unfold getitem; rewrite Hv; reflexivity.
Qed.

Lemma returns_assign_value (st : State) k v :
  In k (keys st) -> returns (assign_value st k v).
Proof.
  intros H. unfold assign_value.
  apply returns_bind; [apply returns_getitem; assumption|].
  intros a _. destruct (negb (cand_eqb a v)); eexists; reflexivity.
Qed.

Lemma returns_eliminate_peers val : forall ps st,
  incl ps (keys st) -> returns (eliminate_peers val ps st).
Proof.
  induction ps as [|p ps IH]; simpl; intros st Hi; [eexists; reflexivity|].
  assert (Hp : In p (keys st)) by (apply Hi; left; reflexivity).
  apply returns_bind; [apply returns_getitem; assumption|]. intros v Hv.
  apply getitem_Returned in Hv.
  apply returns_bind; [apply returns_assign_value; assumption|].
  intros st1 H1. apply IH.
  rewrite (state_le_keys
             (assign_value_le _ _ Hv (replace_empty_sub v val) H1)).
  intros x Hx; apply Hi; right; assumption.
Qed.

Lemma returns_eliminate_items prs K :
  (forall k, In k K -> exists ps, get prs k = Some ps /\ incl ps K) ->
  forall items st, keys st = K -> incl items K ->
  returns (eliminate_items prs items st).
Proof.
  intros Hprs. induction items as [|item items IH]; simpl; intros st HK Hi;
    [eexists; reflexivity|].
  assert (Hit : In item K) by (apply Hi; left; reflexivity).
  apply returns_bind; [apply returns_getitem; rewrite HK; assumption|].
  intros v _. destruct (Hprs item Hit) as [ps [Hps Hpi]].
  apply returns_bind; [exists ps; unfold getitem; rewrite Hps; reflexivity|].
  intros ps' Hps'. apply getitem_Returned in Hps'.
  rewrite Hps in Hps'; inversion Hps'; subst ps'.
  apply returns_bind; [apply returns_eliminate_peers; rewrite HK; assumption|].
  intros st1 H1. apply IH.
  - rewrite (state_le_keys (eliminate_peers_le _ _ _ H1)); assumption.
  - intros x Hx; apply Hi; right; assumption.
Qed.

Lemma solved_units_keys st : incl (solved_units st) (keys st).
Proof.
  unfold solved_units, keys. intros k Hk. apply in_map_iff in Hk.
  destruct Hk as [kv [<- Hkv]]. apply filter_In in Hkv.
  apply in_map; apply Hkv.
Qed.

Lemma returns_eliminate prs K st :
  (forall k, In k K -> exists ps, get prs k = Some ps /\ incl ps K) ->
  keys st = K -> returns (eliminate prs st).
Proof.
  intros Hprs HK. unfold eliminate.
  eapply returns_eliminate_items; eauto.
  rewrite <- HK. apply solved_units_keys.
Qed.

Lemma returns_dplaces u st : forall unit,
  incl unit (keys st) -> returns (dplaces u unit st).
Proof.
  induction unit as [|x unit IH]; simpl; intros Hi; [eexists; reflexivity|].
  apply returns_bind;
    [apply returns_getitem; apply Hi; left; reflexivity|]. intros v _.
  apply returns_bind;
    [apply IH; intros y Hy; apply Hi; right; assumption|]. intros r _.
  eexists; reflexivity.
Qed.

Lemma returns_only_choice units dom K st :
  (forall g, In g units -> incl g K) ->
  keys st = K -> returns (only_choice units dom st).
Proof.
  unfold only_choice.
  assert (Hv : forall unit, incl unit K -> forall vals st0,
             keys st0 = K -> returns (only_choice_vals unit vals st0)).
  { intros unit Hu. induction vals as [|u vals IH]; simpl; intros st0 HK;
      [eexists; reflexivity|].
    apply returns_bind; [apply returns_dplaces; rewrite HK; assumption|].
    intros dp Hdp.
    apply returns_bind.
    - destruct dp as [|item [|? ?]]; try (eexists; reflexivity).
      apply returns_assign_value. rewrite HK. apply Hu.
      eapply dplaces_In; [eassumption | left; reflexivity].
    - intros st1 H1. apply IH.
      assert (Hle : state_le st1 st0).
      { destruct dp as [|item [|? ?]];
          try (inversion H1; apply state_le_refl).
        destruct (dplaces_In _ _ _ item Hdp (or_introl eq_refl))
          as [_ [v [Hg Hin]]].
        eapply assign_value_le; eauto using single_sub. }
      rewrite (state_le_keys Hle); assumption. }
  intros Hunits. revert st.
  induction units as [|unit units IH]; simpl; intros st HK;
    [eexists; reflexivity|].
  apply returns_bind.
  - apply Hv; [apply Hunits; left; reflexivity | assumption].
  - intros st1 H1. apply IH.
    + intros g Hg; apply Hunits; right; assumption.
    + rewrite (state_le_keys (only_choice_vals_le _ _ _ H1)); assumption.
Qed.

Lemma returns_naked_twins units K st :
  (forall g, In g units -> incl g K) ->
  keys st = K -> returns (Sudoku.naked_twins units st).
Proof.
  unfold Sudoku.naked_twins.
  assert (Hp : forall st0 unit, incl unit (keys st0) ->
             returns (Sudoku.pair_values unit st0)).
  { induction unit as [|x unit IH]; simpl; intros Hi; [eexists; reflexivity|].
    apply returns_bind;
      [apply returns_getitem; apply Hi; left; reflexivity|]. intros v _.
    apply returns_bind;
      [apply IH; intros y Hy; apply Hi; right; assumption|]. intros r _.
    eexists; reflexivity. }
  assert (Hb : forall twin num unit st0, incl unit (keys st0) ->
             returns (Sudoku.twins_boxes twin num unit st0)).
  { induction unit as [|x unit IH]; simpl; intros st0 Hi;
      [eexists; reflexivity|].
    assert (Hx : In x (keys st0)) by (apply Hi; left; reflexivity).
    apply returns_bind; [apply returns_getitem; assumption|]. intros v Hv.
    apply getitem_Returned in Hv.
    apply returns_bind.
    - destruct (negb (cand_eqb twin v));
        [apply returns_assign_value; assumption | eexists; reflexivity].
    - intros st1 H1. apply IH.
      assert (Hle : state_le st1 st0).
      { destruct (negb (cand_eqb twin v)).
        - eapply assign_value_le; eauto using replace_empty_sub.
        - inversion H1; apply state_le_refl. }
      rewrite (state_le_keys Hle).
      intros y Hy; apply Hi; right; assumption. }
  assert (Hn : forall twin unit nums st0, incl unit (keys st0) ->
             returns (Sudoku.twins_nums twin nums unit st0)).
  { induction nums as [|num nums IH]; simpl; intros st0 Hi;
      [eexists; reflexivity|].
    apply returns_bind; [apply Hb; assumption|]. intros st1 H1.
    apply IH. rewrite (state_le_keys (twins_boxes_le _ _ _ _ H1)).
    assumption. }
  assert (Hl : forall unit twins st0, incl unit (keys st0) ->
             returns (Sudoku.twins_loop twins unit st0)).
  { induction twins as [|twin twins IH]; simpl; intros st0 Hi;
      [eexists; reflexivity|].
    apply returns_bind; [apply Hn; assumption|]. intros st1 H1.
    apply IH. rewrite (state_le_keys (twins_nums_le _ _ _ _ H1)).
    assumption. }
  intros Hunits. revert st.
  induction units as [|unit units IH]; simpl; intros st HK;
    [eexists; reflexivity|].
  assert (Hu : incl unit (keys st)).
  { rewrite HK; apply Hunits; left; reflexivity. }
  apply returns_bind; [apply Hp; assumption|]. intros ap _.
  apply returns_bind; [apply Hl; assumption|]. intros st1 H1.
  apply IH.
  - intros g Hg; apply Hunits; right; assumption.
  - rewrite (state_le_keys (twins_loop_le _ _ _ H1)); assumption.
Qed.

Lemma repository_rules_defined self :
  repository_rules self -> well_formed self ->
  Forall (defined_on (keys (internal_state self))) (reduce_funcs self).
Proof.
  intros Hr [_ [Hprs Hunits]].
  assert (H1 : defined_on (keys (internal_state self))
                 (eliminate (peers self))).
  { intros st HK. eapply returns_eliminate; eassumption. }
  assert (H2 : defined_on (keys (internal_state self))
                 (only_choice (C self) (D self))).
  { intros st HK. eapply returns_only_choice; eassumption. }
  assert (H3 : defined_on (keys (internal_state self))
                 (Sudoku.naked_twins (C self))).
  { intros st HK. eapply returns_naked_twins; eassumption. }
  destruct Hr as [H|H]; rewrite H; unfold sudoku_rules, base_rules; simpl;
    repeat constructor; assumption.
Qed.

Lemma returns_apply_rules K : forall funcs st,
  Forall shrinking funcs -> Forall (defined_on K) funcs ->
  keys st = K -> returns (apply_rules funcs st).
Proof.
  induction funcs as [|f funcs IH]; simpl; intros st HS HD HK;
    [eexists; reflexivity|].
  inversion HS as [|? ? Hf HS']; subst.
  inversion HD as [|? ? Hd HD']; subst.
  apply returns_bind; [auto|]. intros st1 Hst1.
  apply IH; auto. apply state_le_keys; auto.
Qed.

Lemma returns_reduce_loop K funcs :
  Forall shrinking funcs -> Forall (defined_on K) funcs ->
  forall fuel st, unsolved_count st < fuel -> keys st = K ->
  returns (reduce_loop funcs fuel st).
Proof.
  intros HS HD. induction fuel as [|fuel IH]; intros st Hlt HK; [lia|].
  simpl. apply returns_bind; [eapply returns_apply_rules; eauto|].
  intros st1 Hp.
  destruct (unsolvable_units st1) eqn:Eu; [eexists; reflexivity|].
  destruct (solved_units_count st =? solved_units_count st1) eqn:Ec;
    [eexists; reflexivity|].
  apply Nat.eqb_neq in Ec. apply IH.
  - pose proof (pass_progress HS Hp Eu Ec). lia.
  - rewrite (state_le_keys (apply_rules_le _ HS Hp)); assumption.
Qed.

Lemma get_In V (d : dict V) k v : get d k = Some v -> In (k, v) d.
Proof.
  induction d as [|[k1 v1] d IH]; simpl; intros H; [discriminate|].
  destruct (String.eqb k1 k) eqn:E.
  - apply String.eqb_eq in E. inversion H; subst. left; reflexivity.
  - right; auto.
Qed.

Lemma no_empty_get st k (v : cand) :
  no_empty st -> get st k = Some v -> v <> [].
Proof.
  intros Hne Hg. apply get_In in Hg.
  unfold no_empty in Hne. rewrite Forall_forall in Hne.
  apply (Hne (k, v) Hg).
Qed.

(** When not every variable is solved and none is empty, there is a
    variable to branch on. *)
Lemma unsolved_pairs_nonempty st : forall xs pairs,
  no_empty st -> all_solved st xs = Returned false ->
  unsolved_pairs st xs = Returned pairs -> pairs <> [].
Proof.
  induction xs as [|x xs IH]; simpl; intros pairs Hne Hall Hp.
  - discriminate.
  - inv_bind Hall. inv_bind Hp. rewrite Ha in Ha0; inversion Ha0; subst a0.
    apply getitem_Returned in Ha. inv_bind Hp. inversion Hp; subst.
    destruct (length a =? 1) eqn:E.
    + destruct (1 <? length a); [discriminate|]. eapply IH; eassumption.
    + apply Nat.eqb_neq in E. pose proof (no_empty_get _ Hne Ha) as Hn.
      assert (Hl : 1 < length a).
      { destruct a as [|? [|? ?]]; simpl in *; try congruence; lia. }
      apply Nat.ltb_lt in Hl. rewrite Hl. discriminate.
Qed.

Lemma returns_all_solved st : forall xs,
  incl xs (keys st) -> returns (all_solved st xs).
Proof.
  induction xs as [|x xs IH]; simpl; intros Hi; [eexists; reflexivity|].
  apply returns_bind;
    [apply returns_getitem; apply Hi; left; reflexivity|]. intros v _.
  destruct (length v =? 1); [|eexists; reflexivity].
  apply IH. intros y Hy; apply Hi; right; assumption.
Qed.

Lemma returns_unsolved_pairs st : forall xs,
  incl xs (keys st) -> returns (unsolved_pairs st xs).
Proof.
  induction xs as [|x xs IH]; simpl; intros Hi; [eexists; reflexivity|].
  apply returns_bind;
    [apply returns_getitem; apply Hi; left; reflexivity|]. intros v _.
  apply returns_bind;
    [apply IH; intros y Hy; apply Hi; right; assumption|]. intros r _.
  eexists; reflexivity.
Qed.

Lemma returns_try_values rec st1 s v bound :
  (forall new cnt, unsolved_count new < bound -> keys new = keys st1 ->
     returns (rec new cnt)) ->
  get st1 s = Some v -> 1 < length v -> unsolved_count st1 <= bound ->
  forall vals cnt, incl vals v -> returns (try_values rec st1 s vals cnt).
Proof.
  intros Hrec Hg Hl Hb. induction vals as [|val vals IH]; simpl;
    intros cnt Hi; [eexists; reflexivity|].
  apply returns_bind.
  { apply returns_assign_value. apply get_keys; eauto. }
  intros new Hass.
  pose proof (assign_decreases _ _ _ Hg Hl Hass).
  assert (Hle : state_le new st1).
  { eapply assign_value_le; eauto. apply single_sub.
    apply Hi; left; reflexivity. }
  apply returns_bind; [apply Hrec; [lia | apply state_le_keys; assumption]|].
  intros [[st2 attempt] cnt1] _.
  destruct (truthy attempt); [eexists; reflexivity|].
  apply IH. intros y Hy; apply Hi; right; assumption.
Qed.

Lemma returns_search K funcs xs :
  Forall shrinking funcs -> Forall (defined_on K) funcs -> incl xs K ->
  forall fuel st cnt, unsolved_count st < fuel -> keys st = K ->
  returns (search funcs xs fuel st cnt).
Proof.
  intros HS HD HX. induction fuel as [|fuel IH]; intros st cnt Hlt HK; [lia|].
  cbn [search]. unfold reduce.
  apply returns_bind.
  { apply returns_bind; [eapply returns_reduce_loop; eauto|].
    intros [st1 b] _; eexists; reflexivity. }
  intros [[st1 feasible] cnt1] Hred.
  apply bind_Returned in Hred. destruct Hred as [[st1' b'] [Hred Heq]].
  inversion Heq; subst; clear Heq.
  destruct feasible; cbn [negb]; [|eexists; reflexivity].
  destruct (reduce_loop_final HS _ _ Hred) as [st0 [_ [_ [_ Hne]]]].
  pose proof (reduce_loop_le HS _ _ Hred) as Hle.
  pose proof (unsolved_count_mono Hle Hne).
  pose proof (state_le_keys Hle) as HK1.
  assert (HX1 : incl xs (keys st1)) by (rewrite HK1; assumption).
  apply returns_bind; [apply returns_all_solved; assumption|].
  intros done Hdone. destruct done; [eexists; reflexivity|].
  apply returns_bind; [apply returns_unsolved_pairs; assumption|].
  intros pairs Hpairs.
  pose proof (unsolved_pairs_nonempty _ Hne Hdone Hpairs) as Hnil.
  apply returns_bind.
  { destruct pairs; [congruence | eexists; reflexivity]. }
  intros [n s] Hmin.
  apply py_min_In in Hmin.
  apply (unsolved_pairs_In _ _ n s Hpairs) in Hmin.
  destruct Hmin as [_ [v [Hg [-> Hl]]]].
  apply returns_bind; [exists v; unfold getitem; rewrite Hg; reflexivity|].
  intros vals Hvals. apply getitem_Returned in Hvals.
  rewrite Hg in Hvals; inversion Hvals; subst vals.
  apply returns_bind.
  { apply (@returns_try_values _ st1 s v fuel); auto; try lia;
      [|apply incl_refl].
    intros new c Hn Hkn. apply IH; [assumption|].
    exact (eq_trans Hkn HK1). }
  intros [attempt cnt3] _; eexists; reflexivity.
Qed.

Lemma solve_more_fuel self fuel fuel' :
  finishes (search (reduce_funcs self) (X self) fuel (internal_state self)
              (mkCounts 0 0)) ->
  fuel <= fuel' -> solve fuel' self = solve fuel self.
Proof.
  intros Hf Hle. unfold solve.
  erewrite search_more_fuel; [reflexivity|reflexivity|assumption|assumption].
Qed.

(** On a well-formed problem [solve] returns, and what it returns does
    not depend on the bound once the bound is large enough. *)
Lemma solve_returns self :
  repository_rules self -> well_formed self ->
  exists self' b,
    forall fuel, unsolved_count (internal_state self) < fuel ->
      solve fuel self = Returned (self', b).
Proof.
  intros Hr Hwf.
  pose proof (repository_rules_shrinking Hr) as HS.
  pose proof (repository_rules_total Hr) as HT.
  assert (Hret : returns
            (solve (S (unsolved_count (internal_state self))) self)).
  { unfold solve. apply returns_bind.
    - apply (@returns_search (keys (internal_state self)));
        [ exact HS | apply repository_rules_defined; assumption
        | exact (proj1 Hwf) | lia | reflexivity ].
    - intros [[st1 attempt] cnt] _. eexists; reflexivity. }
  destruct Hret as [[self' b] Hret]. exists self', b.
  intros fuel Hlt. rewrite <- Hret.
  apply solve_more_fuel; [|lia]. apply search_finishes; auto.
Qed.

(** C5. With the rules of the repository [solve] terminates.  From any
    state the propagation loop ends after at most as many passes as there
    are unsolved variables, plus one; every state the search recurses on
    has fewer unsolved variables than the state of the call; so one more
    unit of recursion bound than there are unsolved variables is enough
    for [solve] to give its result, which more bound does not change.  On
    a well-formed problem that result is a returned value, not an
    exception. *)
Theorem solve_terminates self :
  repository_rules self ->
  (forall st, exists r, finishes r /\
     forall fuel, unsolved_count st < fuel ->
       reduce_loop (reduce_funcs self) fuel st = r) /\
  (forall fuel st st1 pairs n s val new,
     reduce_loop (reduce_funcs self) fuel st = Returned (st1, true) ->
     unsolved_pairs st1 (X self) = Returned pairs ->
     py_min pairs = Returned (n, s) ->
     assign_value st1 s [val] = Returned new ->
     unsolved_count new < unsolved_count st) /\
  (exists res, finishes res /\
     forall fuel, unsolved_count (internal_state self) < fuel ->
       solve fuel self = res) /\
  (well_formed self ->
   exists self' b,
     forall fuel, unsolved_count (internal_state self) < fuel ->
       solve fuel self = Returned (self', b)).
Proof.
  intros Hr.
  pose proof (repository_rules_shrinking Hr) as HS.
  pose proof (repository_rules_total Hr) as HT.
  assert (Hsearch : finishes
            (search (reduce_funcs self) (X self)
               (S (unsolved_count (internal_state self)))
               (internal_state self) (mkCounts 0 0))).
  { apply search_finishes; auto. }
  split; [|split; [|split]].
  - intros st.
    exists (reduce_loop (reduce_funcs self) (S (unsolved_count st)) st).
    split; [apply reduce_loop_finishes; auto|].
    intros fuel Hlt. eapply reduce_loop_more_fuel;
      [reflexivity | apply reduce_loop_finishes; auto | lia].
  - intros fuel st st1 pairs n s val new. apply branch_decreases; assumption.
  - exists (solve (S (unsolved_count (internal_state self))) self). split.
    + unfold solve. apply finishes_bind; [assumption|].
      intros [[st1 attempt] cnt] _. discriminate.
    + intros fuel Hlt. apply solve_more_fuel; [assumption | lia].
  - intros Hwf. apply solve_returns; assumption.
Qed.

Lemma solve_terminates_witness :
  (forall st, exists r, finishes r /\
     forall fuel, unsolved_count st < fuel ->
       reduce_loop (reduce_funcs australia_blank) fuel st = r) /\
  (forall fuel st st1 pairs n s val new,
     reduce_loop (reduce_funcs australia_blank) fuel st
       = Returned (st1, true) ->
     unsolved_pairs st1 (X australia_blank) = Returned pairs ->
     py_min pairs = Returned (n, s) ->
     assign_value st1 s [val] = Returned new ->
     unsolved_count new < unsolved_count st) /\
  (exists res, finishes res /\
     forall fuel, unsolved_count (internal_state australia_blank) < fuel ->
       solve fuel australia_blank = res) /\
  (well_formed australia_blank ->
   exists self' b,
     forall fuel, unsolved_count (internal_state australia_blank) < fuel ->
       solve fuel australia_blank = Returned (self', b)).
Proof.
  apply (@solve_terminates australia_blank).
  left; reflexivity.
Defined.

(* ================================================================== *)
(** * The propagation loop against its description *)

Lemma no_empty_up st' st : state_le st' st -> no_empty st' -> no_empty st.
Proof.
  induction 1 as [|[k1 v1] [k2 v2] l l' [Hk Hs] _ IH]; intros Hne.
  - constructor.
  - inversion Hne; subst. constructor; [|apply IH; assumption].
    simpl in *. intros ->. apply sub_of_nil in Hs. contradiction.
Qed.

Lemma empty_stays st' st :
  state_le st' st -> unsolvable_units st = true ->
  unsolvable_units st' = true.
Proof.
  intros Hle Hu. destruct (unsolvable_units st') eqn:E; [reflexivity|].
  apply unsolvable_units_false in E.
  apply (no_empty_up Hle) in E. apply unsolvable_units_false in E.
  congruence.
Qed.

Lemma described_solved_count st :
  Described.solved_count st = solved_units_count st.
Proof.
  unfold solved_units_count, solved_units.
  induction st as [|[k v] st IH]; simpl; [reflexivity|].
  rewrite IH. destruct v as [|c [|c' v]]; simpl; reflexivity.
Qed.

Lemma described_contradictory st :
  Described.contradictory st = unsolvable_units st.
Proof.
  unfold unsolvable_units.
  induction st as [|[k v] st IH]; simpl; [reflexivity|].
  rewrite IH. destruct v as [|c v]; simpl; reflexivity.
Qed.

Lemma run_pass_whole funcs : Forall shrinking funcs -> funcs <> [] ->
  forall st st1,
  Described.run_pass funcs st = Returned (st1, true) <->
  (apply_rules funcs st = Returned st1 /\ unsolvable_units st1 = false).
Proof.
  induction funcs as [|f funcs IH]; intros HF Hne st st1; [congruence|].
  inversion HF as [|? ? Hf HF']; subst. simpl. split.
  - intros H. inv_bind H. rewrite Ha; simpl.
    rewrite described_contradictory in H.
    destruct (unsolvable_units a) eqn:Eu; [discriminate H|].
    destruct funcs as [|g funcs].
    + simpl in *. inversion H; subst. auto.
    + apply IH in H; [assumption | assumption | discriminate].
  - intros [H Hu]. inv_bind H. rewrite Ha; simpl.
    rewrite described_contradictory.
    pose proof (apply_rules_le _ HF' H) as Hle.
    assert (Ea : unsolvable_units a = false).
    { apply unsolvable_units_false. apply (no_empty_up Hle).
      apply unsolvable_units_false; assumption. }
    rewrite Ea. destruct funcs as [|g funcs].
    + simpl in *. inversion H; subst. reflexivity.
    + apply IH; [assumption | discriminate | auto].
Qed.

(** A pass the described loop cuts short: the code goes on with the rules
    that are left, from the state at which the described loop stopped. *)
Lemma run_pass_cut funcs : Forall shrinking funcs -> funcs <> [] ->
  forall st st1,
  apply_rules funcs st = Returned st1 -> unsolvable_units st1 = true ->
  exists mid done rest,
    Described.run_pass funcs st = Returned (mid, false) /\
    funcs = done ++ rest /\
    apply_rules rest mid = Returned st1 /\ state_le st1 mid.
Proof.
  induction funcs as [|f funcs IH]; intros HF Hne st st1 H Hu; [congruence|].
  inversion HF as [|? ? Hf HF']; subst. simpl in *. inv_bind H.
  rewrite Ha. simpl. rewrite described_contradictory.
  destruct (unsolvable_units a) eqn:Eu.
  - exists a, [f], funcs. repeat split; try assumption.
    eapply apply_rules_le; eassumption.
  - destruct funcs as [|g funcs].
    + simpl in H. inversion H; subst. congruence.
    + destruct (IH HF' ltac:(discriminate) a st1 H Hu)
        as [mid [done [rest [H1 [H2 [H3 H4]]]]]].
      exists mid, (f :: done), rest.
      split; [exact H1|]. split; [simpl; f_equal; exact H2|].
      split; assumption.
Qed.

Lemma run_pass_cut_returns K funcs :
  Forall shrinking funcs -> Forall (defined_on K) funcs ->
  forall st mid, keys st = K ->
  Described.run_pass funcs st = Returned (mid, false) ->
  exists st1, apply_rules funcs st = Returned st1 /\
              unsolvable_units st1 = true.
Proof.
  induction funcs as [|f funcs IH]; intros HF HD st mid HK H;
    [discriminate H|].
  inversion HF as [|? ? Hf HF']; subst.
  inversion HD as [|? ? Hd HD']; subst.
  simpl in *. inv_bind H. rewrite Ha; simpl.
  pose proof (Hf _ _ Ha) as Hle.
  assert (HKa : keys a = keys st) by (apply state_le_keys; assumption).
  rewrite described_contradictory in H.
  destruct (unsolvable_units a) eqn:Eu.
  - destruct (@returns_apply_rules (keys st) funcs a HF' HD' HKa)
      as [st1 H1].
    exists st1. split; [assumption|].
    eapply empty_stays; [eapply apply_rules_le; eassumption | assumption].
  - eapply IH; try eassumption.
Qed.

Lemma loop_feasible funcs : Forall shrinking funcs -> funcs <> [] ->
  forall fuel st st',
  reduce_loop funcs fuel st = Returned (st', true) <->
  Described.loop funcs fuel st = Returned (st', true).
Proof.
  intros HF Hne. induction fuel as [|fuel IH]; intros st st'; simpl.
  - split; discriminate.
  - rewrite !described_solved_count. split; intros H.
    + inv_bind H.
      destruct (unsolvable_units a) eqn:Eu; [discriminate H|].
      rewrite (proj2 (run_pass_whole HF Hne st a) (conj Ha Eu)). simpl.
      rewrite described_solved_count.
      destruct (solved_units_count st =? solved_units_count a);
        [assumption | apply IH; assumption].
    + inv_bind H. destruct a as [st1 whole].
      destruct whole; simpl in H; [|discriminate H].
      apply (run_pass_whole HF Hne) in Ha. destruct Ha as [Ha Eu].
      rewrite Ha; simpl. rewrite Eu.
      rewrite described_solved_count in H.
      destruct (solved_units_count st =? solved_units_count st1);
        [assumption | apply IH; assumption].
Qed.

Lemma loop_infeasible funcs : Forall shrinking funcs -> funcs <> [] ->
  forall fuel st st',
  reduce_loop funcs fuel st = Returned (st', false) ->
  exists mid done rest,
    Described.loop funcs fuel st = Returned (mid, false) /\
    funcs = done ++ rest /\
    apply_rules rest mid = Returned st' /\ state_le st' mid.
Proof.
  intros HF Hne. induction fuel as [|fuel IH]; intros st st' H; simpl in *;
    [discriminate H|].
  inv_bind H. destruct (unsolvable_units a) eqn:Eu.
  - inversion H; subst.
    destruct (run_pass_cut HF Hne _ Ha Eu)
      as [mid [done [rest [H1 [H2 [H3 H4]]]]]].
    exists mid, done, rest. rewrite H1. simpl. auto.
  - rewrite (proj2 (run_pass_whole HF Hne st a) (conj Ha Eu)). simpl.
    rewrite !described_solved_count.
    destruct (solved_units_count st =? solved_units_count a);
      [discriminate H | apply IH; assumption].
Qed.

Lemma loop_infeasible_returns funcs :
  Forall shrinking funcs -> funcs <> [] ->
  forall fuel st mid, Forall (defined_on (keys st)) funcs ->
  Described.loop funcs fuel st = Returned (mid, false) ->
  exists st', reduce_loop funcs fuel st = Returned (st', false).
Proof.
  intros HF Hne. induction fuel as [|fuel IH]; intros st mid HD H; simpl in *;
    [discriminate H|].
  inv_bind H. destruct a as [st1 whole]. destruct whole; simpl in H.
  - apply (run_pass_whole HF Hne) in Ha. destruct Ha as [Ha Eu].
    rewrite Ha; simpl. rewrite Eu.
    rewrite !described_solved_count in H.
    destruct (solved_units_count st =? solved_units_count st1);
      [discriminate H|].
    apply (IH st1 mid); [|assumption].
    rewrite (state_le_keys (apply_rules_le _ HF Ha)). assumption.
  - destruct (@run_pass_cut_returns (keys st) funcs HF HD st st1 eq_refl Ha)
      as [st2 [H2 Hu]].
    rewrite H2; simpl. rewrite Hu. eexists; reflexivity.
Qed.

Lemma described_whole_pass : forall funcs st,
  Described.whole_pass funcs st = apply_rules funcs st.
Proof.
  induction funcs as [|f funcs IH]; simpl; intros st; [reflexivity|].
  destruct (f st) as [st1| |]; simpl; auto.
Qed.

Lemma loop_late_is_reduce_loop funcs : forall fuel st,
  reduce_loop funcs fuel st = Described.loop_late funcs fuel st.
Proof.
  induction fuel as [|fuel IH]; intros st; [reflexivity|].
  cbn [reduce_loop Described.loop_late].
  rewrite (described_whole_pass funcs st).
  destruct (apply_rules funcs st) as [st1| |]; simpl; try reflexivity.
  rewrite described_contradictory, !described_solved_count.
  destruct (unsolvable_units st1); [reflexivity|].
  destruct (solved_units_count st =? solved_units_count st1);
    [reflexivity | apply IH].
Qed.

(** C7, as the code has it.  [__reduce] is the loop of the description
    with the test for an empty candidate string moved to the end of the
    pass, and the call is counted once.  Against the loop as described,
    which stops at the first rule that empties a candidate string, for a
    list of rules that is not empty and whose rules only remove
    candidates: the two return a state in the same cases, and the same
    state; when [__reduce] returns [False] the described loop has stopped
    on the infeasible result too, on a state [mid] of the same pass, and
    [__reduce] has applied the rules that were left to [mid]; when the
    described loop stops on the infeasible result and the rules return on
    the keys of the state, [__reduce] returns [False]. *)
Theorem reduce_against_the_described_loop funcs st :
  (forall fuel,
     reduce_loop funcs fuel st = Described.loop_late funcs fuel st) /\
  (forall fuel cnt st' b cnt',
     reduce funcs fuel st cnt = Returned (st', b, cnt') ->
     reduce_loop funcs fuel st = Returned (st', b) /\
     cnt' = mkCounts (reduces cnt + 1) (searches cnt)) /\
  (Forall shrinking funcs -> funcs <> [] ->
   (forall fuel st',
      reduce_loop funcs fuel st = Returned (st', true) <->
      Described.loop funcs fuel st = Returned (st', true)) /\
   (forall fuel st',
      reduce_loop funcs fuel st = Returned (st', false) ->
      exists mid done rest,
        Described.loop funcs fuel st = Returned (mid, false) /\
        funcs = done ++ rest /\
        apply_rules rest mid = Returned st' /\ state_le st' mid) /\
   (Forall (defined_on (keys st)) funcs ->
    forall fuel mid,
      Described.loop funcs fuel st = Returned (mid, false) ->
      exists st', reduce_loop funcs fuel st = Returned (st', false))).
Proof.
  split; [|split].
  - intros fuel. apply loop_late_is_reduce_loop.
  - intros fuel cnt st' b cnt' H. unfold reduce in H. inv_bind H.
    destruct a as [st1 b1]. inversion H; subst. auto.
  - intros HF Hne. split; [|split].
    + intros fuel st'. apply loop_feasible; assumption.
    + intros fuel st'. apply loop_infeasible; assumption.
    + intros HD fuel mid. apply loop_infeasible_returns; assumption.
Qed.

Lemma reduce_against_the_described_loop_witness :
  Described.loop_late (reduce_funcs australia_clash) 1
    (internal_state australia_clash)
    = Returned (internal_state australia_clash_after, false) /\
  Described.loop (reduce_funcs australia_blank) 3 wa_red
    = Returned (wa_red_reduced, true) /\
  (exists mid done rest,
     Described.loop (reduce_funcs australia_clash) 1
       (internal_state australia_clash) = Returned (mid, false) /\
     reduce_funcs australia_clash = done ++ rest /\
     apply_rules rest mid
       = Returned (internal_state australia_clash_after) /\
     state_le (internal_state australia_clash_after) mid) /\
  (exists st',
     reduce_loop (reduce_funcs australia_clash) 1
       (internal_state australia_clash) = Returned (st', false)).
Proof.
  assert (HF : Forall shrinking (reduce_funcs australia_blank)).
  { apply repository_rules_shrinking. left; reflexivity. }
  assert (Hne : reduce_funcs australia_blank <> []) by discriminate.
  destruct (@reduce_against_the_described_loop
              (reduce_funcs australia_blank) wa_red) as [_ [_ W]].
  destruct (@reduce_against_the_described_loop
              (reduce_funcs australia_clash)
              (internal_state australia_clash)) as [L [_ R]].
  destruct (W HF Hne) as [W1 _]. destruct (R HF Hne) as [_ [R2 R3]].
  split; [|split; [|split]].
  - rewrite <- L. vm_compute; reflexivity.
  - apply W1. vm_compute; reflexivity.
  - apply R2. vm_compute; reflexivity.
  - apply (R3 (repository_rules_defined
                 (or_introl eq_refl : repository_rules australia_clash)
                 (well_formedb_wf australia_clash eq_refl))
              1 australia_clash_eliminated).
    vm_compute; reflexivity.
Defined.

(** The clashing map, evaluated: the described loop stops on the state
    elimination left, [__reduce] on the state only-choice made of it. *)
Lemma australia_clash_two_stops :
  Described.loop (reduce_funcs australia_clash) 1
    (internal_state australia_clash)
    = Returned (australia_clash_eliminated, false) /\
  reduce_loop (reduce_funcs australia_clash) 1
    (internal_state australia_clash)
    = Returned (internal_state australia_clash_after, false) /\
  only_choice (C australia_clash) (D australia_clash)
    australia_clash_eliminated
    = Returned (internal_state australia_clash_after).
Proof. repeat split; vm_compute; reflexivity. Qed.

(** On the clashing map elimination empties the Northern Territory; the
    described loop stops there, and [__reduce] still runs only-choice,
    which rewrites four other regions, before it returns [False]. *)
Lemma reduce_finishes_the_pass :
  ~ stops_as_described (reduce_funcs australia_clash) 1
      (internal_state australia_clash).
Proof.
  intros H.
  specialize (H (internal_state australia_clash_after, false)
                ltac:(vm_compute; reflexivity)).
  vm_compute in H. discriminate H.
Qed.

(* ================================================================== *)
(** * The branching step *)

Lemma ltb_false_leb x s : String.ltb x s = false -> String.leb s x = true.
Proof.
  unfold String.ltb, String.leb. rewrite (String.compare_antisym x s).
  destruct (String.compare s x); simpl; congruence.
Qed.

Lemma tried_result rec st s vals cnt r cnt' :
  tried rec st s vals cnt r cnt' -> r = PyNone \/ truthy r = true.
Proof. induction 1; auto. Qed.

(** C8. When propagation has returned a state in which not every
    variable of [X] is solved, the search branches on a variable [s] of
    [X] with more than one candidate such that no such variable has fewer
    candidates, and among those with as few none has a smaller name (the
    order of strings).  Its candidate values are then tried from left to
    right, each on the state with that one value assigned to [s]; the
    first truthy attempt is returned, and [None] when there is none. *)
Theorem search_branches_on_smallest funcs xs fuel st cnt st1 r cnt' :
  search funcs xs (S fuel) st cnt = Returned (st1, r, cnt') ->
  reduce_loop funcs (S fuel) st = Returned (st1, true) ->
  all_solved st1 xs = Returned false ->
  exists s vals,
    In s xs /\ get st1 s = Some vals /\ 1 < length vals /\
    (forall x v, In x xs -> get st1 x = Some v -> 1 < length v ->
       length vals < length v \/
       (length vals = length v /\ String.leb s x = true)) /\
    tried (search funcs xs fuel) st1 s vals
      (mkCounts (reduces cnt + 1) (searches cnt + 1)) r cnt' /\
    (r = PyNone \/ truthy r = true).
Proof.
  intros H Hred Hall. apply search_unfold in H.
  inversion H as [ ? Hred' | ? Hred' Hall'
                 | ? pairs n s vals ? ? Hred' Hall' Hpairs Hmin Hget Htried ];
    subst; try congruence.
  exists s, vals.
  pose proof (py_min_In _ Hmin) as Hin.
  apply (unsolved_pairs_In _ _ n s Hpairs) in Hin.
  destruct Hin as [Hs [v [Hg [-> Hl]]]].
  rewrite Hget in Hg; inversion Hg; subst v.
  repeat split; try assumption.
  - intros x v Hx Hv Hlv.
    assert (Hxin : In (length v, x) pairs).
    { apply (unsolved_pairs_In _ _ (length v) x Hpairs).
      split; [assumption|]. exists v; auto. }
    destruct pairs as [|p l]; [contradiction|].
    simpl in Hmin. inversion Hmin as [Hm].
    pose proof (@min_from_least l p _ Hxin) as Hleast.
    rewrite Hm in Hleast. unfold pair_ltb in Hleast; simpl in Hleast.
    apply orb_false_iff in Hleast. destruct Hleast as [H1 H2].
    apply Nat.ltb_ge in H1. apply andb_false_iff in H2.
    destruct (Nat.eq_dec (length vals) (length v)) as [E|E]; [|left; lia].
    right; split; [assumption|]. destruct H2 as [H2|H2].
    + apply Nat.eqb_neq in H2. lia.
    + apply ltb_false_leb; assumption.
  - eapply tried_result; eassumption.
Qed.

Lemma search_branches_on_smallest_witness :
  let st1 := internal_state australia_blank in
  let r := PyDict (internal_state australia_coloured) in
  exists s vals,
    In s (X australia_blank) /\ get st1 s = Some vals /\ 1 < length vals /\
    (forall x v, In x (X australia_blank) -> get st1 x = Some v ->
       1 < length v ->
       length vals < length v \/
       (length vals = length v /\ String.leb s x = true)) /\
    tried (search (reduce_funcs australia_blank) (X australia_blank) 9)
      st1 s vals (mkCounts (0 + 1) (0 + 1)) r (mkCounts 3 2) /\
    (r = PyNone \/ truthy r = true).
Proof.
  intros st1 r.
  apply (@search_branches_on_smallest (reduce_funcs australia_blank)
           (X australia_blank) 9 (internal_state australia_blank)
           (mkCounts 0 0) st1 r (mkCounts 3 2)).
  - vm_compute; reflexivity.
  - vm_compute; reflexivity.
  - vm_compute; reflexivity.
Defined.

(* ================================================================== *)
(** * A failed solve *)

Lemma australia_clash_unsolvable : ~ solvable australia_clash.
Proof.
  intros [sigma [Hc Hw]].
  assert (H1 : In (sigma "WA"%string) (chars "R")) by (apply Hw; reflexivity).
  assert (H2 : In (sigma "NT"%string) (chars "R")) by (apply Hw; reflexivity).
  destruct H1 as [H1|[]]. destruct H2 as [H2|[]].
  apply (Hc ["WA"; "NT"; "SA"]%string "WA"%string "NT"%string).
  - left; reflexivity.
  - left; reflexivity.
  - right; left; reflexivity.
  - discriminate.
  - congruence.
Qed.

Lemma solve_false_state self fuel self' :
  solve fuel self = Returned (self', false) ->
  exists b, reduce_loop (reduce_funcs self) fuel (internal_state self)
            = Returned (internal_state self', b).
Proof.
  intros H.
  destruct (solve_false _ _ H) as [st1 [r [cnt [Hs [_ [_ ->]]]]]]. simpl.
  destruct fuel as [|fuel]; [discriminate|].
  apply search_unfold in Hs.
  inversion Hs as [ ? Hred | ? Hred Hall
                  | ? ? ? ? ? ? ? Hred Hall Hpairs Hmin Hget Htried ];
    subst; eauto.
Qed.

(** C10. A failed [solve] is not atomic.  Whenever [solve] returns
    [False], the state the solver holds afterwards is the one the
    top-level propagation left in the dictionary; and for the map with two
    neighbours both red, which no assignment satisfies, [solve] returns
    [False] and the state held afterwards is not the initial one: it is
    below it, with the removals of the propagation. *)
Theorem failed_solve_keeps_propagated_state :
  (forall self fuel self',
     solve fuel self = Returned (self', false) ->
     exists b, reduce_loop (reduce_funcs self) fuel (internal_state self)
               = Returned (internal_state self', b)) /\
  (~ solvable australia_clash /\
   solve 10 australia_clash = Returned (australia_clash_after, false) /\
   internal_state australia_clash_after <> internal_state australia_clash /\
   state_le (internal_state australia_clash_after)
            (internal_state australia_clash) /\
   get (internal_state australia_clash) "SA"%string = Some (chars "RBG") /\
   get (internal_state australia_clash_after) "SA"%string = Some (chars "B")).
Proof.
  split; [apply solve_false_state|].
  split; [apply australia_clash_unsolvable|].
  assert (Hsolve : solve 10 australia_clash
                   = Returned (australia_clash_after, false))
    by (vm_compute; reflexivity).
  split; [assumption|]. split; [vm_compute; discriminate|].
  split; [|split; reflexivity].
  destruct (solve_false_state _ _ Hsolve) as [b Hred].
  eapply reduce_loop_le; [|exact Hred].
  apply repository_rules_shrinking. left; reflexivity.
Qed.

(* ================================================================== *)
(** * Construction *)

(** The base constructor accepts a problem that is invalid in all three
    ways at once. *)
Lemma construct_accepts_invalid : ~ rejects_invalid construct.
Proof.
  intros H.
  specialize (H [("A", chars "X")]%string ["A"]%string (chars "RR")
                [["A"; "Z"]]%string []).
  unfold construct in H.
  assert (Hinv : invalid_problem [("A", chars "X")]%string ["A"]%string
                   (chars "RR") [["A"; "Z"]]%string).
  { left. exists ["A"; "Z"]%string, "Z"%string. repeat split.
    - left; reflexivity.
    - right; left; reflexivity.
    - intros [E|[]]. discriminate E. }
  specialize (H Hinv). discriminate.
Qed.

Lemma grid_chars_length : forall grid chs,
  Sudoku.grid_chars grid = Some chs -> length chs = length grid.
Proof.
  induction grid as [|c grid IH]; cbn [Sudoku.grid_chars]; intros chs H.
  - inversion H; reflexivity.
  - destruct (mem c Sudoku.unit_values).
    + destruct (Sudoku.grid_chars grid) as [r|]; cbn [option_map] in H;
        [|discriminate H].
      inversion H; subst; simpl. rewrite (IH r); reflexivity.
    + destruct (Ascii.eqb c "."); [|discriminate H].
      destruct (Sudoku.grid_chars grid) as [r|]; cbn [option_map] in H;
        [|discriminate H].
      inversion H; subst; simpl. rewrite (IH r); reflexivity.
Qed.

Lemma grid_chars_None : forall grid,
  Sudoku.grid_chars grid = None <->
  exists c, In c grid /\ ~ In c (chars "123456789.").
Proof.
  assert (Hdot : forall c, In c (chars "123456789.") <->
                   mem c Sudoku.unit_values = true \/ c = "."%char).
  { intros c. rewrite mem_In. unfold Sudoku.unit_values, Sudoku.cols.
    simpl. intuition (subst; auto 12). }
  induction grid as [|c grid IH]; cbn [Sudoku.grid_chars].
  - split; [discriminate | intros [c [[] _]]].
  - destruct (mem c Sudoku.unit_values) eqn:Em.
    + destruct (Sudoku.grid_chars grid) as [r|] eqn:Eg; cbn [option_map].
      * split; [discriminate|]. intros [x [[->|Hx] Hn]].
        -- exfalso; apply Hn; apply Hdot; left; assumption.
        -- assert (Hnone : @None (list cand) = None) by reflexivity.
           destruct IH as [_ IH2].
           assert (Some r = None) by (apply IH2; exists x; auto). discriminate.
      * split; [|reflexivity]. intros _.
        destruct (proj1 IH eq_refl) as [x [Hx Hn]].
           exists x; split; [right; assumption | assumption].
    + destruct (Ascii.eqb c ".") eqn:Ed.
      * apply Ascii.eqb_eq in Ed; subst c.
        destruct (Sudoku.grid_chars grid) as [r|] eqn:Eg; cbn [option_map].
        -- split; [discriminate|]. intros [x [[<-|Hx] Hn]].
           ++ exfalso; apply Hn; apply Hdot; right; reflexivity.
           ++ destruct IH as [_ IH2].
              assert (Some r = None) by (apply IH2; exists x; auto). discriminate.
        -- split; [|reflexivity]. intros _.
           destruct (proj1 IH eq_refl) as [x [Hx Hn]].
           exists x; split; [right; assumption | assumption].
      * split; [|reflexivity]. intros _. exists c.
        split; [left; reflexivity|].
        intros Hc. apply Hdot in Hc. destruct Hc as [Hc|Hc].
        -- congruence.
        -- subst c. rewrite Ascii.eqb_refl in Ed. discriminate.
Qed.

(** C3, as the code has it.  The base constructor validates nothing: it
    stores the state, the variables, the alphabet, the groups and the
    peers as they come, marks the solver unsolved with both counters at
    zero, and the Australia adapter keeps whatever value the caller gave
    for a region.  The one refusal is in the Sudoku adapter, which gives
    up, before the base class is initialised, exactly when the grid holds
    a character that is neither a digit from 1 to 9 nor a dot, or does
    not have 81 cells. *)
Theorem construction_checks_only_the_grid :
  (forall state xs dom units prs,
     exists self, construct state xs dom units prs = Some self /\
       internal_state self = state /\ X self = xs /\ D self = dom /\
       C self = units /\ peers self = prs /\ solved self = false /\
       reduce_count self = 0 /\ search_count self = 0) /\
  (forall grid diag,
     Sudoku.init grid diag = None <->
     (exists c, In c grid /\ ~ In c (chars "123456789.")) \/
     length grid <> 81) /\
  (forall state x v,
     In x Australia.X_map -> get state x = Some v ->
     get (internal_state (Australia.init (Some state))) x = Some v).
Proof.
  split; [|split].
  - intros state xs dom units prs. eexists; split; [reflexivity|].
    simpl; repeat split.
  - intros grid diag. unfold Sudoku.init, Sudoku.grid_values.
    destruct (Sudoku.grid_chars grid) as [chs|] eqn:Eg.
    + pose proof (grid_chars_length _ Eg) as Hl.
      destruct (length chs =? 81) eqn:E81; simpl.
      * apply Nat.eqb_eq in E81. split; [discriminate|].
        intros [Hc|Hn]; [|lia].
        apply grid_chars_None in Hc. congruence.
      * apply Nat.eqb_neq in E81. split; [|reflexivity].
        intros _. right. lia.
    + split; [|reflexivity]. intros _. left.
      apply grid_chars_None; assumption.
  - intros state x v Hx Hv. unfold Australia.init, Australia.state_setup.
    simpl. unfold Australia.X_map in Hx. simpl in Hx.
    destruct Hx as [<-|[<-|[<-|[<-|[<-|[<-|[]]]]]]];
      rewrite Hv; simpl;
      repeat match goal with
             | |- context [get state ?k] =>
                 destruct (get state k); simpl
             end; reflexivity.
Qed.

(* ================================================================== *)
(** * Solving again *)

Lemma In_get_NoDup V (d : dict V) k v :
  NoDup (keys d) -> In (k, v) d -> get d k = Some v.
Proof.
  unfold keys. induction d as [|[k1 v1] d IH]; simpl; intros Hnd Hin.
  - contradiction.
  - inversion Hnd as [|? ? Hnotin Hnd']; subst.
    destruct Hin as [Heq|Hin].
    + inversion Heq; subst. rewrite String.eqb_refl. reflexivity.
    + destruct (String.eqb k1 k) eqn:E; [|auto].
      apply String.eqb_eq in E; subst k1. exfalso. apply Hnotin.
      apply in_map_iff. exists (k, v); auto.
Qed.

(** With every key among [xs] and no key twice, a state in which the
    variables of [xs] are solved has every entry solved. *)
Lemma all_entries_solved (d : State) xs :
  NoDup (keys d) -> incl (keys d) xs -> all_solved d xs = Returned true ->
  Forall (fun kv => length (snd kv) = 1) d.
Proof.
  intros Hnd Hi Hall. apply Forall_forall. intros [k v] Hin. simpl.
  assert (Hk : In k (keys d)).
  { unfold keys. apply in_map_iff. exists (k, v); auto. }
  destruct (proj1 (all_solved_true d xs) Hall k (Hi k Hk)) as [c Hc].
  rewrite (@In_get_NoDup _ d k v Hnd Hin) in Hc. inversion Hc; reflexivity.
Qed.

Lemma state_rel_solved_eq d st0 :
  state_rel (fun v' v => length v' = 1 -> v = v') d st0 ->
  Forall (fun kv => length (snd kv) = 1) d -> d = st0.
Proof.
  induction 1 as [|[k1 v1] [k2 v2] l l' [Hk Hv] _ IH]; intros HF.
  - reflexivity.
  - inversion HF; subst. simpl in *. subst k2.
    rewrite (Hv H1), IH; auto.
Qed.

(** A fully solved state a successful search returned is a fixed point of
    the pass. *)
Lemma search_result_fixed funcs xs st d :
  Forall shrinking funcs -> NoDup (keys d) -> incl (keys d) xs ->
  search_result funcs xs st d -> pass funcs d d /\ no_empty d.
Proof.
  intros HF Hnd Hi [Hall [_ [st0 [Hp [Hc Hne]]]]].
  pose proof (apply_rules_le _ HF Hp) as Hle.
  pose proof (solved_count_same Hle Hne Hc) as Hsame.
  pose proof (@all_entries_solved _ _ Hnd Hi Hall) as Hsolved.
  rewrite <- (@state_rel_solved_eq _ _ Hsame Hsolved) in Hp. auto.
Qed.

Lemma search_fixed funcs xs d fuel cnt :
  pass funcs d d -> no_empty d -> all_solved d xs = Returned true ->
  search funcs xs (S fuel) d cnt =
  Returned (d, PyDict d, mkCounts (reduces cnt + 1) (searches cnt)).
Proof.
  intros Hp Hne Hall. apply search_unfold. apply step_solved; [|assumption].
  simpl. unfold pass in Hp. rewrite Hp; simpl.
  apply unsolvable_units_false in Hne. rewrite Hne.
  rewrite Nat.eqb_refl. reflexivity.
Qed.

(* ================================================================== *)
(** * Success gives a consistent assignment *)

Lemma solve_success_solvable self fuel self' :
  solved self = false ->
  repository_rules self ->
  peers_cover (C self) (peers self) ->
  (forall g, In g (C self) -> incl g (X self)) ->
  solve fuel self = Returned (self', true) ->
  consistent (C self) (assignment_of (internal_state self')) /\
  within (assignment_of (internal_state self')) (internal_state self).
Proof.
  intros Hs Hr Hcover Hgx H.
  destruct (@solve_true _ _ _ Hs H) as [st1 [d [cnt [Hsearch [_ Heq]]]]].
  pose proof (repository_rules_shrinking Hr) as HF.
  pose proof (@search_success _ _ HF _ _ _ _ _ _ Hsearch) as Hres.
  destruct Hres as [Hall [Hle [st0 [Hp [Hcnt Hne]]]]].
  pose proof (proj1 (all_solved_true d (X self)) Hall) as Hsolved.
  subst self'. cbn [internal_state]. split.
  - intros g a b Hg Ha Hb Hab.
    destruct (Hsolved a (Hgx g Hg a Ha)) as [ca Hca].
    destruct (Hsolved b (Hgx g Hg b Hb)) as [cb Hcb].
    unfold assignment_of. rewrite Hca, Hcb.
    destruct (Hcover g a b Hg Ha Hb Hab) as [ps [Hps Hin]].
    destruct (repository_rules_head Hr) as [rest [Hrest HFr]].
    rewrite Hrest in *.
    eapply (@search_result_peers (peers self) rest (X self)
              (internal_state self) d a b ps); try eassumption.
    split; [assumption|]. split; [assumption|]. exists st0; auto.
  - intros k v Hk.
    destruct (state_le_get _ Hle Hk) as [v' [Hv' [Hincl _]]].
    unfold assignment_of. rewrite Hv'.
    pose proof (no_empty_get _ Hne Hv') as Hnil.
    destruct v' as [|c v']; [congruence|].
    apply Hincl; left; reflexivity.
Qed.

(* ================================================================== *)
(** * When failure means that there is no assignment *)

Lemma within_assign sigma (st : State) k w st' :
  within sigma st -> In (sigma k) w ->
  assign_value st k w = Returned st' -> within sigma st'.
Proof.
  intros Hw Hin H. apply assign_value_spec in H.
  destruct H as [old [Hold [Hnew [Hother _]]]].
  intros k' v Hk'. destruct (String.eqb k' k) eqn:E.
  - apply String.eqb_eq in E; subst k'.
    rewrite Hnew in Hk'; inversion Hk'; subst; assumption.
  - apply String.eqb_neq in E. rewrite (Hother _ E) in Hk'. auto.
Qed.

Lemma eliminate_peers_nil : forall ps st st',
  eliminate_peers [] ps st = Returned st' -> st' = st.
Proof.
  induction ps as [|p ps IH]; simpl; intros st st' H.
  - inversion H; reflexivity.
  - inv_bind H. inv_bind H. unfold assign_value in Ha0.
    rewrite Ha in Ha0; simpl in Ha0.
    unfold replace_empty in Ha0. rewrite cand_eqb_refl in Ha0.
    simpl in Ha0. inversion Ha0; subst. auto.
Qed.

Lemma eliminate_peers_within sigma c : forall ps st st',
  (forall p, In p ps -> sigma p <> c) -> within sigma st ->
  eliminate_peers [c] ps st = Returned st' -> within sigma st'.
Proof.
  induction ps as [|p ps IH]; simpl; intros st st' Hp Hw H.
  - inversion H; subst; assumption.
  - inv_bind H. apply getitem_Returned in Ha. inv_bind H.
    eapply IH; [|eapply within_assign; try eassumption|eassumption].
    + intros q Hq; apply Hp; right; assumption.
    + apply replace_single_keeps; [apply Hw; assumption|].
      apply Hp; left; reflexivity.
Qed.

Lemma solved_units_get (st : State) item :
  NoDup (keys st) -> In item (solved_units st) ->
  exists c, get st item = Some [c].
Proof.
  intros Hnd His. unfold solved_units in His. apply in_map_iff in His.
  destruct His as [[k v] [Hk Hkv]]. simpl in Hk; subst k.
  apply filter_In in Hkv. destruct Hkv as [Hin Hlen].
  simpl in Hlen. apply Nat.eqb_eq in Hlen.
  destruct v as [|c [|? ?]]; simpl in Hlen; try lia.
  exists c. apply In_get_NoDup; assumption.
Qed.

Lemma eliminate_sound units prs sigma K :
  NoDup K -> consistent units sigma -> peers_from_groups units prs ->
  sound_on K sigma (eliminate prs).
Proof.
  intros Hnd Hc Hpg st st' HK Hw H. unfold eliminate in H. subst K.
  assert (Hgen : forall items cur,
             incl items (solved_units st) -> state_le cur st ->
             within sigma cur ->
             eliminate_items prs items cur = Returned st' ->
             within sigma st').
  { induction items as [|item items IH]; simpl; intros cur Hi Hle Hwc Hr.
    - inversion Hr; subst; assumption.
    - inv_bind Hr. apply getitem_Returned in Ha. inv_bind Hr.
      apply getitem_Returned in Ha0. inv_bind Hr.
      assert (His : In item (solved_units st))
        by (apply Hi; left; reflexivity).
      destruct (solved_units_get _ _ Hnd His) as [c Hc0].
      destruct (state_le_get _ Hle Hc0) as [a' [Ha' Hsub]].
      rewrite Ha in Ha'; inversion Ha'; subst a'.
      assert (Hi' : incl items (solved_units st))
        by (intros y Hy; apply Hi; right; assumption).
      destruct (sub_of_single Hsub); subst a.
      + apply eliminate_peers_nil in Ha1. subst a1. eapply IH; eassumption.
      + assert (Hsig : sigma item = c).
        { destruct (Hwc _ _ Ha) as [E|[]]. symmetry; assumption. }
        eapply (IH a1); try eassumption.
        * eapply state_le_trans; [eapply eliminate_peers_le|]; eassumption.
        * eapply eliminate_peers_within; [|eassumption|eassumption].
          intros q Hq. destruct (Hpg _ _ _ Ha0 Hq) as [Hne [g [Hg [H1 H2]]]].
          rewrite <- Hsig. intros E. apply (Hc g item q Hg H1 H2 Hne).
          symmetry; assumption. }
  eapply Hgen; [apply incl_refl | apply state_le_refl | assumption
               | eassumption].
Qed.

Lemma dplaces_complete u st : forall unit dp x v,
  dplaces u unit st = Returned dp ->
  In x unit -> get st x = Some v -> In u v -> In x dp.
Proof.
  induction unit as [|y unit IH]; simpl; intros dp x v H Hx Hv Hu.
  - contradiction.
  - inv_bind H. apply getitem_Returned in Ha. inv_bind H.
    inversion H; subst; clear H.
    destruct Hx as [->|Hx].
    + rewrite Hv in Ha; inversion Ha; subst a.
      apply mem_In in Hu. rewrite Hu. left; reflexivity.
    + destruct (mem u a); [right|]; eapply IH; eassumption.
Qed.

Lemma dplaces_defined u st : forall unit dp x,
  dplaces u unit st = Returned dp -> In x unit ->
  exists v, get st x = Some v.
Proof.
  induction unit as [|y unit IH]; simpl; intros dp x H Hx.
  - contradiction.
  - inv_bind H. apply getitem_Returned in Ha. inv_bind H.
    destruct Hx as [->|Hx]; [eauto | eapply IH; eassumption].
Qed.

(** In a group with as many different variables as there are symbols, a
    consistent assignment uses every symbol. *)
Lemma onto_group (sigma : assignment) g dom :
  NoDup g -> length g = length dom ->
  (forall x, In x g -> In (sigma x) dom) ->
  (forall a b, In a g -> In b g -> a <> b -> sigma a <> sigma b) ->
  forall u, In u dom -> exists y, In y g /\ sigma y = u.
Proof.
  intros Hg Hlen Hdom Hinj u Hu.
  assert (Hnd : NoDup (map sigma g)).
  { apply NoDup_map_NoDup_ForallPairs; [|assumption].
    intros a b Ha Hb Heq. destruct (string_dec a b) as [E|E]; [assumption|].
    exfalso. exact (Hinj a b Ha Hb E Heq). }
  assert (Hincl : incl (map sigma g) dom).
  { intros c Hc. apply in_map_iff in Hc. destruct Hc as [x [<- Hx]]. auto. }
  assert (Hback : incl dom (map sigma g)).
  { apply NoDup_length_incl; [assumption| |assumption].
    rewrite length_map. lia. }
  apply Hback in Hu. apply in_map_iff in Hu.
  destruct Hu as [y [Hy Hin]]. eauto.
Qed.

Lemma only_choice_vals_within sigma unit dom :
  (forall u, In u dom -> exists y, In y unit /\ sigma y = u) ->
  forall vals st st', incl vals dom -> within sigma st ->
  only_choice_vals unit vals st = Returned st' -> within sigma st'.
Proof.
  intros Honto. induction vals as [|u vals IH]; simpl; intros st st' Hi Hw H.
  - inversion H; subst; assumption.
  - inv_bind H. inv_bind H.
    eapply IH; [|
      |eassumption]; [intros y Hy; apply Hi; right; assumption|].
    destruct a as [|item [|? ?]]; try (inversion Ha0; subst; assumption).
    eapply within_assign; [eassumption| |eassumption].
    destruct (Honto u (Hi u (or_introl eq_refl))) as [y [Hy Hsy]].
    destruct (dplaces_defined _ _ _ y Ha Hy) as [v Hv].
    assert (Hin : In y [item]).
    { eapply dplaces_complete; try eassumption.
      rewrite <- Hsy. apply Hw; assumption. }
    destruct Hin as [->|[]]. left; symmetry; assumption.
Qed.

Lemma only_choice_sound units dom sigma K :
  exact_groups units dom -> consistent units sigma ->
  (forall g x, In g units -> In x g -> In (sigma x) dom) ->
  sound_on K sigma (only_choice units dom).
Proof.
  intros [Hnd Hex] Hc Hdom st st' _ Hw H. unfold only_choice in H.
  revert st Hw H. induction units as [|g units IH]; simpl; intros st Hw H.
  - inversion H; subst; assumption.
  - inv_bind H.
    destruct (Hex g (or_introl eq_refl)) as [Hg Hlen].
    eapply IH; [| | | |exact H].
    + intros g' Hg'; apply Hex; right; assumption.
    + intros g' a0 b Hg'; apply Hc; right; assumption.
    + intros g' x Hg'; apply Hdom; right; assumption.
    + eapply only_choice_vals_within; [|apply incl_refl|eassumption
                                       |eassumption].
      apply onto_group; try assumption.
      * intros x Hx; apply (Hdom g); [left; reflexivity | assumption].
      * intros x y Hx Hy; apply (Hc g); [left; reflexivity | | ]; assumption.
Qed.

Lemma apply_rules_within K sigma : forall funcs st st',
  Forall shrinking funcs -> Forall (sound_on K sigma) funcs ->
  keys st = K -> within sigma st ->
  apply_rules funcs st = Returned st' -> within sigma st'.
Proof.
  induction funcs as [|f funcs IH]; simpl; intros st st' HS HD HK Hw H.
  - inversion H; subst; assumption.
  - apply Forall_cons_iff in HS. destruct HS as [Hf HS'].
    apply Forall_cons_iff in HD. destruct HD as [Hd HD']. inv_bind H.
    assert (Hk : keys a = K).
    { rewrite (state_le_keys (Hf _ _ Ha)); assumption. }
    assert (Hwa : within sigma a) by (exact (Hd st a HK Hw Ha)).
    exact (IH a st' HS' HD' Hk Hwa H).
Qed.

Lemma within_no_empty sigma (st : State) :
  NoDup (keys st) -> within sigma st -> no_empty st.
Proof.
  intros Hnd Hw. apply Forall_forall. intros [k v] Hin. simpl. intros ->.
  apply (@In_get_NoDup _ st k [] Hnd) in Hin. apply Hw in Hin.
  contradiction.
Qed.

Lemma reduce_loop_within K sigma funcs :
  NoDup K -> Forall shrinking funcs -> Forall (sound_on K sigma) funcs ->
  forall fuel st st' b, keys st = K -> within sigma st ->
  reduce_loop funcs fuel st = Returned (st', b) ->
  b = true /\ within sigma st'.
Proof.
  intros Hnd HS HD. induction fuel as [|fuel IH]; simpl;
    intros st st' b HK Hw H; [discriminate|].
  inv_bind H.
  pose proof (apply_rules_within HS HD HK Hw Ha) as Hwa.
  assert (Hk : keys a = K).
  { rewrite (state_le_keys (apply_rules_le _ HS Ha)); assumption. }
  assert (Hne : unsolvable_units a = false).
  { apply unsolvable_units_false. eapply within_no_empty; [|eassumption].
    rewrite Hk; assumption. }
  rewrite Hne in H.
  destruct (solved_units_count st =? solved_units_count a).
  - inversion H; subst. auto.
  - eapply IH; eassumption.
Qed.

Lemma tried_reaches sigma rec (st1 : State) s :
  (forall c new st2 attempt c',
     assign_value st1 s [sigma s] = Returned new ->
     rec new c = Returned (st2, attempt, c') -> truthy attempt = true) ->
  forall vals cnt r cnt',
  tried rec st1 s vals cnt r cnt' -> In (sigma s) vals -> truthy r = true.
Proof.
  intros Hrec. induction 1 as [ cnt | val vals cnt new st2 attempt cnt1 Hass Hr Ht
                              | val vals cnt new st2 attempt cnt1 r cnt'
                                  Hass Hr Ht Hrest IH ]; intros Hin.
  - contradiction.
  - assumption.
  - destruct (ascii_dec val (sigma s)) as [E|E].
    + subst val. rewrite (Hrec _ _ _ _ _ Hass Hr) in Ht. discriminate.
    + apply IH. destruct Hin as [?|Hin]; [contradiction | assumption].
Qed.

(** With sound rules the search is exhaustive: from a state that holds a
    consistent assignment it does not come back empty-handed. *)
Lemma search_complete K sigma funcs xs :
  NoDup K -> K <> [] ->
  Forall shrinking funcs -> Forall (sound_on K sigma) funcs ->
  forall fuel st cnt st' r cnt', keys st = K -> within sigma st ->
  search funcs xs fuel st cnt = Returned (st', r, cnt') ->
  truthy r = true.
Proof.
  intros Hnd Hnil HS HD. induction fuel as [|fuel IH];
    intros st cnt st' r cnt' HK Hw H; [discriminate|].
  apply search_unfold in H.
  inversion H as [ ? Hred | ? Hred Hall
                 | ? pairs n s vals ? ? Hred Hall Hpairs Hmin Hget Htried ];
    subst st'.
  - destruct (reduce_loop_within Hnd HS HD _ HK Hw Hred) as [E _].
    discriminate E.
  - subst. simpl.
    pose proof (state_le_keys (reduce_loop_le HS _ _ Hred)) as Hk.
    destruct state1 as [|kv rest]; [|reflexivity].
    simpl in Hk. rewrite <- Hk in Hnil. contradiction.
  - destruct (reduce_loop_within Hnd HS HD _ HK Hw Hred) as [_ Hw1].
    pose proof (state_le_keys (reduce_loop_le HS _ _ Hred)) as Hk.
    eapply tried_reaches; [|eassumption|apply Hw1; assumption].
    intros c new st2 attempt c' Hass Hrec.
    eapply (IH new); [| |eassumption].
    + assert (Hle : state_le new state1).
      { eapply assign_value_le; [eassumption| |eassumption].
        apply single_sub. apply Hw1; assumption. }
      exact (eq_trans (state_le_keys Hle) (eq_trans Hk HK)).
    + eapply within_assign; [eassumption| |eassumption].
      left; reflexivity.
Qed.

Lemma base_rules_sound self sigma :
  NoDup (keys (internal_state self)) ->
  (forall g, In g (C self) -> incl g (keys (internal_state self))) ->
  peers_from_groups (C self) (peers self) ->
  exact_groups (C self) (D self) ->
  (forall k v, get (internal_state self) k = Some v -> incl v (D self)) ->
  consistent (C self) sigma -> within sigma (internal_state self) ->
  Forall (sound_on (keys (internal_state self)) sigma) (base_rules self).
Proof.
  intros Hnd Hgk Hpg Hex Hdom Hc Hw. unfold base_rules.
  constructor; [|constructor; [|constructor]].
  - eapply eliminate_sound; eassumption.
  - apply only_choice_sound; try assumption.
    intros g x Hg Hx. pose proof (Hgk g Hg x Hx) as Hk.
    apply get_keys in Hk. destruct Hk as [v Hv].
    apply (Hdom x v Hv). apply Hw; assumption.
Qed.

(* ================================================================== *)
(** * Naked twins is sound *)

Lemma replace_single_absent c : forall w,
  ~ In c w -> replace_empty w [c] = w.
Proof.
  unfold replace_empty. induction w as [|a w IH]; simpl; intros Hn.
  - reflexivity.
  - destruct (Ascii.eqb c a) eqn:E; simpl.
    + apply Ascii.eqb_eq in E. exfalso; apply Hn; left; congruence.
    + rewrite IH; [reflexivity|]. intros H; apply Hn; right; assumption.
Qed.

Lemma replace_single_shorter c : forall w,
  In c w -> length (replace_empty w [c]) < length w.
Proof.
  unfold replace_empty. induction w as [|a w IH]; simpl; intros Hin.
  - contradiction.
  - destruct (Ascii.eqb c a) eqn:E; simpl.
    + pose proof (remove_from_sub [c] w 0) as [_ Hl]. lia.
    + apply Ascii.eqb_neq in E. destruct Hin as [?|Hin]; [congruence|].
      specialize (IH Hin). lia.
Qed.

Lemma twin_step_same_or_shorter twin num w :
  incl (twin_step twin num w) w /\
  (twin_step twin num w = w \/ length (twin_step twin num w) < length w).
Proof.
  unfold twin_step. destruct (negb (cand_eqb twin w)).
  - split; [apply replace_empty_sub|].
    destruct (in_dec ascii_dec num w) as [Hin|Hn].
    + right; apply replace_single_shorter; assumption.
    + left; apply replace_single_absent; assumption.
  - split; [apply incl_refl | left; reflexivity].
Qed.

(** One pass of the innermost loop over a unit without repetition: every
    box of the unit takes its step, every other key is left alone. *)
Lemma twins_boxes_get twin num : forall unit st st',
  NoDup unit -> Sudoku.twins_boxes twin num unit st = Returned st' ->
  (forall k, In k unit ->
     exists v, get st k = Some v /\
               get st' k = Some (twin_step twin num v)) /\
  (forall k, ~ In k unit -> get st' k = get st k).
Proof.
  induction unit as [|box unit IH]; simpl; intros st st' Hnd H.
  - inversion H; subst. split; [contradiction | reflexivity].
  - inversion Hnd as [|? ? Hnotin Hnd']; subst.
    inv_bind H. apply getitem_Returned in Ha. inv_bind H.
    assert (Hst1 : get a0 box = Some (twin_step twin num a) /\
                   forall k, k <> box -> get a0 k = get st k).
    { unfold twin_step. destruct (negb (cand_eqb twin a)).
      - apply assign_value_spec in Ha0.
        destruct Ha0 as [old [_ [Hnew [Hother _]]]]. auto.
      - inversion Ha0; subst. auto. }
    destruct Hst1 as [Hbox Hother].
    destruct (IH _ _ Hnd' H) as [Hin Hout]. split.
    + intros k [<-|Hk].
      * exists a. split; [assumption|]. rewrite (Hout box Hnotin). assumption.
      * destruct (Hin k Hk) as [v [Hv Hv']].
        exists v. split; [|assumption].
        rewrite <- Hv. symmetry. apply Hother. intros ->. contradiction.
    + intros k Hk. rewrite Hout; [|intros Hin'; apply Hk; right; assumption].
      apply Hother. intros ->. apply Hk; left; reflexivity.
Qed.

Lemma twins_invariant_refl unit S0 : twins_invariant unit S0 S0.
Proof.
  split; [apply state_le_refl|]. split.
  - intros b v _ Hv. exists v; auto.
  - intros b b' v _ _ Hb Hb'. congruence.
Qed.

Lemma twins_invariant_step unit S0 S S' twin num :
  NoDup unit -> twins_invariant unit S0 S ->
  Sudoku.twins_boxes twin num unit S = Returned S' ->
  twins_invariant unit S0 S'.
Proof.
  intros Hnd [Hle [Hshort Hunif]] H.
  destruct (twins_boxes_get _ _ _ Hnd H) as [Hin Hout].
  split; [|split].
  - eapply state_le_trans; [eapply twins_boxes_le; eassumption | assumption].
  - intros b v Hb Hv. destruct (Hshort b v Hb Hv) as [w [Hw Hwv]].
    destruct (Hin b Hb) as [w' [Hw' Hstep]].
    rewrite Hw in Hw'; inversion Hw'; subst w'.
    exists (twin_step twin num w). split; [assumption|].
    destruct (twin_step_same_or_shorter twin num w) as [_ [E|E]];
      [rewrite E; assumption|].
    destruct Hwv as [->|Hwv]; right; lia.
  - intros b b' v Hb Hb' Hv Hv'.
    destruct (Hin b Hb) as [w [Hw Hstep]].
    destruct (Hin b' Hb') as [w' [Hw' Hstep']].
    pose proof (Hunif b b' v Hb Hb' Hv Hv') as E.
    rewrite Hw, Hw' in E. inversion E; subst w'. congruence.
Qed.

Lemma three_in_two (T : cand) (a b c : ascii) :
  length T = 2 -> In a T -> In b T -> In c T ->
  a <> b -> a <> c -> b <> c -> False.
Proof.
  destruct T as [|x [|y [|? ?]]]; simpl; try discriminate.
  intros _ [?|[?|[]]] [?|[?|[]]] [?|[?|[]]]; congruence.
Qed.

(** One pass of the innermost loop keeps a consistent assignment within
    the state, when two different boxes of the unit had exactly the twin
    as candidates. *)
Lemma twins_boxes_within sigma unit S0 S S' twin num b1 b2 :
  NoDup unit ->
  (forall a b, In a unit -> In b unit -> a <> b -> sigma a <> sigma b) ->
  In b1 unit -> In b2 unit -> b1 <> b2 ->
  get S0 b1 = Some twin -> get S0 b2 = Some twin -> length twin = 2 ->
  In num twin ->
  twins_invariant unit S0 S -> within sigma S ->
  Sudoku.twins_boxes twin num unit S = Returned S' ->
  within sigma S'.
Proof.
  intros Hnd Hinj Hb1 Hb2 Hne H1 H2 Hlen Hnum [Hle [Hshort Hunif]] Hw H.
  destruct (twins_boxes_get _ _ _ Hnd H) as [Hin Hout].
  (* the twin boxes in [S] *)
  destruct (Hshort b1 twin Hb1 H1) as [w1 [Hw1 Hs1]].
  destruct (Hshort b2 twin Hb2 H2) as [w2 [Hw2 Hs2]].
  pose proof (Hunif b1 b2 twin Hb1 Hb2 H1 H2) as E12.
  rewrite Hw1, Hw2 in E12. inversion E12; subst w2. clear E12.
  assert (Hsub1 : incl w1 twin).
  { destruct (state_le_get _ Hle H1) as [w [Hw' [Hi _]]].
    rewrite Hw1 in Hw'; inversion Hw'; subst; assumption. }
  pose proof (Hw _ _ Hw1) as Hs_b1. pose proof (Hw _ _ Hw2) as Hs_b2.
  pose proof (Hinj b1 b2 Hb1 Hb2 Hne) as Hdiff.
  intros k w' Hk.
  destruct (in_dec string_dec k unit) as [Hku|Hku];
    [|rewrite (Hout k Hku) in Hk; auto].
  destruct (Hin k Hku) as [w [Hw0 Hstep]].
  rewrite Hstep in Hk; inversion Hk; subst w'. clear Hk.
  pose proof (Hw _ _ Hw0) as Hsk.
  unfold twin_step. destruct (cand_eqb twin w) eqn:Et; simpl; [assumption|].
  apply replace_single_keeps; [assumption|]. intros Heq.
  destruct (string_dec k b1) as [->|Hk1].
  - (* the box is a twin box whose candidates changed *)
    rewrite Hw1 in Hw0; inversion Hw0; subst w.
    destruct Hs1 as [->|Hs1]; [rewrite cand_eqb_refl in Et; discriminate|].
    rewrite Hlen in Hs1.
    destruct w1 as [|x [|? ?]]; simpl in Hs1; try lia; simpl in *;
      intuition congruence.
  - destruct (string_dec k b2) as [->|Hk2].
    + rewrite Hw2 in Hw0; inversion Hw0; subst w.
      destruct Hs1 as [->|Hs1]; [rewrite cand_eqb_refl in Et; discriminate|].
      rewrite Hlen in Hs1.
      destruct w1 as [|x [|? ?]]; simpl in Hs1; try lia; simpl in *;
        intuition congruence.
    + (* a third box cannot hold a symbol of the twin *)
      apply (@three_in_two twin (sigma k) (sigma b1) (sigma b2));
        auto; rewrite Heq; assumption.
Qed.

Lemma twins_nums_within sigma unit S0 twin b1 b2 :
  NoDup unit ->
  (forall a b, In a unit -> In b unit -> a <> b -> sigma a <> sigma b) ->
  In b1 unit -> In b2 unit -> b1 <> b2 ->
  get S0 b1 = Some twin -> get S0 b2 = Some twin -> length twin = 2 ->
  forall nums S S', incl nums twin ->
  twins_invariant unit S0 S -> within sigma S ->
  Sudoku.twins_nums twin nums unit S = Returned S' ->
  twins_invariant unit S0 S' /\ within sigma S'.
Proof.
  intros Hnd Hinj Hb1 Hb2 Hne H1 H2 Hlen.
  induction nums as [|num nums IH]; simpl; intros S S' Hi Hinv Hw H.
  - inversion H; subst; auto.
  - inv_bind H. eapply (IH a); [| | |exact H].
    + intros x Hx; apply Hi; right; assumption.
    + eapply twins_invariant_step; eassumption.
    + eapply (@twins_boxes_within sigma unit S0 S a twin num b1 b2);
        try eassumption.
      apply Hi; left; reflexivity.
Qed.

(** The boxes behind a count in the [Counter] of a unit. *)
Lemma pair_values_boxes S0 T : forall unit pairs,
  NoDup unit -> Sudoku.pair_values unit S0 = Returned pairs ->
  exists bs, NoDup bs /\ incl bs unit /\
             length bs = Sudoku.count_cand T pairs /\
             forall b, In b bs -> get S0 b = Some T /\ length T = 2.
Proof.
  induction unit as [|box unit IH]; simpl; intros pairs Hnd H.
  - inversion H; subst. exists [].
    split; [constructor|]. split; [intros x []|].
    split; [reflexivity | intros b []].
  - inversion Hnd as [|? ? Hnotin Hnd']; subst.
    inv_bind H. apply getitem_Returned in Ha. inv_bind H.
    inversion H; subst; clear H.
    destruct (IH _ Hnd' Ha0) as [bs [Hbs [Hincl [Hlen Hall]]]].
    assert (Hkeep : exists bs', NoDup bs' /\ incl bs' (box :: unit) /\
               length bs' = Sudoku.count_cand T a0 /\
               forall b, In b bs' -> get S0 b = Some T /\ length T = 2).
    { exists bs. split; [assumption|].
      split; [intros x Hx; right; apply Hincl; assumption|].
      split; [assumption | exact Hall]. }
    destruct (length a =? 2) eqn:E2; [|exact Hkeep].
    simpl. destruct (cand_eqb T a) eqn:ET; [|exact Hkeep].
    apply cand_eqb_eq in ET; subst a. apply Nat.eqb_eq in E2.
    exists (box :: bs). split; [|split; [|split]].
    + constructor; [|assumption]. intros Hin; apply Hnotin; auto.
    + intros x [->|Hx]; [left; reflexivity | right; apply Hincl; assumption].
    + simpl. rewrite Hlen. reflexivity.
    + intros b [<-|Hb]; [split; assumption | apply Hall; assumption].
Qed.

Lemma twins_of_boxes S0 T unit pairs :
  NoDup unit -> Sudoku.pair_values unit S0 = Returned pairs ->
  In T (Sudoku.twins_of pairs) ->
  exists b1 b2, In b1 unit /\ In b2 unit /\ b1 <> b2 /\
                get S0 b1 = Some T /\ get S0 b2 = Some T /\ length T = 2.
Proof.
  intros Hnd Hp Hin. unfold Sudoku.twins_of in Hin.
  apply filter_In in Hin. destruct Hin as [_ Hc]. apply Nat.eqb_eq in Hc.
  destruct (@pair_values_boxes S0 T unit pairs Hnd Hp)
    as [bs [Hbs [Hincl [Hlen Hall]]]].
  rewrite Hc in Hlen.
  destruct bs as [|b1 [|b2 [|? ?]]]; simpl in Hlen; try discriminate.
  exists b1, b2.
  inversion Hbs as [|? ? Hn _]; subst.
  destruct (Hall b1 (or_introl eq_refl)) as [H1 Hl].
  destruct (Hall b2 (or_intror (or_introl eq_refl))) as [H2 _].
  repeat split; try assumption.
  - apply Hincl; left; reflexivity.
  - apply Hincl; right; left; reflexivity.
  - intros ->. apply Hn; left; reflexivity.
Qed.

Lemma twins_loop_within sigma unit S0 pairs :
  NoDup unit ->
  (forall a b, In a unit -> In b unit -> a <> b -> sigma a <> sigma b) ->
  Sudoku.pair_values unit S0 = Returned pairs ->
  forall twins S S', incl twins (Sudoku.twins_of pairs) ->
  twins_invariant unit S0 S -> within sigma S ->
  Sudoku.twins_loop twins unit S = Returned S' ->
  within sigma S'.
Proof.
  intros Hnd Hinj Hp.
  induction twins as [|twin twins IH]; simpl; intros S S' Hi Hinv Hw H.
  - inversion H; subst; assumption.
  - inv_bind H.
    destruct (@twins_of_boxes S0 twin unit pairs Hnd Hp
                (Hi twin (or_introl eq_refl)))
      as [b1 [b2 [Hb1 [Hb2 [Hne [H1 [H2 Hlen]]]]]]].
    destruct (@twins_nums_within sigma unit S0 twin b1 b2 Hnd Hinj Hb1 Hb2
                Hne H1 H2 Hlen twin S a (incl_refl _) Hinv Hw Ha)
      as [Hinv' Hw'].
    eapply (IH a); [|eassumption|eassumption|exact H].
    intros x Hx; apply Hi; right; assumption.
Qed.

Lemma naked_twins_sound units sigma K :
  (forall g, In g units -> NoDup g) -> consistent units sigma ->
  sound_on K sigma (Sudoku.naked_twins units).
Proof.
  intros Hnd Hc st st' _ Hw H. unfold Sudoku.naked_twins in H.
  revert st Hw H. induction units as [|unit units IH]; simpl; intros st Hw H.
  - inversion H; subst; assumption.
  - inv_bind H. inv_bind H.
    eapply IH; [| | |exact H].
    + intros g Hg; apply Hnd; right; assumption.
    + intros g x y Hg; apply Hc; right; assumption.
    + eapply (@twins_loop_within sigma unit st a);
        [ apply Hnd; left; reflexivity
        | intros x y Hx Hy; apply (Hc unit); [left; reflexivity| |];
            assumption
        | exact Ha | apply incl_refl | apply twins_invariant_refl
        | exact Hw | exact Ha0 ].
Qed.

Lemma repository_rules_sound self sigma :
  repository_rules self ->
  NoDup (keys (internal_state self)) ->
  (forall g, In g (C self) -> incl g (keys (internal_state self))) ->
  peers_from_groups (C self) (peers self) ->
  exact_groups (C self) (D self) ->
  (forall k v, get (internal_state self) k = Some v -> incl v (D self)) ->
  consistent (C self) sigma -> within sigma (internal_state self) ->
  Forall (sound_on (keys (internal_state self)) sigma) (reduce_funcs self).
Proof.
  intros Hr Hnd Hgk Hpg Hex Hdom Hc Hw.
  pose proof (@base_rules_sound self sigma Hnd Hgk Hpg Hex Hdom Hc Hw) as Hb.
  destruct Hr as [H|H]; rewrite H; [assumption|].
  unfold sudoku_rules. apply Forall_app. split; [assumption|].
  constructor; [|constructor].
  apply naked_twins_sound; [|assumption].
  intros g Hg. apply (proj2 Hex g Hg).
Qed.

(* ================================================================== *)
(** * The peers the adapters derive *)

Lemma get_set_eq V (d : dict V) k v : get (set d k v) k = Some v.
Proof.
  induction d as [|[k1 v1] d IH]; simpl.
  - rewrite String.eqb_refl; reflexivity.
  - destruct (String.eqb k1 k) eqn:E; simpl; rewrite E; auto.
Qed.

Lemma get_set_neq V (d : dict V) k k' v :
  k' <> k -> get (set d k v) k' = get d k'.
Proof.
  intros Hne. induction d as [|[k1 v1] d IH]; simpl.
  - destruct (String.eqb k k') eqn:E; [|reflexivity].
    apply String.eqb_eq in E; congruence.
  - destruct (String.eqb k1 k) eqn:E; simpl.
    + apply String.eqb_eq in E; subst k1.
      destruct (String.eqb k k') eqn:E'; [|reflexivity].
      apply String.eqb_eq in E'; congruence.
    + destruct (String.eqb k1 k'); [reflexivity | assumption].
Qed.

Lemma get_dict_of V (f : string -> V) : forall xs acc k,
  get (dict_of (map (fun s => (s, f s)) xs) acc) k =
  if mem_str k xs then Some (f k) else get acc k.
Proof.
  induction xs as [|x xs IH]; simpl; intros acc k; [reflexivity|].
  rewrite IH. destruct (mem_str k xs) eqn:Em.
  - rewrite orb_true_r. reflexivity.
  - rewrite orb_false_r. destruct (String.eqb k x) eqn:E.
    + apply String.eqb_eq in E; subst x. apply get_set_eq.
    + apply String.eqb_neq in E. apply get_set_neq; assumption.
Qed.

Lemma In_dedup x : forall l, In x (dedup l) <-> In x l.
Proof.
  induction l as [|y l IH]; simpl; [reflexivity|].
  rewrite filter_In, IH. split.
  - intros [?|[H _]]; auto.
  - intros [->|H]; [left; reflexivity|].
    destruct (string_dec y x) as [->|Hne]; [left; reflexivity|].
    right; split; [assumption|].
    apply negb_true_iff. apply String.eqb_neq; assumption.
Qed.

Lemma In_peers_of units a b :
  In b (peers_of units a) <->
  a <> b /\ exists g, In g units /\ In a g /\ In b g.
Proof.
  unfold peers_of, groups_of.
  rewrite filter_In, In_dedup, in_concat. split.
  - intros [[g [Hg Hb]] Hne]. apply filter_In in Hg. destruct Hg as [Hg Ha].
    apply mem_str_In in Ha. apply negb_true_iff in Hne.
    apply String.eqb_neq in Hne. split; [assumption|]. exists g; auto.
  - intros [Hne [g [Hg [Ha Hb]]]]. split.
    + exists g. split; [|assumption]. apply filter_In.
      split; [assumption | apply mem_str_In; assumption].
    + apply negb_true_iff. apply String.eqb_neq; assumption.
Qed.

(** The peers of the two adapters cover the groups and hold nothing
    else. *)
Lemma make_peers_cover units xs :
  (forall g, In g units -> incl g xs) ->
  peers_cover units (make_peers units xs).
Proof.
  intros Hgx g a b Hg Ha Hb Hne. unfold make_peers.
  exists (peers_of units a). rewrite get_dict_of.
  assert (Hm : mem_str a xs = true) by (apply mem_str_In; eapply Hgx; eauto).
  rewrite Hm. split; [reflexivity|].
  apply In_peers_of. split; [assumption|]. exists g; auto.
Qed.

Lemma make_peers_from_groups units xs :
  peers_from_groups units (make_peers units xs).
Proof.
  intros a ps b Hps Hb. unfold make_peers in Hps.
  rewrite get_dict_of in Hps. destruct (mem_str a xs); [|discriminate].
  inversion Hps; subst ps. apply In_peers_of; assumption.
Qed.

(* ================================================================== *)
(** * Failure and the existence of an assignment *)

Lemma Forall_within sigma (st : State) :
  Forall (fun kv => In (sigma (fst kv)) (snd kv)) st -> within sigma st.
Proof.
  intros HF k v Hk. apply get_In in Hk.
  rewrite Forall_forall in HF. apply (HF (k, v) Hk).
Qed.

(** On the triangle only-choice gives blue to [A] and to [C], each the
    only place for blue in its group with [B]; elimination then empties
    one of them and [solve] fails, though [A] blue, [B] red, [C] green is
    a consistent assignment.  On the two variables of one group that are
    both red and not peers of each other, [solve] returns [True], though
    no assignment is consistent. *)
Lemma solve_is_not_exact :
  ~ unsolvable_exactly triangle 10 /\ ~ unsolvable_exactly unlinked_pair 10.
Proof.
  split; intros H.
  - assert (Hsolve : exists self',
               solve 10 triangle = Returned (self', false)).
    { eexists. vm_compute. reflexivity. }
    destruct Hsolve as [self' Hsolve].
    destruct (H self' false Hsolve) as [Hno _].
    apply (Hno eq_refl).
    exists (fun k => if String.eqb k "A" then "B"%char
                     else if String.eqb k "B" then "R"%char else "G"%char).
    split.
    + intros g a b Hg Ha Hb Hne. simpl in Hg.
      destruct Hg as [<-|[<-|[<-|[]]]]; simpl in Ha, Hb;
        destruct Ha as [<-|[<-|[]]]; destruct Hb as [<-|[<-|[]]];
        simpl; congruence.
    + apply Forall_within. simpl.
      constructor; [simpl; auto|]. constructor; [simpl; auto|].
      constructor; [simpl; auto|]. constructor.
  - assert (Hsolve : exists self',
               solve 10 unlinked_pair = Returned (self', true)).
    { eexists. vm_compute. reflexivity. }
    destruct Hsolve as [self' Hsolve].
    destruct (H self' true Hsolve) as [_ Hyes].
    assert (Hno : ~ solvable unlinked_pair).
    { intros [sigma [Hc Hw]].
      assert (HA : In (sigma "A"%string) (chars "R"))
        by (apply Hw; reflexivity).
      assert (HB : In (sigma "B"%string) (chars "R"))
        by (apply Hw; reflexivity).
      destruct HA as [HA|[]]. destruct HB as [HB|[]].
      apply (Hc ["A"; "B"]%string "A"%string "B"%string);
        simpl; auto; [discriminate | congruence]. }
    specialize (Hyes Hno). discriminate Hyes.
Qed.

Lemma forallb_incl (units : list (list string)) (xs : list string) :
  forallb (fun g => forallb (fun x => mem_str x xs) g) units = true ->
  forall g, In g units -> incl g xs.
Proof.
  rewrite forallb_forall. intros H g Hg x Hx.
  specialize (H g Hg). rewrite forallb_forall in H.
  apply mem_str_In. auto.
Qed.

(** With sound rules a [solve] that returns [False] leaves no consistent
    assignment. *)
Lemma solve_false_unsolvable self fuel self' :
  repository_rules self ->
  NoDup (keys (internal_state self)) -> internal_state self <> [] ->
  (forall g, In g (C self) -> incl g (keys (internal_state self))) ->
  peers_from_groups (C self) (peers self) ->
  exact_groups (C self) (D self) ->
  (forall k v, get (internal_state self) k = Some v -> incl v (D self)) ->
  solve fuel self = Returned (self', false) -> ~ solvable self.
Proof.
  intros Hr Hnd Hnil Hgk Hpg Hex Hdom H [sigma [Hc Hw]].
  pose proof (repository_rules_shrinking Hr) as HS.
  destruct (solve_false _ _ H) as [st1 [r [cnt [Hsearch [Hr' _]]]]].
  assert (Ht : truthy r = true).
  { eapply (@search_complete (keys (internal_state self)) sigma);
      [ exact Hnd | | exact HS | | reflexivity | exact Hw | exact Hsearch ].
    - intros E. apply Hnil. destruct (internal_state self); [reflexivity|].
      discriminate E.
    - apply repository_rules_sound; assumption. }
  congruence.
Qed.

(* ================================================================== *)
(** * The two adapters meet the assumptions *)

Lemma set_fresh V (d : dict V) k v :
  ~ In k (keys d) -> set d k v = d ++ [(k, v)].
Proof.
  unfold keys. induction d as [|[k1 v1] d IH]; simpl; intros Hn.
  - reflexivity.
  - destruct (String.eqb k1 k) eqn:E.
    + apply String.eqb_eq in E. exfalso; apply Hn; left; assumption.
    + rewrite IH; [reflexivity|]. intros H; apply Hn; right; assumption.
Qed.

(** Built from pairs with different keys, a dictionary is the list of the
    pairs. *)
Lemma dict_of_NoDup V : forall (kvs acc : dict V),
  NoDup (keys acc ++ keys kvs) -> dict_of kvs acc = acc ++ kvs.
Proof.
  unfold keys. induction kvs as [|[k v] kvs IH]; simpl; intros acc Hnd.
  - rewrite app_nil_r; reflexivity.
  - assert (Hk : ~ In k (keys acc)).
    { unfold keys. intros Hin. apply NoDup_remove_2 in Hnd. apply Hnd.
      apply in_or_app; left; assumption. }
    rewrite (@set_fresh _ acc k v Hk). rewrite IH.
    + rewrite <- app_assoc. reflexivity.
    + rewrite map_app, <- app_assoc. simpl. assumption.
Qed.

Lemma nodupb_NoDup (l : list string) : nodupb l = true -> NoDup l.
Proof.
  induction l as [|x l IH]; simpl; intros H; [constructor|].
  apply andb_true_iff in H. destruct H as [H1 H2].
  constructor; [|auto]. intros Hin. apply mem_str_In in Hin.
  rewrite Hin in H1. discriminate.
Qed.

(** Peers made from the groups of a problem whose variables are the keys
    of its state meet all that the theorems ask of them. *)
Lemma derived_peers_well_formed self :
  peers self = make_peers (C self) (X self) ->
  keys (internal_state self) = X self ->
  (forall g, In g (C self) -> incl g (X self)) ->
  well_formed self /\ peers_cover (C self) (peers self) /\
  peers_from_groups (C self) (peers self).
Proof.
  intros Hp Hk Hgx. rewrite Hp. split; [|split].
  - unfold well_formed. rewrite Hk, Hp. split; [apply incl_refl|]. split.
    + intros k Hin. exists (peers_of (C self) k). unfold make_peers.
      rewrite get_dict_of. apply mem_str_In in Hin. rewrite Hin.
      split; [reflexivity|]. intros b Hb. apply In_peers_of in Hb.
      destruct Hb as [_ [g [Hg [_ Hbg]]]]. exact (Hgx g Hg b Hbg).
    + exact Hgx.
  - apply make_peers_cover; assumption.
  - apply make_peers_from_groups.
Qed.

Lemma australia_keys state :
  keys (internal_state (Australia.init state)) = Australia.X_map.
Proof.
  unfold Australia.init, Australia.state_setup. simpl.
  destruct state as [st|]; [|reflexivity].
  repeat match goal with
         | |- context [get st ?k] => destruct (get st k)
         end; reflexivity.
Qed.

Lemma grid_chars_in_dom : forall grid chs,
  Sudoku.grid_chars grid = Some chs ->
  Forall (fun v => incl v Sudoku.unit_values) chs.
Proof.
  induction grid as [|c grid IH]; cbn [Sudoku.grid_chars]; intros chs H.
  - inversion H; constructor.
  - destruct (mem c Sudoku.unit_values) eqn:Em.
    + destruct (Sudoku.grid_chars grid) as [r|]; cbn [option_map] in H;
        [|discriminate H].
      inversion H; subst. constructor; [|auto].
      intros x [<-|[]]. apply mem_In; assumption.
    + destruct (Ascii.eqb c "."); [|discriminate H].
      destruct (Sudoku.grid_chars grid) as [r|]; cbn [option_map] in H;
        [|discriminate H].
      inversion H; subst. constructor; [apply incl_refl | auto].
Qed.

Lemma sudoku_init_Some grid diag self :
  Sudoku.init grid diag = Some self ->
  exists chs,
    Sudoku.grid_chars grid = Some chs /\ length chs = 81 /\
    self = mkSolver (dict_of (combine Sudoku.boxes chs) []) Sudoku.boxes
             Sudoku.unit_values (Sudoku.unitlist diag)
             (make_peers (Sudoku.unitlist diag) Sudoku.boxes) false
             ([eliminate (make_peers (Sudoku.unitlist diag) Sudoku.boxes);
               only_choice (Sudoku.unitlist diag) Sudoku.unit_values]
              ++ [Sudoku.naked_twins (Sudoku.unitlist diag)]) 0 0.
Proof.
  unfold Sudoku.init, Sudoku.grid_values. intros H.
  destruct (Sudoku.grid_chars grid) as [chs|] eqn:Eg; [|discriminate H].
  destruct (length chs =? 81) eqn:E81; cbn [negb] in H; [|discriminate H].
  apply Nat.eqb_eq in E81. exists chs.
  split; [reflexivity|]. split; [assumption|].
  inversion H; reflexivity.
Qed.

(** What the Sudoku adapter sets up, for every grid it accepts. *)
Lemma sudoku_setup grid diag self :
  Sudoku.init grid diag = Some self ->
  solved self = false /\ repository_rules self /\
  X self = Sudoku.boxes /\ D self = Sudoku.unit_values /\
  C self = Sudoku.unitlist diag /\
  peers self = make_peers (Sudoku.unitlist diag) Sudoku.boxes /\
  keys (internal_state self) = Sudoku.boxes /\
  (forall k v, get (internal_state self) k = Some v ->
               incl v Sudoku.unit_values).
Proof.
  intros H. destruct (sudoku_init_Some _ _ H) as [chs [Eg [E81 ->]]].
  cbn [solved reduce_funcs X D C peers internal_state].
  assert (Hnd : NoDup Sudoku.boxes) by (apply nodupb_NoDup; vm_compute; reflexivity).
  assert (Hlen : length Sudoku.boxes = 81) by (vm_compute; reflexivity).
  assert (Hkeys : keys (combine Sudoku.boxes chs) = Sudoku.boxes).
  { unfold keys.
    assert (Hl : length Sudoku.boxes = length chs) by lia.
    clear - Hl. revert chs Hl. generalize Sudoku.boxes.
    induction l as [|b l IH]; intros [|c chs] Hl; simpl in *;
      try discriminate; [reflexivity|]. rewrite IH; [reflexivity | lia]. }
  assert (Hdict : dict_of (combine Sudoku.boxes chs) []
                  = combine Sudoku.boxes chs).
  { rewrite dict_of_NoDup; [reflexivity|].
    change (NoDup (keys (combine Sudoku.boxes chs))).
    rewrite Hkeys. exact Hnd. }
  split; [reflexivity|]. split; [right; reflexivity|].
  repeat (split; [reflexivity|]).
  rewrite Hdict. split; [exact Hkeys|].
  intros k v Hk. apply get_In in Hk. apply in_combine_r in Hk.
  pose proof (grid_chars_in_dom _ Eg) as HF. rewrite Forall_forall in HF.
  auto.
Qed.

Lemma exact_groupsb_exact units dom :
  exact_groupsb units dom = true -> exact_groups units dom.
Proof.
  unfold exact_groupsb, exact_groups. rewrite andb_true_iff, forallb_forall.
  intros [Hd Hg]. split.
  - clear Hg. induction dom as [|c dom IH]; [constructor|].
    simpl in Hd. apply andb_true_iff in Hd. destruct Hd as [H1 H2].
    constructor; [|auto]. intros Hin. apply mem_In in Hin.
    rewrite Hin in H1. discriminate.
  - intros g Hin. specialize (Hg g Hin). apply andb_true_iff in Hg.
    destruct Hg as [H1 H2]. split; [apply nodupb_NoDup; assumption|].
    apply Nat.eqb_eq; assumption.
Qed.

(** For every grid the Sudoku adapter accepts, [solve] returns, and it
    returns [True] exactly when the grid has a solution. *)
Lemma sudoku_solve_decides grid diag self :
  Sudoku.init grid diag = Some self ->
  exists self' b,
    (forall fuel, unsolved_count (internal_state self) < fuel ->
       solve fuel self = Returned (self', b)) /\
    (b = true <-> solvable self).
Proof.
  intros H.
  destruct (sudoku_setup _ _ H)
    as [Hs [Hr [HX [HD [HC [HP [HK Hdom]]]]]]].
  assert (Hgx : forall g, In g (C self) -> incl g (X self)).
  { rewrite HC, HX. apply forallb_incl.
    destruct diag; vm_compute; reflexivity. }
  assert (Hex : exact_groups (C self) (D self)).
  { rewrite HC, HD. apply exact_groupsb_exact.
    destruct diag; vm_compute; reflexivity. }
  assert (Hp' : peers self = make_peers (C self) (X self)).
  { rewrite HP, HC, HX; reflexivity. }
  assert (HK' : keys (internal_state self) = X self) by congruence.
  destruct (derived_peers_well_formed self Hp' HK' Hgx)
    as [Hwf [Hcover Hpg]].
  assert (Hnd : NoDup (keys (internal_state self))).
  { rewrite HK. apply nodupb_NoDup; vm_compute; reflexivity. }
  assert (Hnil : internal_state self <> []).
  { intros E. rewrite E in HK. discriminate HK. }
  destruct (solve_returns Hr Hwf) as [self' [b Hret]].
  exists self', b. split; [exact Hret|].
  pose proof (Hret _ (Nat.lt_succ_diag_r _)) as Hrun.
  destruct b.
  - split; [|reflexivity]. intros _.
    destruct (solve_success_solvable _ Hs Hr Hcover Hgx Hrun) as [Hc Hw].
    exists (assignment_of (internal_state self')); auto.
  - split; [discriminate|]. intros Hsol. exfalso.
    revert Hsol. eapply solve_false_unsolvable; try eassumption.
    + rewrite HK'. exact Hgx.
    + rewrite HD. exact Hdom.
Qed.

(* ================================================================== *)
(** * The order of a set of peers does not matter *)

Lemma eliminate_peers_get val : forall ps st st',
  NoDup ps -> eliminate_peers val ps st = Returned st' ->
  (forall k, In k ps ->
     exists v, get st k = Some v /\
               get st' k = Some (replace_empty v val)) /\
  (forall k, ~ In k ps -> get st' k = get st k).
Proof.
  induction ps as [|p ps IH]; simpl; intros st st' Hnd H.
  - inversion H; subst. split; [contradiction | reflexivity].
  - inversion Hnd as [|? ? Hnotin Hnd']; subst.
    inv_bind H. apply getitem_Returned in Ha. inv_bind H.
    apply assign_value_spec in Ha0.
    destruct Ha0 as [old [_ [Hnew [Hother _]]]].
    destruct (IH _ _ Hnd' H) as [Hin Hout]. split.
    + intros k [<-|Hk].
      * exists a. split; [assumption|]. rewrite (Hout p Hnotin). assumption.
      * destruct (Hin k Hk) as [v [Hv Hv']].
        exists v. split; [|assumption].
        rewrite <- Hv. symmetry. apply Hother. intros ->. contradiction.
    + intros k Hk. rewrite Hout; [|intros Hin'; apply Hk; right; assumption].
      apply Hother. intros ->. apply Hk; left; reflexivity.
Qed.

(** Two dictionaries with the same keys, none twice, and the same value
    under every key are the same dictionary. *)
Lemma state_ext : forall (a b : State),
  keys a = keys b -> NoDup (keys a) ->
  (forall k, get a k = get b k) -> a = b.
Proof.
  unfold keys. induction a as [|[k v] a IH]; intros [|[k' v'] b] Hk Hnd Hg;
    simpl in Hk; try discriminate; [reflexivity|].
  inversion Hk; subst k'. inversion Hnd as [|? ? Hnotin Hnd']; subst.
  pose proof (Hg k) as Hgk. simpl in Hgk. rewrite String.eqb_refl in Hgk.
  inversion Hgk; subst v'. f_equal. apply IH; try assumption.
  intros k0. specialize (Hg k0). simpl in Hg.
  destruct (String.eqb k k0) eqn:E; [|assumption].
  apply String.eqb_eq in E; subst k0.
  destruct (get a k) as [w|] eqn:Ea.
  - exfalso. apply Hnotin. apply get_In in Ea.
    apply in_map_iff. exists (k, w); auto.
  - destruct (get b k) as [w|] eqn:Eb; [|reflexivity].
    exfalso. apply Hnotin. rewrite H1. apply get_In in Eb.
    apply in_map_iff. exists (k, w); auto.
Qed.

(** The peers of a variable are a set: whatever the order in which they
    are visited, the inner loop of elimination leaves the same state. *)
Lemma eliminate_peers_order val ps ps' st st' :
  NoDup (keys st) -> NoDup ps -> Permutation ps ps' ->
  eliminate_peers val ps st = Returned st' ->
  eliminate_peers val ps' st = Returned st'.
Proof.
  intros Hk Hnd Hperm H.
  destruct (@eliminate_peers_get val ps st st' Hnd H) as [Hin Hout].
  assert (Hnd' : NoDup ps') by (eapply Permutation_NoDup; eassumption).
  assert (Hret : returns (eliminate_peers val ps' st)).
  { apply returns_eliminate_peers. intros k Hk'.
    apply (Permutation_in _ (Permutation_sym Hperm)) in Hk'.
    destruct (Hin k Hk') as [v [Hv _]]. apply get_keys; eauto. }
  destruct Hret as [st'' H'']. rewrite H''. f_equal.
  destruct (@eliminate_peers_get val ps' st st'' Hnd' H'') as [Hin' Hout'].
  apply state_ext.
  - rewrite (state_le_keys (eliminate_peers_le _ _ _ H'')).
    symmetry. apply state_le_keys. eapply eliminate_peers_le; eassumption.
  - rewrite (state_le_keys (eliminate_peers_le _ _ _ H'')). assumption.
  - intros k. destruct (in_dec string_dec k ps) as [Hi|Hn].
    + destruct (Hin k Hi) as [v [Hv Hv']].
      destruct (Hin' k (Permutation_in _ Hperm Hi)) as [w [Hw Hw']].
      rewrite Hv in Hw; inversion Hw; subst w. congruence.
    + rewrite (Hout k Hn). apply Hout'. intros Hi. apply Hn.
      apply (Permutation_in _ (Permutation_sym Hperm)); assumption.
Qed.

Lemma eliminate_order prs prs' st st' :
  NoDup (keys st) -> same_peers prs prs' ->
  eliminate prs st = Returned st' -> eliminate prs' st = Returned st'.
Proof.
  unfold eliminate. generalize (solved_units st) at 1 2. intros items.
  revert st. induction items as [|item items IH]; simpl; intros st Hk Hs H.
  - assumption.
  - inv_bind H. inv_bind H. apply getitem_Returned in Ha0. inv_bind H.
    destruct (Hs _ _ Ha0) as [Hnd [ps' [Hps' Hperm]]].
    rewrite Ha; simpl. unfold getitem at 1; rewrite Hps'; simpl.
    rewrite (@eliminate_peers_order _ _ _ _ _ Hk Hnd Hperm Ha1); simpl.
    apply IH; try assumption.
    rewrite (state_le_keys (eliminate_peers_le _ _ _ Ha1)). assumption.
Qed.

(* ================================================================== *)
(** * Assignment *)

Lemma keys_set_present (st : State) k (v w : cand) :
  get st k = Some v -> keys (set st k w) = keys st.
Proof.
  unfold keys. induction st as [|[k' v'] st IH]; simpl; [discriminate|].
  destruct (String.eqb k' k) eqn:E; intros H; simpl.
  - reflexivity.
  - f_equal. apply IH. exact H.
Qed.

(** X1. [assign_value] raises [KeyError] for a variable that is not a key
    and writes nothing; for a key, a lookup of the variable afterwards
    gives the new value, every other lookup gives what it gave before, and
    the keys are the same in the same order. *)
Theorem assign_value_contract (state : State) item (new_val : cand) :
  (get state item = None ->
   assign_value state item new_val = Raised (KeyError item)) /\
  (forall old, get state item = Some old ->
   exists st', assign_value state item new_val = Returned st' /\
     get st' item = Some new_val /\
     (forall k, k <> item -> get st' k = get state k) /\
     keys st' = keys state).
Proof.
  split.
  - intros H. unfold assign_value, getitem. rewrite H. reflexivity.
  - intros old H. unfold assign_value, getitem. rewrite H. simpl.
    destruct (cand_eqb old new_val) eqn:E; simpl.
    + apply cand_eqb_eq in E. subst new_val.
      exists state. repeat split; auto.
    + exists (set state item new_val). split; [reflexivity|].
      split; [apply get_set_eq|].
      split; [intros k Hk; apply get_set_neq; exact Hk|].
      eapply keys_set_present; exact H.
Qed.

(* ================================================================== *)
(** * What elimination removes *)

Lemma replace_single_gone c : forall w, ~ In c (replace_empty w [c]).
Proof.
  unfold replace_empty. induction w as [|a w IH]; simpl.
  - intros [].
  - destruct (Ascii.eqb c a) eqn:E; simpl.
    + exact IH.
    + apply Ascii.eqb_neq in E. intros [H|H]; [congruence | exact (IH H)].
Qed.

Lemma replace_single_only c x w :
  In x w -> ~ In x (replace_empty w [c]) -> x = c.
Proof.
  intros Hin Hn. destruct (ascii_dec x c) as [E|E]; [exact E|].
  exfalso. apply Hn. apply replace_single_keeps; assumption.
Qed.

Lemma eliminate_peers_removes c p : forall ps st st',
  eliminate_peers [c] ps st = Returned st' -> In p ps ->
  exists w, get st' p = Some w /\ ~ In c w.
Proof.
  induction ps as [|peer ps IH]; simpl; intros st st' H Hin; [contradiction|].
  inv_bind H. inv_bind H. rename a into v, a0 into st1.
  destruct Hin as [->|Hin].
  - destruct (assign_value_spec _ _ _ Ha0) as [old [_ [Hnew _]]].
    pose proof (eliminate_peers_le _ _ _ H) as Hle.
    destruct (state_le_get _ Hle Hnew) as [w [Hw [Hincl _]]].
    exists w; split; [exact Hw|].
    intros Hc. exact (replace_single_gone c v (Hincl _ Hc)).
  - eapply IH; eassumption.
Qed.

Lemma eliminate_peers_only c x p : forall ps st st' v w,
  eliminate_peers [c] ps st = Returned st' ->
  get st p = Some v -> get st' p = Some w -> In x v -> ~ In x w ->
  x = c /\ In p ps.
Proof.
  induction ps as [|peer ps IH]; simpl; intros st st' v w H Hv Hw Hin Hn.
  - inversion H; subst st'. rewrite Hv in Hw. inversion Hw; subst w.
    contradiction.
  - inv_bind H. inv_bind H. rename a into v0, a0 into st1.
    apply getitem_Returned in Ha.
    destruct (assign_value_spec _ _ _ Ha0) as [old [_ [Hnew [Hoth _]]]].
    destruct (String.eqb p peer) eqn:E.
    + apply String.eqb_eq in E; subst peer.
      rewrite Hv in Ha; inversion Ha; subst v0.
      destruct (in_dec ascii_dec x (replace_empty v [c])) as [Hx|Hx].
      * destruct (IH st1 st' _ w H Hnew Hw Hx Hn) as [-> Hp].
        split; [reflexivity | right; exact Hp].
      * split; [eapply replace_single_only; eassumption | left; reflexivity].
    + apply String.eqb_neq in E.
      rewrite <- (Hoth _ E) in Hv.
      destruct (IH st1 st' v w H Hv Hw Hin Hn) as [-> Hp].
      split; [reflexivity | right; exact Hp].
Qed.

Lemma eliminate_items_removes prs a c ps p :
  get prs a = Some ps -> In p ps ->
  forall items st st',
  eliminate_items prs items st = Returned st' -> no_empty st' ->
  In a items -> get st a = Some [c] ->
  exists w, get st' p = Some w /\ ~ In c w.
Proof.
  intros Hps Hp. induction items as [|item rest IH]; simpl;
    intros st st' H Hne Hin Ha; [contradiction|].
  inv_bind H. inv_bind H. inv_bind H.
  rename a0 into val, a1 into ps0, a2 into st1.
  apply getitem_Returned in Ha0, Ha1.
  pose proof (eliminate_peers_le _ _ _ Ha2) as Hle1.
  pose proof (eliminate_items_le _ _ _ H) as Hle2.
  destruct Hin as [->|Hin].
  - rewrite Ha in Ha0; inversion Ha0; subst val.
    rewrite Hps in Ha1; inversion Ha1; subst ps0.
    destruct (@eliminate_peers_removes c p ps st st1 Ha2 Hp) as [w1 [Hw1 Hn1]].
    destruct (state_le_get _ Hle2 Hw1) as [w [Hw [Hincl _]]].
    exists w; split; [exact Hw|]. intros Hc; exact (Hn1 (Hincl _ Hc)).
  - apply (IH _ _ H Hne Hin).
    destruct (state_le_get _ Hle1 Ha) as [v1 [Hv1 Hs1]].
    destruct (sub_of_single Hs1) as [->| ->]; [|exact Hv1].
    exfalso.
    destruct (state_le_get _ Hle2 Hv1) as [v2 [Hv2 Hs2]].
    apply sub_of_nil in Hs2; subst v2.
    exact (no_empty_get _ Hne Hv2 eq_refl).
Qed.

Lemma eliminate_items_only prs (st0 : State) :
  forall items st st',
  (forall i, In i items -> exists c, get st0 i = Some [c]) ->
  state_le st st0 ->
  eliminate_items prs items st = Returned st' ->
  forall p v w x, get st p = Some v -> get st' p = Some w ->
  In x v -> ~ In x w ->
  exists a ps, get st0 a = Some [x] /\ get prs a = Some ps /\ In p ps.
Proof.
  induction items as [|item rest IH]; simpl;
    intros st st' Hit Hle H p v w x Hv Hw Hin Hn.
  - inversion H; subst st'. rewrite Hv in Hw; inversion Hw; subst w.
    contradiction.
  - inv_bind H. inv_bind H. inv_bind H.
    rename a into val, a0 into ps0, a1 into st1.
    apply getitem_Returned in Ha, Ha0.
    pose proof (eliminate_peers_le _ _ _ Ha1) as Hle1.
    destruct (Hit item (or_introl eq_refl)) as [c Hc].
    destruct (state_le_get _ Hle Hc) as [val' [Hval' Hs]].
    rewrite Ha in Hval'; inversion Hval'; subst val'.
    destruct (state_le_get _ Hle1 Hv) as [v1 [Hv1 _]].
    destruct (in_dec ascii_dec x v1) as [Hx|Hx].
    + refine (IH st1 st' _ _ H p v1 w x Hv1 Hw Hx Hn).
      * intros i Hi. apply Hit. right; exact Hi.
      * eapply state_le_trans; eassumption.
    + destruct (sub_of_single Hs) as [->| ->].
      * apply eliminate_peers_nil in Ha1; subst st1.
        rewrite Hv in Hv1; inversion Hv1; subst v1. contradiction.
      * destruct (@eliminate_peers_only c x p ps0 st st1 v v1 Ha1 Hv Hv1 Hin Hx)
          as [-> Hp].
        exists item, ps0. auto.
Qed.

(** X2. What [__eliminate] removes.  When the state it leaves has no empty
    candidate string, every variable that was solved on entry still has
    its value and none of its peers has that value left; and, whatever
    the state it leaves, a symbol that a variable lost is the value of a
    variable that was solved on entry and has it as a peer. *)
Theorem eliminate_removes_exactly prs (st st' : State) :
  NoDup (keys st) ->
  eliminate prs st = Returned st' ->
  (no_empty st' ->
   forall a c ps p, get st a = Some [c] -> get prs a = Some ps -> In p ps ->
     get st' a = Some [c] /\
     exists w, get st' p = Some w /\ ~ In c w) /\
  (forall p v w x, get st p = Some v -> get st' p = Some w ->
     In x v -> ~ In x w ->
     exists a ps, get st a = Some [x] /\ get prs a = Some ps /\ In p ps).
Proof.
  intros Hnd H. unfold eliminate in H. split.
  - intros Hne a c ps p Ha Hps Hp. split.
    + pose proof (eliminate_items_le _ _ _ H) as Hle.
      destruct (state_le_get _ Hle Ha) as [v [Hv Hs]].
      destruct (sub_of_single Hs) as [->| ->]; [|exact Hv].
      exfalso. exact (no_empty_get _ Hne Hv eq_refl).
    + eapply eliminate_items_removes; eauto using In_solved_units.
  - intros p v w x Hv Hw Hin Hn.
    eapply (@eliminate_items_only prs st); eauto using state_le_refl.
    intros i Hi. apply solved_units_get; assumption.
Qed.

Lemma eliminate_removes_exactly_witness :
  (no_empty wa_red_eliminated ->
   forall a c ps p, get wa_red a = Some [c] ->
     get (peers australia_blank) a = Some ps -> In p ps ->
     get wa_red_eliminated a = Some [c] /\
     exists w, get wa_red_eliminated p = Some w /\ ~ In c w) /\
  (forall p v w x, get wa_red p = Some v ->
     get wa_red_eliminated p = Some w ->
     In x v -> ~ In x w ->
     exists a ps, get wa_red a = Some [x] /\
       get (peers australia_blank) a = Some ps /\ In p ps).
Proof.
  apply (@eliminate_removes_exactly (peers australia_blank) wa_red
           wa_red_eliminated).
  - apply nodupb_NoDup. vm_compute; reflexivity.
  - vm_compute; reflexivity.
Defined.

(* ================================================================== *)
(** * What only-choice changes *)

Lemma same_or_chosen_trans dom v2 v1 v :
  same_or_chosen dom v2 v1 -> same_or_chosen dom v1 v ->
  same_or_chosen dom v2 v.
Proof.
  intros [->|[u2 [-> [H2 D2]]]] H1; [exact H1|].
  destruct H1 as [->|[u1 [-> [H1 D1]]]].
  - right; exists u2; auto.
  - destruct H2 as [->|[]]. right; exists u2; auto.
Qed.

Lemma only_choice_vals_effect unit dom : forall vals st st',
  incl vals dom ->
  only_choice_vals unit vals st = Returned st' ->
  forall k v, get st k = Some v ->
  exists v', get st' k = Some v' /\ same_or_chosen dom v' v.
Proof.
  induction vals as [|u vals IH]; simpl; intros st st' Hd H k v Hv.
  - inversion H; subst st'. exists v; split; [exact Hv | left; reflexivity].
  - inv_bind H. inv_bind H. rename a into dp, a0 into st1.
    assert (Hvals : incl vals dom) by (intros y Hy; apply Hd; right; exact Hy).
    assert (Hu : In u dom) by (apply Hd; left; reflexivity).
    assert (H1 : exists v1, get st1 k = Some v1 /\ same_or_chosen dom v1 v).
    { destruct dp as [|item [|? ?]];
        try (inversion Ha0; subst st1; exists v; split;
             [exact Hv | left; reflexivity]).
      destruct (@dplaces_In u st unit [item] item Ha (or_introl eq_refl))
        as [_ [v0 [Hg Hin]]].
      destruct (assign_value_spec _ _ _ Ha0) as [old [_ [Hnew [Hoth _]]]].
      destruct (String.eqb k item) eqn:E.
      - apply String.eqb_eq in E; subst item.
        rewrite Hv in Hg; inversion Hg; subst v0.
        exists [u]; split; [exact Hnew|]. right; exists u; auto.
      - apply String.eqb_neq in E. exists v; split.
        + rewrite (Hoth _ E). exact Hv.
        + left; reflexivity. }
    destruct H1 as [v1 [Hv1 R1]].
    destruct (IH _ _ Hvals H k v1 Hv1) as [v' [Hv' R']].
    exists v'; split; [exact Hv'|].
    eapply same_or_chosen_trans; eassumption.
Qed.

Lemma only_choice_units_effect dom : forall units st st',
  only_choice_units units dom st = Returned st' ->
  forall k v, get st k = Some v ->
  exists v', get st' k = Some v' /\ same_or_chosen dom v' v.
Proof.
  induction units as [|unit units IH]; simpl; intros st st' H k v Hv.
  - inversion H; subst st'. exists v; split; [exact Hv | left; reflexivity].
  - inv_bind H. rename a into st1.
    destruct (@only_choice_vals_effect unit dom dom st st1
                (fun y Hy => Hy) Ha k v Hv) as [v1 [Hv1 R1]].
    destruct (IH _ _ H k v1 Hv1) as [v' [Hv' R']].
    exists v'; split; [exact Hv'|].
    eapply same_or_chosen_trans; eassumption.
Qed.

(** X3. What [__only_choice] changes.  The candidates of a variable after
    the rule are the candidates it had, or one symbol of them (a symbol of
    the alphabet); so a variable with at most one candidate is left as it
    was, and the rule empties nothing. *)
Theorem only_choice_picks_a_candidate units dom st st' :
  only_choice units dom st = Returned st' ->
  forall k v, get st k = Some v ->
  exists v', get st' k = Some v' /\
    (v' = v \/ exists u, v' = [u] /\ In u v /\ In u dom) /\
    (length v <= 1 -> v' = v) /\
    (v <> [] -> v' <> []).
Proof.
  intros H k v Hv.
  destruct (only_choice_units_effect _ _ _ H k Hv) as [v' [Hv' R]].
  exists v'; split; [exact Hv'|]. split; [exact R|]. split.
  - intros Hl. destruct R as [->|[u [-> [Hin _]]]]; [reflexivity|].
    destruct v as [|c [|? ?]]; simpl in Hl; try lia; [contradiction|].
    destruct Hin as [->|[]]; reflexivity.
  - intros Hne. destruct R as [->|[u [-> _]]]; [exact Hne | discriminate].
Qed.

Lemma only_choice_picks_a_candidate_witness :
  exists v', get wa_red_chosen "QL" = Some v' /\
    (v' = chars "RBG" \/
     exists u, v' = [u] /\ In u (chars "RBG") /\ In u Australia.D_map) /\
    (length (chars "RBG") <= 1 -> v' = chars "RBG") /\
    (chars "RBG" <> [] -> v' <> []).
Proof.
  apply (@only_choice_picks_a_candidate Australia.C_map Australia.D_map
           wa_red_eliminated wa_red_chosen).
  - vm_compute; reflexivity.
  - reflexivity.
Defined.

(* ================================================================== *)
(** * Propagation on a state with every variable solved *)

Lemma fully_solved_get st k v :
  fully_solved st -> get st k = Some v -> exists c, v = [c].
Proof.
  intros Hf Hg. apply get_In in Hg.
  unfold fully_solved in Hf. rewrite Forall_forall in Hf.
  specialize (Hf _ Hg); simpl in Hf.
  destruct v as [|c [|? ?]]; try discriminate. exists c; reflexivity.
Qed.

Lemma assign_value_same (st : State) k (v : cand) :
  get st k = Some v -> assign_value st k v = Returned st.
Proof.
  intros H. unfold assign_value, getitem. rewrite H; simpl.
  rewrite cand_eqb_refl. reflexivity.
Qed.

Lemma eliminate_peers_id c : forall ps (st : State),
  (forall p, In p ps -> exists v, get st p = Some v /\ ~ In c v) ->
  eliminate_peers [c] ps st = Returned st.
Proof.
  induction ps as [|p ps IH]; simpl; intros st Hps; [reflexivity|].
  destruct (Hps p (or_introl eq_refl)) as [v [Hv Hn]].
  unfold getitem at 1. rewrite Hv; simpl.
  rewrite (@replace_single_absent c v Hn), (@assign_value_same st p v Hv); simpl.
  apply IH. intros q Hq. apply Hps. right; exact Hq.
Qed.

Lemma eliminate_items_id prs (st : State) : forall items,
  (forall i, In i items ->
     exists c ps, get st i = Some [c] /\ get prs i = Some ps /\
       forall p, In p ps -> exists v, get st p = Some v /\ ~ In c v) ->
  eliminate_items prs items st = Returned st.
Proof.
  induction items as [|i items IH]; simpl; intros Hit; [reflexivity|].
  destruct (Hit i (or_introl eq_refl)) as [c [ps [Hc [Hps Hp]]]].
  unfold getitem. rewrite Hc, Hps; simpl.
  rewrite (@eliminate_peers_id c ps st Hp); simpl.
  apply IH. intros j Hj. apply Hit. right; exact Hj.
Qed.

Lemma only_choice_vals_id unit (st : State) :
  fully_solved st -> forall vals, returns (only_choice_vals unit vals st) ->
  only_choice_vals unit vals st = Returned st.
Proof.
  intros Hf. induction vals as [|u vals IH]; simpl; intros Hr; [reflexivity|].
  destruct (dplaces u unit st) as [dp| |] eqn:Hd; simpl in *;
    try (destruct Hr as [x Hx]; discriminate Hx).
  assert (H1 : match dp with
               | [item] => assign_value st item [u]
               | _ => Returned st
               end = Returned st).
  { destruct dp as [|item [|? ?]]; try reflexivity.
    destruct (@dplaces_In u st unit [item] item Hd (or_introl eq_refl))
      as [_ [v [Hg Hin]]].
    destruct (@fully_solved_get st item v Hf Hg) as [c ->].
    destruct Hin as [->|[]]. apply assign_value_same. exact Hg. }
  rewrite H1 in *; simpl in *. apply IH. exact Hr.
Qed.

Lemma only_choice_units_id dom (st : State) :
  fully_solved st -> forall units,
  (forall g, In g units -> incl g (keys st)) ->
  only_choice_units units dom st = Returned st.
Proof.
  intros Hf. induction units as [|unit units IH]; simpl; intros Hg;
    [reflexivity|].
  rewrite (@only_choice_vals_id unit st Hf dom).
  - simpl. apply IH. intros g Hin. apply Hg. right; exact Hin.
  - assert (Hr : returns (only_choice [unit] dom st)).
    { apply (@returns_only_choice [unit] dom (keys st) st).
      - intros g [<-|[]]. apply Hg. left; reflexivity.
      - reflexivity. }
    unfold only_choice in Hr; simpl in Hr.
    destruct (only_choice_vals unit dom st) as [s1| |]; simpl in Hr;
      destruct Hr as [x Hx]; try discriminate Hx.
    exists s1; reflexivity.
Qed.

Lemma pair_values_none (st : State) :
  fully_solved st -> forall unit, incl unit (keys st) ->
  Sudoku.pair_values unit st = Returned [].
Proof.
  intros Hf. induction unit as [|b unit IH]; simpl; intros Hk; [reflexivity|].
  assert (Hb : In b (keys st)) by (apply Hk; left; reflexivity).
  apply get_keys in Hb. destruct Hb as [v Hv].
  unfold getitem at 1. rewrite Hv; simpl.
  rewrite IH by (intros y Hy; apply Hk; right; exact Hy). simpl.
  destruct (@fully_solved_get st b v Hf Hv) as [c ->]. reflexivity.
Qed.

Lemma naked_twins_units_id (st : State) :
  fully_solved st -> forall units,
  (forall g, In g units -> incl g (keys st)) ->
  Sudoku.naked_twins_units units st = Returned st.
Proof.
  intros Hf. induction units as [|unit units IH]; simpl; intros Hg;
    [reflexivity|].
  rewrite (@pair_values_none st Hf unit) by (apply Hg; left; reflexivity).
  simpl. apply IH. intros g Hin. apply Hg. right; exact Hin.
Qed.

Lemma repository_pass_solved self :
  repository_rules self -> well_formed self ->
  fully_solved (internal_state self) ->
  (forall a ps b ca cb, get (peers self) a = Some ps -> In b ps ->
     get (internal_state self) a = Some [ca] ->
     get (internal_state self) b = Some [cb] -> ca <> cb) ->
  pass (reduce_funcs self) (internal_state self) (internal_state self).
Proof.
  intros Hr [_ [Hp Hg]] Hf Hd. unfold pass.
  assert (He : eliminate (peers self) (internal_state self)
               = Returned (internal_state self)).
  { unfold eliminate. apply eliminate_items_id. intros i Hi.
    pose proof (@solved_units_keys (internal_state self) i Hi) as Hk.
    destruct (Hp i Hk) as [ps [Hps Hincl]].
    destruct (proj1 (get_keys _ _) Hk) as [v Hv].
    destruct (@fully_solved_get _ i v Hf Hv) as [c ->].
    exists c, ps. split; [exact Hv|]. split; [exact Hps|].
    intros p Hin.
    destruct (proj1 (get_keys _ _) (Hincl _ Hin)) as [w Hw].
    destruct (@fully_solved_get _ p w Hf Hw) as [cb ->].
    exists [cb]; split; [exact Hw|].
    intros [E|[]]. exact (Hd i ps p c cb Hps Hin Hv Hw (eq_sym E)). }
  assert (Ho : only_choice (C self) (D self) (internal_state self)
               = Returned (internal_state self)).
  { unfold only_choice. apply only_choice_units_id; assumption. }
  destruct Hr as [-> | ->]; unfold sudoku_rules, base_rules; simpl;
    rewrite He; simpl; rewrite Ho; simpl; [reflexivity|].
  unfold Sudoku.naked_twins. rewrite naked_twins_units_id by assumption.
  reflexivity.
Qed.

(** X4. Propagation on a state in which every variable is solved.  When
    no variable holds the symbol of one of its peers, [__reduce] returns
    the state as it is, after one pass; when some variable does, it
    returns [False]. *)
Theorem reduce_on_solved_state self fuel :
  repository_rules self -> well_formed self ->
  fully_solved (internal_state self) ->
  (~ peer_clash (peers self) (internal_state self) ->
   reduce_loop (reduce_funcs self) (S fuel) (internal_state self)
   = Returned (internal_state self, true)) /\
  (peer_clash (peers self) (internal_state self) ->
   exists st', reduce_loop (reduce_funcs self) (S fuel) (internal_state self)
               = Returned (st', false)).
Proof.
  intros Hr Hwf Hf. split.
  - intros Hn.
    assert (Hp : pass (reduce_funcs self) (internal_state self)
                   (internal_state self)).
    { apply repository_pass_solved; try assumption.
      intros a ps b ca cb Hps Hin Ha Hb E. subst cb.
      apply Hn. exists a, ps, b, ca. auto. }
    unfold pass in Hp. simpl. rewrite Hp; simpl.
    assert (Hne : unsolvable_units (internal_state self) = false).
    { apply unsolvable_units_false. unfold no_empty.
      unfold fully_solved in Hf. rewrite Forall_forall in Hf |- *.
      intros kv Hin E. specialize (Hf _ Hin). rewrite E in Hf.
      discriminate Hf. }
    rewrite Hne, Nat.eqb_refl. reflexivity.
  - intros [a [ps [b [c [Hps [Hin [Ha Hb]]]]]]].
    destruct (repository_rules_head Hr) as [rest [Hfs Hsh]].
    assert (Hret : returns (apply_rules (reduce_funcs self)
                              (internal_state self))).
    { apply (@returns_apply_rules (keys (internal_state self))).
      - apply repository_rules_shrinking; exact Hr.
      - apply repository_rules_defined; assumption.
      - reflexivity. }
    destruct Hret as [st1 H1]. exists st1. simpl. rewrite H1; simpl.
    destruct (unsolvable_units st1) eqn:E; [reflexivity|].
    exfalso. apply unsolvable_units_false in E.
    rewrite Hfs in H1.
    exact (@pass_no_clash (peers self) rest (internal_state self) st1
             a b ps c c Hsh H1 E Hps Hin Ha Hb eq_refl).
Qed.

Lemma reduce_on_solved_state_witness :
  (~ peer_clash (peers australia_coloured)
       (internal_state australia_coloured) ->
   reduce_loop (reduce_funcs australia_coloured) 1
     (internal_state australia_coloured)
   = Returned (internal_state australia_coloured, true)) /\
  (peer_clash (peers australia_coloured)
     (internal_state australia_coloured) ->
   exists st', reduce_loop (reduce_funcs australia_coloured) 1
                 (internal_state australia_coloured)
               = Returned (st', false)).
Proof.
  apply (@reduce_on_solved_state australia_coloured 0).
  - left; reflexivity.
  - apply well_formedb_wf. vm_compute; reflexivity.
  - repeat constructor.
Defined.

(** X5. Propagation that succeeds keeps what was solved.  When [__reduce]
    returns the state, the keys are those it was given, no candidate
    string is empty, every variable that was solved has the value it had,
    and the count of solved variables has not gone down. *)
Theorem feasible_reduce_keeps_solved self fuel st st' :
  repository_rules self ->
  reduce_loop (reduce_funcs self) fuel st = Returned (st', true) ->
  keys st' = keys st /\ no_empty st' /\
  (forall k c, get st k = Some [c] -> get st' k = Some [c]) /\
  solved_units_count st <= solved_units_count st'.
Proof.
  intros Hr H.
  pose proof (repository_rules_shrinking Hr) as Hsh.
  pose proof (reduce_loop_le Hsh _ _ H) as Hle.
  destruct (reduce_loop_final Hsh _ _ H) as [st0 [_ [_ [_ Hne]]]].
  split; [apply state_le_keys; exact Hle|]. split; [exact Hne|]. split.
  - intros k c Hk.
    destruct (state_le_get _ Hle Hk) as [v [Hv Hs]].
    destruct (sub_of_single Hs) as [->| ->]; [|exact Hv].
    exfalso. exact (no_empty_get _ Hne Hv eq_refl).
  - apply solved_count_mono; assumption.
Qed.

Lemma feasible_reduce_keeps_solved_witness :
  keys wa_red_reduced = keys wa_red /\ no_empty wa_red_reduced /\
  (forall k c, get wa_red k = Some [c] -> get wa_red_reduced k = Some [c]) /\
  solved_units_count wa_red <= solved_units_count wa_red_reduced.
Proof.
  apply (@feasible_reduce_keeps_solved australia_blank 3 wa_red
           wa_red_reduced).
  - left; reflexivity.
  - vm_compute; reflexivity.
Defined.

(* ================================================================== *)
(** * The two counters *)

Lemma tried_counted rec st s :
  (forall new cnt st1 r cnt', rec new cnt = Returned (st1, r, cnt') ->
     counted 1 cnt cnt') ->
  forall vals cnt r cnt', tried rec st s vals cnt r cnt' ->
  counted (match vals with [] => 0 | _ :: _ => 1 end) cnt cnt'.
Proof.
  intros Hrec vals cnt r cnt' H.
  induction H as [cnt | val vals cnt new st1 attempt cnt1 _ Hr _
                 | val vals cnt new st1 attempt cnt1 r cnt' _ Hr _ _ IH].
  - unfold counted; simpl; lia.
  - exact (Hrec _ _ _ _ _ Hr).
  - destruct (Hrec _ _ _ _ _ Hr) as [H1 H2].
    destruct IH as [H3 H4]. unfold counted.
    destruct vals; simpl in *; lia.
Qed.

Lemma search_counted funcs xs : forall fuel st cnt st' r cnt',
  search funcs xs fuel st cnt = Returned (st', r, cnt') ->
  counted 1 cnt cnt' /\
  (searches cnt' = searches cnt -> reduces cnt' = reduces cnt + 1).
Proof.
  induction fuel as [|fuel IH]; intros st cnt st' r cnt' H;
    [discriminate H|].
  apply search_unfold in H.
  inversion H as [state1 Hred | state1 Hred Hall
                 | state1 pairs n s vals r0 cnt0 Hred Hall Hpairs Hmin Hget Htr];
    subst.
  - unfold counted; simpl; split; [lia | intros _; reflexivity].
  - unfold counted; simpl; split; [lia | intros _; reflexivity].
  - assert (Hv : 1 < length vals).
    { apply py_min_In in Hmin.
      destruct (proj1 (unsolved_pairs_In _ _ n s Hpairs) Hmin)
        as [_ [v [Hv [Hn1 Hn2]]]].
      rewrite Hget in Hv; inversion Hv; subst v. lia. }
    assert (Hc := @tried_counted (search funcs xs fuel) _ _
                    (fun new c st1 r1 c1 Hs => proj1 (IH new c st1 r1 c1 Hs))
                    _ _ _ _ Htr).
    destruct vals as [|v0 vals]; [simpl in Hv; lia|].
    destruct Hc as [H1 H2]; unfold counted; simpl in *. split; [lia|].
    intros E. lia.
Qed.

(** X6. The two counters after [solve].  [__reduce] has been called more
    often than [__search] has branched, and exactly once when there was
    no branching. *)
Theorem solve_counts_reductions_above_branchings self fuel self' b :
  solve fuel self = Returned (self', b) ->
  search_count self' + 1 <= reduce_count self' /\
  (search_count self' = 0 -> reduce_count self' = 1).
Proof.
  unfold solve; intros H. inv_bind H.
  destruct a as [[state1 attempt] cnt].
  destruct (search_counted _ _ _ _ _ Ha) as [[H1 H2] H3]; simpl in *.
  assert (E : reduce_count self' = reduces cnt /\
              search_count self' = searches cnt).
  { inversion H; subst.
    destruct attempt as [| |d]; simpl; auto.
    destruct (negb (is_empty d)); simpl; auto. }
  destruct E as [-> ->]. split; [lia|]. intros E. rewrite E in *.
  rewrite H3; [reflexivity | lia].
Qed.

Lemma solve_counts_reductions_above_branchings_witness :
  search_count australia_coloured + 1 <= reduce_count australia_coloured /\
  (search_count australia_coloured = 0 ->
   reduce_count australia_coloured = 1).
Proof.
  apply (@solve_counts_reductions_above_branchings australia_blank 10
           australia_coloured true).
  vm_compute; reflexivity.
Defined.

(* ================================================================== *)
(** * What [solve] leaves of the solver *)

Lemma search_le funcs xs : Forall shrinking funcs ->
  forall fuel st cnt st' r cnt',
  search funcs xs fuel st cnt = Returned (st', r, cnt') -> state_le st' st.
Proof.
  intros Hsh fuel st cnt st' r cnt' H.
  destruct fuel as [|fuel]; [discriminate H|].
  apply search_unfold in H.
  inversion H as [state1 Hred | state1 Hred Hall
                 | state1 pairs n s vals r0 cnt0 Hred Hall Hpairs Hmin Hget Htr];
    subst; eapply reduce_loop_le; eassumption.
Qed.

(** X7. [solve] changes the state, the flag and the two counters, and
    nothing else: the variables, the alphabet, the groups, the peers and
    the rules are those of the solver it was called on.  The value it
    returns is the flag, and the state it leaves, after a success as after
    a failure, has the keys of the initial state in the same order, each
    with candidates among those it had. *)
Theorem solve_keeps_the_problem self fuel self' b :
  repository_rules self ->
  solve fuel self = Returned (self', b) ->
  X self' = X self /\ D self' = D self /\ C self' = C self /\
  peers self' = peers self /\ reduce_funcs self' = reduce_funcs self /\
  b = solved self' /\
  keys (internal_state self') = keys (internal_state self) /\
  (forall x v, get (internal_state self) x = Some v ->
     exists v', get (internal_state self') x = Some v' /\
                incl v' v /\ length v' <= length v).
Proof.
  intros Hr H. pose proof (repository_rules_shrinking Hr) as Hsh.
  unfold solve in H. inv_bind H. destruct a as [[state1 attempt] cnt].
  assert (Hle : state_le (internal_state self') (internal_state self)).
  { pose proof (@search_le _ _ Hsh _ _ _ _ _ _ Ha) as Hle1.
    inversion H; subst. destruct attempt as [| |d]; simpl; auto.
    destruct (is_empty d) eqn:E; simpl; auto.
    destruct (@search_success _ _ Hsh _ _ _ _ _ _ Ha) as [_ [Hd _]]. exact Hd. }
  assert (Hf : X self' = X self /\ D self' = D self /\ C self' = C self /\
               peers self' = peers self /\
               reduce_funcs self' = reduce_funcs self /\ b = solved self').
  { inversion H; subst. destruct attempt as [| |d]; simpl; auto 10.
    destruct (is_empty d); simpl; auto 10. }
  destruct Hf as [H1 [H2 [H3 [H4 [H5 H6]]]]].
  repeat (split; [assumption|]). split; [apply state_le_keys; exact Hle|].
  intros x v Hx. destruct (state_le_get _ Hle Hx) as [v' [Hv' [Hi Hl]]].
  exists v'; auto.
Qed.

Lemma solve_keeps_the_problem_witness :
  X australia_coloured = X australia_blank /\
  D australia_coloured = D australia_blank /\
  C australia_coloured = C australia_blank /\
  peers australia_coloured = peers australia_blank /\
  reduce_funcs australia_coloured = reduce_funcs australia_blank /\
  true = solved australia_coloured /\
  keys (internal_state australia_coloured)
  = keys (internal_state australia_blank) /\
  (forall x v, get (internal_state australia_blank) x = Some v ->
     exists v', get (internal_state australia_coloured) x = Some v' /\
                incl v' v /\ length v' <= length v).
Proof.
  apply (@solve_keeps_the_problem australia_blank 10 australia_coloured true).
  - left; reflexivity.
  - vm_compute; reflexivity.
Defined.

(** X8. The flag is never cleared.  On a solver whose flag is set, [solve]
    returns [True] whatever the search finds; on the map with two
    neighbours both red and the flag set, it returns [True] and leaves a
    state with an empty candidate string. *)
Theorem solved_flag_is_never_cleared :
  (forall self fuel self' b,
     solved self = true -> solve fuel self = Returned (self', b) ->
     b = true /\ solved self' = true) /\
  (exists self',
     solve 10 australia_clash_marked = Returned (self', true) /\
     unsolvable_units (internal_state self') = true /\
     ~ solvable australia_clash_marked).
Proof.
  split.
  - intros self fuel self' b Hs H. unfold solve in H. inv_bind H.
    destruct a as [[state1 attempt] cnt]. inversion H; subst.
    destruct attempt as [| |d]; simpl; auto.
    destruct (is_empty d); simpl; auto.
  - eexists. split; [vm_compute; reflexivity|].
    split; [vm_compute; reflexivity|].
    exact australia_clash_unsolvable.
Qed.

(** X9. The problem with no variable.  With an empty state, no variable
    and no group, the search returns the empty dictionary, which [solve]
    takes for a failure: it returns [False] after one reduction. *)
Theorem solve_of_the_empty_problem self fuel :
  repository_rules self ->
  internal_state self = [] -> X self = [] -> C self = [] ->
  solved self = false ->
  solve (S fuel) self =
  Returned (mkSolver [] [] (D self) [] (peers self) false
              (reduce_funcs self) 1 0, false).
Proof.
  intros Hr Hs Hx Hc Hf. unfold solve. rewrite Hs, Hx, Hf.
  assert (E : search (reduce_funcs self) [] (S fuel) [] (mkCounts 0 0)
              = Returned ([], PyDict [], mkCounts 1 0)).
  { destruct Hr as [-> | ->]; unfold sudoku_rules, base_rules;
      rewrite Hc; reflexivity. }
  rewrite E; simpl. rewrite Hc. reflexivity.
Qed.

Lemma solve_of_the_empty_problem_witness :
  solve 1 (ConstraintSolver_init [] [] (chars "RBG") [] []) =
  Returned (mkSolver [] [] (chars "RBG") [] [] false
              [eliminate []; only_choice [] (chars "RBG")] 1 0, false).
Proof.
  apply (@solve_of_the_empty_problem
           (ConstraintSolver_init [] [] (chars "RBG") [] []) 0);
    try reflexivity.
  left; reflexivity.
Defined.

(* ================================================================== *)
(** * A variable that is not a key *)

Lemma get_not_key V (d : dict V) k : ~ In k (keys d) -> get d k = None.
Proof.
  intros Hn. destruct (get d k) as [v|] eqn:E; [|reflexivity].
  exfalso. apply Hn. apply get_keys. exists v; exact E.
Qed.

Lemma get_key V (d : dict V) k : In k (keys d) -> exists v, get d k = Some v.
Proof. intros H. apply get_keys. exact H. Qed.

Lemma all_solved_missing (st : State) x post : forall pre,
  incl pre (keys st) -> ~ In x (keys st) ->
  all_solved st (pre ++ x :: post) = Returned false \/
  all_solved st (pre ++ x :: post) = Raised (KeyError x).
Proof.
  induction pre as [|y pre IH]; simpl; intros Hin Hn.
  - right. unfold getitem. rewrite (get_not_key _ _ Hn). reflexivity.
  - destruct (get_key st y (Hin y (or_introl eq_refl))) as [v Hv].
    unfold getitem. rewrite Hv; simpl.
    destruct (length v =? 1); [|left; reflexivity].
    apply IH; [|exact Hn]. intros z Hz. apply Hin. right; exact Hz.
Qed.

Lemma unsolved_pairs_missing (st : State) x post : forall pre,
  incl pre (keys st) -> ~ In x (keys st) ->
  unsolved_pairs st (pre ++ x :: post) = Raised (KeyError x).
Proof.
  induction pre as [|y pre IH]; simpl; intros Hin Hn.
  - unfold getitem. rewrite (get_not_key _ _ Hn). reflexivity.
  - destruct (get_key st y (Hin y (or_introl eq_refl))) as [v Hv].
    unfold getitem at 1. rewrite Hv; simpl.
    rewrite IH; [reflexivity| |exact Hn].
    intros z Hz. apply Hin. right; exact Hz.
Qed.

(** X10. A variable of [X] that is not a key of the state.  When the
    propagation is feasible, [solve] raises [KeyError] for the first such
    variable of [X]: from [all] when the variables before it are solved,
    from [min] otherwise. *)
Theorem solve_unknown_variable self fuel st1 pre x post :
  repository_rules self ->
  reduce_loop (reduce_funcs self) (S fuel) (internal_state self)
  = Returned (st1, true) ->
  X self = pre ++ x :: post ->
  incl pre (keys (internal_state self)) ->
  ~ In x (keys (internal_state self)) ->
  solve (S fuel) self = Raised (KeyError x).
Proof.
  intros Hr Hred HX Hpre Hx.
  pose proof (repository_rules_shrinking Hr) as Hsh.
  pose proof (state_le_keys (reduce_loop_le Hsh _ _ Hred)) as Hk.
  rewrite <- Hk in Hpre, Hx.
  unfold solve. cbn [search]. unfold reduce. rewrite Hred. cbn [bind negb].
  rewrite HX.
  destruct (@all_solved_missing st1 x post pre Hpre Hx) as [E|E]; rewrite E;
    cbn [bind]; [|reflexivity].
  rewrite (@unsolved_pairs_missing st1 x post pre Hpre Hx). reflexivity.
Qed.

Lemma solve_unknown_variable_witness :
  solve 1 unknown_variable_problem = Raised (KeyError "Z").
Proof.
  apply (@solve_unknown_variable unknown_variable_problem 0
           (internal_state unknown_variable_problem) ["A"%string] "Z" []).
  - left; reflexivity.
  - vm_compute; reflexivity.
  - reflexivity.
  - intros x [<-|[]]. left; reflexivity.
  - intros [H|[H|[]]]; discriminate H.
Defined.

(* ================================================================== *)
(** * A group with a variable that is not a key *)

Lemma dplaces_missing u (st : State) x post : forall pre,
  incl pre (keys st) -> ~ In x (keys st) ->
  dplaces u (pre ++ x :: post) st = Raised (KeyError x).
Proof.
  induction pre as [|y pre IH]; simpl; intros Hin Hn.
  - unfold getitem. rewrite (get_not_key _ _ Hn). reflexivity.
  - destruct (get_key st y (Hin y (or_introl eq_refl))) as [v Hv].
    unfold getitem at 1. rewrite Hv; simpl.
    rewrite IH; [reflexivity| |exact Hn].
    intros z Hz. apply Hin. right; exact Hz.
Qed.

Lemma only_choice_units_missing dom bad rest x K :
  dom <> [] ->
  (forall st, keys st = K ->
     forall u, dplaces u bad st = Raised (KeyError x)) ->
  forall good st, keys st = K ->
  (forall g, In g good -> incl g K) ->
  only_choice_units (good ++ bad :: rest) dom st = Raised (KeyError x).
Proof.
  intros Hd Hbad. induction good as [|g good IH]; intros st Hk Hg.
  - cbn [app only_choice_units].
    destruct dom as [|u dom]; [contradiction|].
    cbn [only_choice_vals]. rewrite (Hbad st Hk u). reflexivity.
  - cbn [app only_choice_units].
    assert (Hr : returns (only_choice [g] dom st)).
    { apply (@returns_only_choice [g] dom K st); [|exact Hk].
      intros g' [<-|[]]. apply Hg. left; reflexivity. }
    unfold only_choice in Hr; cbn [only_choice_units] in Hr.
    destruct (only_choice_vals g dom st) as [s1| |] eqn:E; cbn [bind] in *;
      destruct Hr as [y Hy]; try discriminate Hy.
    apply IH.
    + rewrite <- Hk. apply state_le_keys.
      eapply only_choice_vals_le; exact E.
    + intros g' Hin. apply Hg. right; exact Hin.
Qed.

(** X11. A group with a variable that is not a key of the state.  With
    peers that are keys and an alphabet that is not empty, the first pass
    of only-choice reads the candidates of that variable, and [solve]
    raises [KeyError] for it. *)
Theorem solve_unknown_group_member self fuel good pre x post rest :
  repository_rules self ->
  (forall k, In k (keys (internal_state self)) ->
     exists ps, get (peers self) k = Some ps /\
                incl ps (keys (internal_state self))) ->
  D self <> [] ->
  C self = good ++ (pre ++ x :: post) :: rest ->
  (forall g, In g good -> incl g (keys (internal_state self))) ->
  incl pre (keys (internal_state self)) ->
  ~ In x (keys (internal_state self)) ->
  solve (S fuel) self = Raised (KeyError x).
Proof.
  intros Hr Hp Hd HC Hgood Hpre Hx.
  assert (He : returns (eliminate (peers self) (internal_state self))).
  { eapply returns_eliminate; [exact Hp | reflexivity]. }
  destruct He as [s1 Hs1].
  assert (Hk : keys s1 = keys (internal_state self)).
  { apply state_le_keys. eapply eliminate_shrinking; exact Hs1. }
  assert (Ho : only_choice (C self) (D self) s1 = Raised (KeyError x)).
  { unfold only_choice. rewrite HC.
    apply (@only_choice_units_missing (D self) (pre ++ x :: post) rest x
             (keys (internal_state self))); auto.
    intros st Hst u. apply dplaces_missing; rewrite Hst; assumption. }
  assert (Ha : apply_rules (reduce_funcs self) (internal_state self)
               = Raised (KeyError x)).
  { destruct Hr as [-> | ->]; unfold sudoku_rules, base_rules;
      cbn [app apply_rules]; rewrite Hs1; cbn [bind]; rewrite Ho;
      reflexivity. }
  unfold solve. cbn [search]. unfold reduce. cbn [reduce_loop].
  rewrite Ha. reflexivity.
Qed.

Lemma solve_unknown_group_member_witness :
  solve 1 unknown_member_problem = Raised (KeyError "Z").
Proof.
  apply (@solve_unknown_group_member unknown_member_problem 0
           [["A"; "B"]]%string ["A"%string] "Z" [] []).
  - left; reflexivity.
  - intros k [<-|[<-|[]]]; eexists; (split; [vm_compute; reflexivity|]);
      intros x [<-|[]]; simpl; auto.
  - discriminate.
  - reflexivity.
  - intros g [<-|[]] x [<-|[<-|[]]]; simpl; auto.
  - intros x [<-|[]]. left; reflexivity.
  - intros [H|[H|[]]]; discriminate H.
Defined.

(* ================================================================== *)
(** * The peers both adapters derive *)

Lemma NoDup_dedup : forall l, NoDup (dedup l).
Proof.
  induction l as [|x l IH]; simpl; constructor.
  - intros H. apply filter_In in H. destruct H as [_ H].
    rewrite String.eqb_refl in H. discriminate H.
  - apply NoDup_filter. exact IH.
Qed.

(** X12. The peers the two adapters derive from their groups.  Every
    variable of the list has its entry and no other key has one; the
    peers of a variable are listed once each, the variable is not among
    them, they are the other variables of its groups, and being a peer
    goes both ways. *)
Theorem derived_peers_are_the_group_mates units xs a :
  get (make_peers units xs) a =
    (if mem_str a xs then Some (peers_of units a) else None) /\
  NoDup (peers_of units a) /\
  ~ In a (peers_of units a) /\
  (forall b, In b (peers_of units a) <->
     a <> b /\ exists g, In g units /\ In a g /\ In b g) /\
  (forall b, In b (peers_of units a) <-> In a (peers_of units b)).
Proof.
  split; [|split; [|split; [|split]]].
  - unfold make_peers. rewrite get_dict_of. reflexivity.
  - unfold peers_of. apply NoDup_filter. apply NoDup_dedup.
  - intros H. apply In_peers_of in H. destruct H as [H _]. apply H.
    reflexivity.
  - intros b. apply In_peers_of.
  - intros b. rewrite !In_peers_of. split.
    + intros [Hn [g [Hg [Ha Hb]]]]. split; [congruence|]. exists g; auto.
    + intros [Hn [g [Hg [Hb Ha]]]]. split; [congruence|]. exists g; auto.
Qed.

(* ================================================================== *)
(** * The boxes of the grid *)

Lemma cross_cons s A B :
  Sudoku.cross (s :: A) B =
  map (fun t => String s (String t EmptyString)) B ++ Sudoku.cross A B.
Proof. reflexivity. Qed.

Lemma In_cross A B k :
  In k (Sudoku.cross A B) <->
  exists s t, In s A /\ In t B /\ k = String s (String t EmptyString).
Proof.
  unfold Sudoku.cross. rewrite in_flat_map. split.
  - intros [s [Hs Hk]]. apply in_map_iff in Hk. destruct Hk as [t [<- Ht]].
    exists s, t; auto.
  - intros [s [t [Hs [Ht ->]]]]. exists s; split; [exact Hs|].
    apply in_map_iff. exists t; auto.
Qed.

Lemma length_cross A B :
  length (Sudoku.cross A B) = length A * length B.
Proof.
  induction A as [|s A IH]; [reflexivity|].
  rewrite cross_cons, length_app, length_map, IH. simpl; lia.
Qed.

Lemma NoDup_cross A B : NoDup A -> NoDup B -> NoDup (Sudoku.cross A B).
Proof.
  intros HA HB. induction HA as [|s A Hs HA IH]; [constructor|].
  rewrite cross_cons. apply NoDup_app.
  - clear IH. induction HB as [|t B Ht HB IHB]; simpl; constructor.
    + intros H. apply in_map_iff in H. destruct H as [t' [E Ht']].
      inversion E; subst. contradiction.
    + exact IHB.
  - exact IH.
  - intros k H1 H2. apply in_map_iff in H1. destruct H1 as [t [<- Ht]].
    apply In_cross in H2. destruct H2 as [s' [t' [Hs' [_ E]]]].
    inversion E; subst. contradiction.
Qed.

(** X13. [__cross] lists the two-character names [s+t], for [s] in [A] and
    [t] in [B]: as many as the product of the two lengths, and each once
    when [A] and [B] have no repeated character. *)
Theorem cross_is_the_product A B :
  length (Sudoku.cross A B) = length A * length B /\
  (forall k, In k (Sudoku.cross A B) <->
     exists s t, In s A /\ In t B /\ k = String s (String t EmptyString)) /\
  (NoDup A -> NoDup B -> NoDup (Sudoku.cross A B)).
Proof.
  split; [apply length_cross|]. split; [intros k; apply In_cross|].
  apply NoDup_cross.
Qed.

(* ================================================================== *)
(** * The two diagonals *)

Lemma nth_error_combine A B : forall (l : list A) (l' : list B) i a b,
  nth_error l i = Some a -> nth_error l' i = Some b ->
  nth_error (combine l l') i = Some (a, b).
Proof.
  induction l as [|x l IH]; intros l' i a b Ha Hb.
  - destruct i; discriminate Ha.
  - destruct l' as [|y l']; [destruct i; discriminate Hb|].
    destruct i as [|i]; simpl in *.
    + inversion Ha; inversion Hb; reflexivity.
    + apply IH; assumption.
Qed.

(** X14. [__diagonal] returns two units, each as long as the shorter of
    the rows and the columns.  The box at place [i] of the first is row
    [i] with column [i]; the box at place [i] of the second is row [i]
    with the column [i] places from the last. *)
Theorem diagonal_pairs_rows_with_columns rs cs :
  exists diag1 diag2,
    Sudoku.diagonal rs cs = [diag1; diag2] /\
    length diag1 = Nat.min (length rs) (length cs) /\
    length diag2 = Nat.min (length rs) (length cs) /\
    (forall i r c, nth_error rs i = Some r -> nth_error cs i = Some c ->
       nth_error diag1 i = Some (String r (String c EmptyString))) /\
    (forall i r c, nth_error rs i = Some r -> i < length cs ->
       nth_error cs (length cs - S i) = Some c ->
       nth_error diag2 i = Some (String r (String c EmptyString))).
Proof.
  unfold Sudoku.diagonal. eexists; eexists. split; [reflexivity|].
  split; [rewrite length_map, length_combine; reflexivity|].
  split; [rewrite length_map, length_combine, length_rev; reflexivity|].
  split.
  - intros i r c Hr Hc.
    rewrite nth_error_map, (nth_error_combine _ _ _ Hr Hc). reflexivity.
  - intros i r c Hr Hi Hc.
    assert (Hrev : nth_error (rev cs) i = Some c).
    { rewrite nth_error_rev. apply Nat.ltb_lt in Hi. rewrite Hi. exact Hc. }
    rewrite nth_error_map, (nth_error_combine _ _ _ Hr Hrev). reflexivity.
Qed.

(* ================================================================== *)
(** * The grid and the two dictionaries read from it *)

Lemma board_grid_chars_true : forall grid,
  Board.grid_chars grid true = Sudoku.grid_chars grid.
Proof.
  induction grid as [|c grid IH];
    cbn [Board.grid_chars Sudoku.grid_chars]; [reflexivity|].
  rewrite IH. reflexivity.
Qed.

Lemma board_grid_chars_false : forall grid chs,
  Board.grid_chars grid false = Some chs -> chs = map (fun c => [c]) grid.
Proof.
  induction grid as [|c grid IH]; cbn [Board.grid_chars]; intros chs H.
  - inversion H; reflexivity.
  - destruct (mem c Sudoku.unit_values).
    + destruct (Board.grid_chars grid false) as [r|]; simpl in H;
        [|discriminate H].
      inversion H; subst. rewrite (IH r eq_refl). reflexivity.
    + destruct (Ascii.eqb c ".") eqn:E; [|discriminate H].
      apply Ascii.eqb_eq in E; subst c.
      destruct (Board.grid_chars grid false) as [r|]; simpl in H;
        [|discriminate H].
      inversion H; subst. rewrite (IH r eq_refl). reflexivity.
Qed.

Lemma board_grid_chars_both : forall grid,
  match Board.grid_chars grid true, Board.grid_chars grid false with
  | Some chs, Some org =>
      Forall2 (fun v o => (o = ["."%char] /\ v = Sudoku.unit_values) \/
                          (o <> ["."%char] /\ v = o)) chs org
  | None, None => True
  | _, _ => False
  end.
Proof.
  induction grid as [|c grid IH]; cbn [Board.grid_chars]; [constructor|].
  destruct (mem c Sudoku.unit_values) eqn:M.
  - destruct (Board.grid_chars grid true), (Board.grid_chars grid false);
      simpl; try exact IH.
    constructor; [|exact IH]. right. split; [|reflexivity].
    intros E. inversion E; subst c. vm_compute in M. discriminate M.
  - destruct (Ascii.eqb c "."); [|exact I].
    destruct (Board.grid_chars grid true), (Board.grid_chars grid false);
      simpl; try exact IH.
    constructor; [|exact IH]. left; split; reflexivity.
Qed.

Lemma keys_combine V : forall (ks : list string) (vs : list V),
  length ks = length vs -> keys (combine ks vs) = ks.
Proof.
  unfold keys. induction ks as [|k ks IH]; intros [|v vs] Hl; simpl in *;
    try discriminate; [reflexivity|].
  rewrite IH; [reflexivity | lia].
Qed.

Lemma values_combine V : forall (ks : list string) (vs : list V),
  length ks = length vs -> map snd (combine ks vs) = vs.
Proof.
  induction ks as [|k ks IH]; intros [|v vs] Hl; simpl in *;
    try discriminate; [reflexivity|].
  rewrite IH; [reflexivity | lia].
Qed.

Lemma boxes_dict (chs : list cand) :
  length chs = 81 ->
  dict_of (combine Sudoku.boxes chs) [] = combine Sudoku.boxes chs /\
  keys (combine Sudoku.boxes chs) = Sudoku.boxes /\
  map snd (combine Sudoku.boxes chs) = chs.
Proof.
  intros E81.
  assert (Hlen : length Sudoku.boxes = length chs)
    by (rewrite E81; vm_compute; reflexivity).
  pose proof (keys_combine _ _ Hlen) as Hk.
  split; [|split; [exact Hk | apply values_combine; exact Hlen]].
  rewrite dict_of_NoDup; [reflexivity|].
  change (NoDup (keys (combine Sudoku.boxes chs))). rewrite Hk.
  apply nodupb_NoDup; vm_compute; reflexivity.
Qed.

Lemma get_combine_Forall2 (R : cand -> cand -> Prop) :
  forall (l1 l2 : list cand), Forall2 R l1 l2 ->
  forall ks box o, get (combine ks l2) box = Some o ->
  exists v, get (combine ks l1) box = Some v /\ R v o.
Proof.
  induction 1 as [|v o l1 l2 Hvo _ IH]; intros ks box o' Hg.
  - destruct ks; discriminate Hg.
  - destruct ks as [|k ks]; [discriminate Hg|]. simpl in *.
    destruct (String.eqb k box).
    + inversion Hg; subst. exists v; auto.
    + apply IH; exact Hg.
Qed.

Lemma concat_singletons (l : cand) : List.concat (map (fun c => [c]) l) = l.
Proof. induction l as [|c l IH]; simpl; [|rewrite IH]; reflexivity. Qed.

(** X15. [__grid_values] with its flag.  With the flag set it is the state
    the solver starts from; the two flags accept the same grids.  The
    dictionary kept as the original board has the 81 boxes as its keys,
    in order, and its values read in that order spell the grid; a box
    whose original is a dot starts with the nine digits, every other box
    starts with its original. *)
Theorem grid_values_original_board grid :
  Board.grid_values grid true = Sudoku.grid_values grid /\
  (Board.org_state grid = None <-> Sudoku.grid_values grid = None) /\
  (forall org, Board.org_state grid = Some org ->
     keys org = Sudoku.boxes /\
     List.concat (map snd org) = grid /\
     exists st, Sudoku.grid_values grid = Some st /\
       forall box o, get org box = Some o ->
         (o = ["."%char] /\ get st box = Some Sudoku.unit_values) \/
         (o <> ["."%char] /\ get st box = Some o)).
Proof.
  assert (Ht : Board.grid_values grid true = Sudoku.grid_values grid).
  { unfold Board.grid_values, Sudoku.grid_values.
    rewrite board_grid_chars_true. reflexivity. }
  pose proof (board_grid_chars_both grid) as Hb.
  rewrite board_grid_chars_true in Hb.
  unfold Board.org_state, Board.grid_values, Sudoku.grid_values.
  split; [exact Ht|].
  destruct (Sudoku.grid_chars grid) as [chs|] eqn:Ec;
    destruct (Board.grid_chars grid false) as [ocs|] eqn:Eo;
    try contradiction.
  - assert (Hl : length chs = length ocs).
    { clear - Hb. induction Hb; simpl; congruence. }
    rewrite Hl. split.
    + destruct (length ocs =? 81); simpl; split; intros H;
        first [discriminate H | reflexivity].
    + intros org H.
      destruct (length ocs =? 81) eqn:E81; cbn [negb] in H |- *;
        [|discriminate H].
      apply Nat.eqb_eq in E81.
      assert (Horg : dict_of (combine Sudoku.boxes ocs) [] = org).
      { apply (f_equal (fun o => match o with Some x => x | None => org end))
          in H. exact H. }
      clear H. subst org.
      destruct (boxes_dict ocs E81) as [-> [Hk Hv]].
      split; [exact Hk|]. split.
      * rewrite Hv, (board_grid_chars_false _ Eo). apply concat_singletons.
      * exists (dict_of (combine Sudoku.boxes chs) []).
        split; [reflexivity|].
        destruct (boxes_dict chs (eq_trans Hl E81)) as [-> _].
        intros box o Hg.
        destruct (get_combine_Forall2 Hb _ _ Hg) as [v [Hv' [[-> ->]|[Hn ->]]]];
          [left | right]; auto.
  - split; [split; reflexivity|]. intros org H; discriminate H.
Qed.

(* ================================================================== *)
(** * The state the map adapter sets up *)

(** X16. [state_setup] builds a dictionary over the six regions, in the
    order of the adapter, whatever the caller gave: a region the caller
    gave has the caller's value, a region it did not give has the three
    colours, and a key of the caller that is not a region is dropped. *)
Theorem state_setup_covers_the_regions state :
  keys (Australia.state_setup state) = Australia.X_map /\
  (forall x, In x Australia.X_map ->
     get (Australia.state_setup state) x =
     Some match state with
          | Some st => match get st x with
                       | Some v => v
                       | None => Australia.D_map
                       end
          | None => Australia.D_map
          end) /\
  (forall x, ~ In x Australia.X_map ->
     get (Australia.state_setup state) x = None).
Proof.
  split; [exact (australia_keys state)|].
  assert (E : Australia.state_setup state =
              dict_of (map (fun x => (x, match state with
                                         | Some st =>
                                             match get st x with
                                             | Some v => v
                                             | None => Australia.D_map
                                             end
                                         | None => Australia.D_map
                                         end)) Australia.X_map) []).
  { unfold Australia.state_setup. destruct state as [st|]; [|reflexivity].
    f_equal. apply map_ext. intros x. destruct (get st x); reflexivity. }
  rewrite E. split; intros x Hx; rewrite get_dict_of.
  - apply mem_str_In in Hx. rewrite Hx. reflexivity.
  - destruct (mem_str x Australia.X_map) eqn:M; [|reflexivity].
    apply mem_str_In in M. contradiction.
Qed.

(* ================================================================== *)
(** * The two adapters, end to end *)

Lemma derived_problem_decides self :
  solved self = false -> repository_rules self ->
  peers self = make_peers (C self) (X self) ->
  keys (internal_state self) = X self ->
  NoDup (X self) -> X self <> [] ->
  (forall g, In g (C self) -> incl g (X self)) ->
  exact_groups (C self) (D self) ->
  (forall k v, get (internal_state self) k = Some v -> incl v (D self)) ->
  decides self.
Proof.
  intros Hs Hr Hp HK Hnd Hnil Hgx Hex Hdom.
  destruct (derived_peers_well_formed self Hp HK Hgx)
    as [Hwf [Hcover Hpg]].
  destruct (solve_returns Hr Hwf) as [self' [b Hret]].
  exists self', b. split; [exact Hret|].
  pose proof (Hret _ (Nat.lt_succ_diag_r _)) as Hrun.
  destruct b.
  - destruct (solve_success_solvable _ Hs Hr Hcover Hgx Hrun) as [Hc Hw].
    split; [split; [|reflexivity]|].
    + intros _. exists (assignment_of (internal_state self')); auto.
    + intros _. split; [|split; assumption].
      destruct (@solve_true self _ self' Hs Hrun) as [st1 [d [cnt [Hsearch [_ ->]]]]].
      pose proof (repository_rules_shrinking Hr) as Hsh.
      destruct (@search_success _ _ Hsh _ _ _ _ _ _ Hsearch) as [Hall _].
      intros x Hx. exact (proj1 (all_solved_true _ _) Hall x Hx).
  - split; [|discriminate]. split; [discriminate|]. intros Hsol. exfalso.
    revert Hsol. eapply solve_false_unsolvable; try eassumption.
    + rewrite HK. exact Hnd.
    + intros E. rewrite E in HK. simpl in HK. apply Hnil. symmetry. exact HK.
    + rewrite HK. exact Hgx.
Qed.

(** X17. The Sudoku adapter, end to end.  For every grid the constructor
    accepts, with or without the diagonals, [solve] returns; it returns
    [True] exactly when the grid can be completed with the boxes of every
    unit all different; and the state it then leaves has one digit in
    every box, different within every unit, each among the candidates the
    box started with. *)
Theorem sudoku_solve_decides_the_grid grid diag self :
  Sudoku.init grid diag = Some self ->
  exists self' b,
    (forall fuel, unsolved_count (internal_state self) < fuel ->
       solve fuel self = Returned (self', b)) /\
    (b = true <-> solvable self) /\
    (b = true ->
     (forall box, In box Sudoku.boxes ->
        exists c, get (internal_state self') box = Some [c]) /\
     consistent (Sudoku.unitlist diag)
       (assignment_of (internal_state self')) /\
     within (assignment_of (internal_state self')) (internal_state self)).
Proof.
  intros H.
  destruct (sudoku_setup _ _ H)
    as [Hs [Hr [HX [HD [HC [HP [HK Hdom]]]]]]].
  rewrite <- HX, <- HC. apply derived_problem_decides; try assumption.
  - rewrite HP, HC, HX; reflexivity.
  - congruence.
  - rewrite HX. apply nodupb_NoDup; vm_compute; reflexivity.
  - rewrite HX. discriminate.
  - rewrite HC, HX. apply forallb_incl. destruct diag; vm_compute; reflexivity.
  - rewrite HC, HD. apply exact_groupsb_exact.
    destruct diag; vm_compute; reflexivity.
  - rewrite HD. exact Hdom.
Qed.

Lemma sudoku_solve_decides_the_grid_witness :
  exists self,
    Sudoku.init docstring_grid false = Some self /\
    exists self' b,
      (forall fuel, unsolved_count (internal_state self) < fuel ->
         solve fuel self = Returned (self', b)) /\
      (b = true <-> solvable self) /\
      (b = true ->
       (forall box, In box Sudoku.boxes ->
          exists c, get (internal_state self') box = Some [c]) /\
       consistent (Sudoku.unitlist false)
         (assignment_of (internal_state self')) /\
       within (assignment_of (internal_state self')) (internal_state self)).
Proof.
  eexists. split; [reflexivity|].
  apply (@sudoku_solve_decides_the_grid docstring_grid false).
  reflexivity.
Defined.

(** X18. The map adapter, end to end.  For every initial colouring whose
    values are made of the three colours, [solve] returns; it returns
    [True] exactly when the map can be coloured with the regions of every
    group all different; and the state it then leaves has one colour in
    every region, different within every group, each among the colours
    the region started with. *)
Theorem australia_solve_decides_the_map state :
  (forall (st : State) x (v : cand), state = Some st ->
     In x Australia.X_map -> get st x = Some v -> incl v Australia.D_map) ->
  exists self' b,
    (forall fuel,
       unsolved_count (internal_state (Australia.init state)) < fuel ->
       solve fuel (Australia.init state) = Returned (self', b)) /\
    (b = true <-> solvable (Australia.init state)) /\
    (b = true ->
     (forall x, In x Australia.X_map ->
        exists c, get (internal_state self') x = Some [c]) /\
     consistent Australia.C_map (assignment_of (internal_state self')) /\
     within (assignment_of (internal_state self'))
       (internal_state (Australia.init state))).
Proof.
  intros Hin.
  apply (@derived_problem_decides (Australia.init state)).
  - reflexivity.
  - left; reflexivity.
  - reflexivity.
  - apply australia_keys.
  - apply nodupb_NoDup; vm_compute; reflexivity.
  - discriminate.
  - apply forallb_incl. vm_compute; reflexivity.
  - apply exact_groupsb_exact. vm_compute; reflexivity.
  - intros k v Hk.
    change (internal_state (Australia.init state))
      with (Australia.state_setup state) in Hk.
    destruct (in_dec string_dec k Australia.X_map) as [Hx|Hx].
    + rewrite (proj1 (proj2 (state_setup_covers_the_regions state)) k Hx)
        in Hk.
      inversion Hk; subst v; clear Hk.
      destruct state as [st|]; [|apply incl_refl].
      destruct (get st k) as [w|] eqn:E; [|apply incl_refl].
      exact (Hin st k w eq_refl Hx E).
    + rewrite (proj2 (proj2 (state_setup_covers_the_regions state)) k Hx)
        in Hk.
      discriminate Hk.
Qed.

Lemma australia_solve_decides_the_map_witness :
  let state := Some [("WA", chars "R")]%string in
  exists self' b,
    (forall fuel,
       unsolved_count (internal_state (Australia.init state)) < fuel ->
       solve fuel (Australia.init state) = Returned (self', b)) /\
    (b = true <-> solvable (Australia.init state)) /\
    (b = true ->
     (forall x, In x Australia.X_map ->
        exists c, get (internal_state self') x = Some [c]) /\
     consistent Australia.C_map (assignment_of (internal_state self')) /\
     within (assignment_of (internal_state self'))
       (internal_state (Australia.init state))).
Proof.
  intros state.
  apply (@australia_solve_decides_the_map state).
  intros st x v E Hx Hv. inversion E; subst st; clear E.
  cbn [get] in Hv. destruct (String.eqb "WA" x); [|discriminate Hv].
  inversion Hv; subst v. intros c [<-|[]]. left; reflexivity.
Defined.

(* ================================================================== *)
(** * No rule removes the value of a solution *)

(** X19. The rules and the solutions.  Let an assignment give the
    variables of every group different symbols, each among the candidates
    of its variable.  Elimination, with peers that are group mates, and
    naked twins, on groups without repetition, leave the symbol of every
    variable among its candidates; so does only-choice when every group
    has as many variables as the alphabet has symbols and the assignment
    uses the alphabet. *)
Theorem rules_keep_the_solutions units prs dom sigma (st st' : State) :
  NoDup (keys st) -> consistent units sigma -> within sigma st ->
  (peers_from_groups units prs ->
   eliminate prs st = Returned st' -> within sigma st') /\
  ((forall g, In g units -> NoDup g) ->
   Sudoku.naked_twins units st = Returned st' -> within sigma st') /\
  (exact_groups units dom ->
   (forall g x, In g units -> In x g -> In (sigma x) dom) ->
   only_choice units dom st = Returned st' -> within sigma st').
Proof.
  intros Hnd Hc Hw. split; [|split].
  - intros Hp H.
    exact (@eliminate_sound units prs sigma (keys st) Hnd Hc Hp st st'
             eq_refl Hw H).
  - intros Hg H.
    exact (@naked_twins_sound units sigma (keys st) Hg Hc st st'
             eq_refl Hw H).
  - intros Hex Hd H.
    exact (@only_choice_sound units dom sigma (keys st) Hex Hc Hd st st'
             eq_refl Hw H).
Qed.

Lemma rules_keep_the_solutions_witness :
  let sigma := assignment_of wa_red_coloured in
  (peers_from_groups Australia.C_map (peers australia_blank) ->
   eliminate (peers australia_blank) wa_red = Returned wa_red_eliminated ->
   within sigma wa_red_eliminated) /\
  ((forall g, In g Australia.C_map -> NoDup g) ->
   Sudoku.naked_twins Australia.C_map wa_red = Returned wa_red_eliminated ->
   within sigma wa_red_eliminated) /\
  (exact_groups Australia.C_map Australia.D_map ->
   (forall g x, In g Australia.C_map -> In x g ->
      In (sigma x) Australia.D_map) ->
   only_choice Australia.C_map Australia.D_map wa_red
   = Returned wa_red_eliminated ->
   within sigma wa_red_eliminated).
Proof.
  intros sigma.
  apply (@rules_keep_the_solutions Australia.C_map (peers australia_blank)
           Australia.D_map sigma wa_red wa_red_eliminated).
  - apply nodupb_NoDup. vm_compute; reflexivity.
  - intros g a b Hg Ha Hb Hn.
    repeat (destruct Hg as [<-|Hg];
            [repeat (destruct Ha as [<-|Ha];
                     [repeat (destruct Hb as [<-|Hb];
                              [first [exfalso; apply Hn; reflexivity
                                     | vm_compute; discriminate]|]);
                      destruct Hb|]);
             destruct Ha|]).
    destruct Hg.
  - apply Forall_within.
    repeat (apply Forall_cons; [vm_compute; auto 6|]). apply Forall_nil.
Defined.

(* ================================================================== *)
(** * The only exception is [KeyError], for a key that is missing *)

Lemma ro_Returned P A (a : A) : raises_only P (Returned a).
Proof. intros e H; discriminate H. Qed.

Lemma ro_bind P A B (m : outcome A) (f : A -> outcome B) :
  raises_only P m -> (forall a, m = Returned a -> raises_only P (f a)) ->
  raises_only P (bind m f).
Proof.
  intros Hm Hf e H. destruct m as [a|e'|]; simpl in H.
  - exact (Hf a eq_refl e H).
  - inversion H; subst. exact (Hm e eq_refl).
  - discriminate H.
Qed.

Lemma ro_getitem K prs (st : State) k :
  keys st = K -> raises_only (missing_key K prs) (getitem st k).
Proof.
  intros Hk e H. unfold getitem in H.
  destruct (get st k) as [v|] eqn:E; [discriminate H|].
  inversion H. exists k. split; [reflexivity|]. left.
  rewrite <- Hk. intros Hin. apply get_keys in Hin.
  destruct Hin as [v Hv]. rewrite E in Hv. discriminate Hv.
Qed.

Lemma ro_getitem_peers K (prs : dict (list string)) k :
  raises_only (missing_key K prs) (getitem prs k).
Proof.
  intros e H. unfold getitem in H.
  destruct (get prs k) as [v|] eqn:E; [discriminate H|].
  inversion H. exists k. split; [reflexivity|]. right.
  intros Hin. apply get_keys in Hin.
  destruct Hin as [v Hv]. rewrite E in Hv. discriminate Hv.
Qed.

Lemma assign_value_keys (st : State) k (v : cand) st1 :
  assign_value st k v = Returned st1 -> keys st1 = keys st.
Proof.
  unfold assign_value. intros H. inv_bind H.
  apply getitem_Returned in Ha.
  destruct (negb (cand_eqb a v)); inversion H; subst; [|reflexivity].
  eapply keys_set_present; exact Ha.
Qed.

Lemma ro_assign_value K prs (st : State) k v :
  keys st = K -> raises_only (missing_key K prs) (assign_value st k v).
Proof.
  intros Hk. unfold assign_value. apply ro_bind; [apply ro_getitem; exact Hk|].
  intros old _. destruct (negb (cand_eqb old v)); apply ro_Returned.
Qed.

Ltac ro_step Hk :=
  first [ apply ro_Returned
        | apply ro_getitem; exact Hk
        | apply ro_getitem_peers
        | apply ro_assign_value; exact Hk ].

Lemma ro_eliminate_peers K prs val : forall ps (st : State),
  keys st = K ->
  raises_only (missing_key K prs) (eliminate_peers val ps st).
Proof.
  induction ps as [|p ps IH]; simpl; intros st Hk; [ro_step Hk|].
  apply ro_bind; [ro_step Hk|]; intros v _.
  apply ro_bind; [ro_step Hk|]; intros st1 H1. apply IH.
  rewrite (assign_value_keys _ _ _ H1). exact Hk.
Qed.

Lemma ro_eliminate K prs (st : State) :
  keys st = K -> raises_only (missing_key K prs) (eliminate prs st).
Proof.
  unfold eliminate. generalize (solved_units st) at 1. intros items.
  revert st. induction items as [|i items IH]; simpl; intros st Hk;
    [ro_step Hk|].
  apply ro_bind; [ro_step Hk|]; intros val _.
  apply ro_bind; [ro_step Hk|]; intros ps _.
  apply ro_bind; [apply ro_eliminate_peers; exact Hk|].
  intros st1 H1. apply IH.
  rewrite (state_le_keys (eliminate_peers_le _ _ _ H1)). exact Hk.
Qed.

Lemma ro_dplaces K prs u (st : State) : keys st = K ->
  forall unit, raises_only (missing_key K prs) (dplaces u unit st).
Proof.
  intros Hk. induction unit as [|i unit IH]; simpl; [ro_step Hk|].
  apply ro_bind; [ro_step Hk|]; intros v _.
  apply ro_bind; [exact IH|]; intros r _. ro_step Hk.
Qed.

Lemma ro_only_choice_vals K prs unit : forall vals (st : State),
  keys st = K ->
  raises_only (missing_key K prs) (only_choice_vals unit vals st).
Proof.
  induction vals as [|u vals IH]; simpl; intros st Hk; [ro_step Hk|].
  apply ro_bind; [apply ro_dplaces; exact Hk|]; intros dp _.
  apply ro_bind.
  - destruct dp as [|i [|? ?]]; ro_step Hk.
  - intros st1 H1. apply IH. rewrite <- Hk.
    destruct dp as [|i [|? ?]];
      first [ inversion H1; reflexivity
            | exact (assign_value_keys _ _ _ H1) ].
Qed.

Lemma ro_only_choice K prs units dom (st : State) :
  keys st = K ->
  raises_only (missing_key K prs) (only_choice units dom st).
Proof.
  unfold only_choice. revert st.
  induction units as [|unit units IH]; simpl; intros st Hk; [ro_step Hk|].
  apply ro_bind; [apply ro_only_choice_vals; exact Hk|].
  intros st1 H1. apply IH.
  rewrite (state_le_keys (only_choice_vals_le _ _ _ H1)). exact Hk.
Qed.

Lemma ro_pair_values K prs (st : State) : keys st = K ->
  forall unit,
  raises_only (missing_key K prs) (Sudoku.pair_values unit st).
Proof.
  intros Hk. induction unit as [|b unit IH]; simpl; [ro_step Hk|].
  apply ro_bind; [ro_step Hk|]; intros v _.
  apply ro_bind; [exact IH|]; intros r _. ro_step Hk.
Qed.

Lemma ro_twins_boxes K prs twin num : forall unit (st : State),
  keys st = K ->
  raises_only (missing_key K prs) (Sudoku.twins_boxes twin num unit st).
Proof.
  induction unit as [|b unit IH]; simpl; intros st Hk; [ro_step Hk|].
  apply ro_bind; [ro_step Hk|]; intros v _.
  apply ro_bind.
  - destruct (negb (cand_eqb twin v)); ro_step Hk.
  - intros st1 H1. apply IH. rewrite <- Hk.
    destruct (negb (cand_eqb twin v));
      first [ inversion H1; reflexivity
            | exact (assign_value_keys _ _ _ H1) ].
Qed.

Lemma ro_twins_nums K prs twin unit : forall nums (st : State),
  keys st = K ->
  raises_only (missing_key K prs) (Sudoku.twins_nums twin nums unit st).
Proof.
  induction nums as [|n nums IH]; simpl; intros st Hk; [ro_step Hk|].
  apply ro_bind; [apply ro_twins_boxes; exact Hk|]; intros st1 H1.
  apply IH. rewrite (state_le_keys (twins_boxes_le _ _ _ _ H1)). exact Hk.
Qed.

Lemma ro_twins_loop K prs unit : forall twins (st : State),
  keys st = K ->
  raises_only (missing_key K prs) (Sudoku.twins_loop twins unit st).
Proof.
  induction twins as [|t twins IH]; simpl; intros st Hk; [ro_step Hk|].
  apply ro_bind; [apply ro_twins_nums; exact Hk|]; intros st1 H1.
  apply IH. rewrite (state_le_keys (twins_nums_le _ _ _ _ H1)). exact Hk.
Qed.

Lemma ro_naked_twins K prs units (st : State) :
  keys st = K ->
  raises_only (missing_key K prs) (Sudoku.naked_twins units st).
Proof.
  unfold Sudoku.naked_twins. revert st.
  induction units as [|unit units IH]; simpl; intros st Hk; [ro_step Hk|].
  apply ro_bind; [apply ro_pair_values; exact Hk|]; intros pairs _.
  apply ro_bind; [apply ro_twins_loop; exact Hk|]; intros st1 H1.
  apply IH. rewrite (state_le_keys (twins_loop_le _ _ _ H1)). exact Hk.
Qed.

Lemma ro_repository_rules self K :
  repository_rules self ->
  Forall (fun f : rule => forall st, keys st = K ->
            raises_only (missing_key K (peers self)) (f st))
         (reduce_funcs self).
Proof.
  intros [-> | ->]; unfold sudoku_rules, base_rules; simpl;
    repeat constructor; intros st Hk;
    first [ apply ro_eliminate; exact Hk
          | apply ro_only_choice; exact Hk
          | apply ro_naked_twins; exact Hk ].
Qed.

Lemma ro_apply_rules K prs : forall funcs (st : State),
  Forall shrinking funcs ->
  Forall (fun f : rule => forall st, keys st = K ->
            raises_only (missing_key K prs) (f st)) funcs ->
  keys st = K ->
  raises_only (missing_key K prs) (apply_rules funcs st).
Proof.
  induction funcs as [|f funcs IH]; simpl; intros st Hsh HF Hk;
    [ro_step Hk|].
  apply Forall_cons_iff in Hsh. destruct Hsh as [Hs Hsh'].
  apply Forall_cons_iff in HF. destruct HF as [Hf HF'].
  apply ro_bind; [apply Hf; exact Hk|]; intros st1 H1.
  apply IH; try assumption.
  rewrite (state_le_keys (Hs _ _ H1)). exact Hk.
Qed.

Lemma ro_reduce_loop K prs funcs :
  Forall shrinking funcs ->
  Forall (fun f : rule => forall st, keys st = K ->
            raises_only (missing_key K prs) (f st)) funcs ->
  forall fuel (st : State), keys st = K ->
  raises_only (missing_key K prs) (reduce_loop funcs fuel st).
Proof.
  intros Hsh HF. induction fuel as [|fuel IH]; simpl; intros st Hk.
  - intros e H; discriminate H.
  - apply ro_bind; [apply ro_apply_rules; assumption|]; intros st1 H1.
    destruct (unsolvable_units st1); [ro_step Hk|].
    destruct (_ =? _); [ro_step Hk|]. apply IH.
    rewrite (state_le_keys (@apply_rules_le funcs st st1 Hsh H1)). exact Hk.
Qed.

Lemma ro_all_solved K prs (st : State) : keys st = K ->
  forall xs, raises_only (missing_key K prs) (all_solved st xs).
Proof.
  intros Hk. induction xs as [|x xs IH]; simpl; [ro_step Hk|].
  apply ro_bind; [ro_step Hk|]; intros v _.
  destruct (length v =? 1); [exact IH | ro_step Hk].
Qed.

Lemma ro_unsolved_pairs K prs (st : State) : keys st = K ->
  forall xs, raises_only (missing_key K prs) (unsolved_pairs st xs).
Proof.
  intros Hk. induction xs as [|x xs IH]; simpl; [ro_step Hk|].
  apply ro_bind; [ro_step Hk|]; intros v _.
  apply ro_bind; [exact IH|]; intros r _. ro_step Hk.
Qed.

Lemma ro_try_values K prs rec (st : State) s :
  keys st = K ->
  (forall new cnt, keys new = K ->
     raises_only (missing_key K prs) (rec new cnt)) ->
  forall vals cnt,
  raises_only (missing_key K prs) (try_values rec st s vals cnt).
Proof.
  intros Hk Hrec. induction vals as [|v vals IH]; simpl; intros cnt;
    [ro_step Hk|].
  apply ro_bind; [ro_step Hk|]; intros new Hnew.
  apply ro_bind.
  - apply Hrec. rewrite (assign_value_keys _ _ _ Hnew). exact Hk.
  - intros [[st1 attempt] cnt1] _.
    destruct (truthy attempt); [ro_step Hk | apply IH].
Qed.

Lemma ro_search K prs funcs xs :
  Forall shrinking funcs ->
  Forall (fun f : rule => forall st, keys st = K ->
            raises_only (missing_key K prs) (f st)) funcs ->
  forall fuel (st : State) cnt, keys st = K ->
  raises_only (missing_key K prs) (search funcs xs fuel st cnt).
Proof.
  intros Hsh HF. induction fuel as [|fuel IH]; intros st cnt Hk.
  - intros e H; discriminate H.
  - cbn [search]. unfold reduce.
    destruct (reduce_loop funcs (S fuel) st) as [[state1 feasible]|e'|]
      eqn:Hred; cbn [bind].
    + destruct feasible; cbn [negb]; [|ro_step Hk].
      destruct (reduce_loop_final Hsh _ _ Hred) as [st0 [_ [_ [_ Hne]]]].
      assert (Hk1 : keys state1 = K).
      { rewrite (state_le_keys (reduce_loop_le Hsh _ _ Hred)). exact Hk. }
      destruct (all_solved state1 xs) as [done|e'|] eqn:Hall; cbn [bind].
      * destruct done; [ro_step Hk|].
        destruct (unsolved_pairs state1 xs) as [pairs|e'|] eqn:Hp;
          cbn [bind].
        -- pose proof (unsolved_pairs_nonempty _ Hne Hall Hp) as Hnn.
           destruct pairs as [|p pairs]; [contradiction|].
           cbn [py_min bind]. destruct (min_from p pairs) as [n s].
           apply ro_bind; [ro_step Hk1|]; intros vals _.
           apply ro_bind; [|intros [attempt cnt3] _; ro_step Hk].
           apply ro_try_values; [exact Hk1|].
           intros new c Hnew. apply IH. exact Hnew.
        -- intros e H. injection H as <-.
           exact (@ro_unsolved_pairs K prs state1 Hk1 xs _ Hp).
        -- intros e H; discriminate H.
      * intros e H. injection H as <-.
        exact (@ro_all_solved K prs state1 Hk1 xs _ Hall).
      * intros e H; discriminate H.
    + intros e H. injection H as <-.
      exact (@ro_reduce_loop K prs funcs Hsh HF (S fuel) st Hk _ Hred).
    + intros e H; discriminate H.
Qed.

(** X20. The only exception [solve] raises.  Whatever the problem, it is
    [KeyError], for a name that is not a key of the state or has no entry
    in the peers.  In particular [min] is never given an empty sequence:
    when the search comes to choose a variable, the propagation has left
    no empty candidate string and some variable of [X] is not solved, so
    one of them has two candidates or more. *)
Theorem solve_raises_only_key_errors self fuel e :
  repository_rules self ->
  solve fuel self = Raised e ->
  exists k, e = KeyError k /\
    (~ In k (keys (internal_state self)) \/ ~ In k (keys (peers self))).
Proof.
  intros Hr H. unfold solve in H.
  destruct (search (reduce_funcs self) (X self) fuel (internal_state self)
              (mkCounts 0 0)) as [[[st1 r] cnt]|e'|] eqn:Hs;
    cbn [bind] in H; try discriminate H.
  inversion H; subst.
  exact (@ro_search (keys (internal_state self)) (peers self) _ _
           (repository_rules_shrinking Hr) (ro_repository_rules _ Hr)
           _ _ _ eq_refl _ Hs).
Qed.

Lemma solve_raises_only_key_errors_witness :
  exists k, KeyError "Z" = KeyError k /\
    (~ In k (keys (internal_state unknown_variable_problem)) \/
     ~ In k (keys (peers unknown_variable_problem))).
Proof.
  apply (@solve_raises_only_key_errors unknown_variable_problem 1
           (KeyError "Z")).
  - left; reflexivity.
  - vm_compute; reflexivity.
Defined.

(* ================================================================== *)
(** * The table of coordinates *)

Lemma keys_app V (d d' : dict V) : keys (d ++ d') = keys d ++ keys d'.
Proof. unfold keys. apply map_app. Qed.

Lemma cord_cols_keys (s : ascii) (i : nat) : forall (B : cand) (j : nat),
  keys (map (fun jt => (String s (String (snd jt) EmptyString),
                        (i, fst jt))) (enumerate_from j B))
  = map (fun t => String s (String t EmptyString)) B.
Proof.
  unfold keys, enumerate_from.
  induction B as [|t B IH]; intros j; simpl; [reflexivity|].
  rewrite IH. reflexivity.
Qed.

Lemma cord_entries_keys B j : forall A i,
  keys (cord_entries A B i j) = Sudoku.cross A B.
Proof.
  unfold cord_entries, enumerate_from.
  induction A as [|s A IH]; intros i; [reflexivity|].
  cbn [length seq combine flat_map]. rewrite keys_app, IH, cross_cons.
  f_equal. apply cord_cols_keys.
Qed.

Lemma cross_cord_cols_fresh (s : ascii) (i : nat) :
  forall (B : cand) (j : nat) (d : dict (nat * nat)),
  NoDup B ->
  (forall t, In t B -> ~ In (String s (String t EmptyString)) (keys d)) ->
  Board.cross_cord_cols s i B j d =
  d ++ map (fun jt => (String s (String (snd jt) EmptyString), (i, fst jt)))
           (enumerate_from j B).
Proof.
  unfold enumerate_from.
  induction B as [|t B IH]; intros j d Hnd Hf; simpl.
  - rewrite app_nil_r. reflexivity.
  - inversion Hnd as [|? ? Ht Hnd']; subst.
    rewrite set_fresh by (apply Hf; left; reflexivity).
    rewrite IH; [rewrite <- app_assoc; reflexivity | exact Hnd' |].
    intros t' Ht' Hin. rewrite keys_app in Hin.
    apply in_app_or in Hin. destruct Hin as [Hin|[E|[]]].
    + exact (Hf t' (or_intror Ht') Hin).
    + inversion E; subst. contradiction.
Qed.

Lemma cross_cord_rows_fresh B : NoDup B ->
  forall A i (d : dict (nat * nat)), NoDup A ->
  (forall k, In k (Sudoku.cross A B) -> ~ In k (keys d)) ->
  Board.cross_cord_rows A i B d = d ++ cord_entries A B i 0.
Proof.
  intros HB. induction A as [|s A IH]; intros i d HA Hf.
  - simpl. rewrite app_nil_r. reflexivity.
  - inversion HA as [|? ? Hs HA']; subst.
    cbn [Board.cross_cord_rows].
    rewrite cross_cord_cols_fresh; [|exact HB|].
    + rewrite IH; [|exact HA'|].
      * rewrite <- app_assoc. reflexivity.
      * intros k Hk Hin. rewrite keys_app, cord_cols_keys in Hin.
        apply in_app_or in Hin. destruct Hin as [Hin|Hin].
        -- apply (Hf k); [|exact Hin]. rewrite cross_cons.
           apply in_or_app; right; exact Hk.
        -- apply in_map_iff in Hin. destruct Hin as [t [<- Ht]].
           apply In_cross in Hk. destruct Hk as [s' [t' [Hs' [_ E]]]].
           inversion E; subst. contradiction.
    + intros t Ht. apply Hf. rewrite cross_cons. apply in_or_app; left.
      apply in_map_iff. exists t; split; [reflexivity | exact Ht].
Qed.

Lemma In_enumerate_from : forall (l : cand) i0 i c,
  nth_error l i = Some c -> In (i0 + i, c) (enumerate_from i0 l).
Proof.
  unfold enumerate_from.
  induction l as [|x l IH]; intros i0 i c H; [destruct i; discriminate H|].
  destruct i as [|i]; simpl in *.
  - inversion H; subst. left. f_equal. lia.
  - right. replace (i0 + S i) with (S i0 + i) by lia. apply IH. exact H.
Qed.

(** X21. [__cross_cord], for rows and columns without repetition: the keys
    of the table are the names [__cross] lists, in the same order, and
    the name made of the character at place [i] of the rows and the
    character at place [j] of the columns has the coordinates [(i, j)]. *)
Theorem cross_cord_gives_the_coordinates A B :
  NoDup A -> NoDup B ->
  keys (Board.cross_cord A B) = Sudoku.cross A B /\
  (forall i j s t, nth_error A i = Some s -> nth_error B j = Some t ->
     get (Board.cross_cord A B) (String s (String t EmptyString))
     = Some (i, j)).
Proof.
  intros HA HB.
  assert (E : Board.cross_cord A B = cord_entries A B 0 0).
  { unfold Board.cross_cord.
    rewrite (@cross_cord_rows_fresh B HB A 0 [] HA); [reflexivity|].
    intros k _ []. }
  rewrite E. split; [apply cord_entries_keys|].
  intros i j s t Hs Ht. apply In_get_NoDup.
  - rewrite cord_entries_keys. apply NoDup_cross; assumption.
  - unfold cord_entries. apply in_flat_map. exists (i, s). split.
    + exact (In_enumerate_from A 0 i Hs).
    + apply in_map_iff. exists (j, t). split; [reflexivity|].
      exact (In_enumerate_from B 0 j Ht).
Qed.

Lemma cross_cord_gives_the_coordinates_witness :
  keys (Board.cross_cord Sudoku.rows Sudoku.cols) = Sudoku.boxes /\
  (forall i j s t, nth_error Sudoku.rows i = Some s ->
     nth_error Sudoku.cols j = Some t ->
     get (Board.cross_cord Sudoku.rows Sudoku.cols)
       (String s (String t EmptyString)) = Some (i, j)).
Proof.
  apply (@cross_cord_gives_the_coordinates Sudoku.rows Sudoku.cols).
  - apply (proj1 (@exact_groupsb_exact [] Sudoku.rows eq_refl)).
  - apply (proj1 (@exact_groupsb_exact [] Sudoku.cols eq_refl)).
Defined.

(* ================================================================== *)
(** * The board as it is printed *)

Lemma org_state_entries grid org :
  Board.org_state grid = Some org ->
  length grid = 81 /\
  org = combine Sudoku.boxes (map (fun c => [c]) grid).
Proof.
  unfold Board.org_state, Board.grid_values. intros H.
  destruct (Board.grid_chars grid false) as [ocs|] eqn:Eo; [|discriminate H].
  destruct (length ocs =? 81) eqn:E81; cbn [negb] in H; [|discriminate H].
  apply Nat.eqb_eq in E81.
  assert (Horg : dict_of (combine Sudoku.boxes ocs) [] = org).
  { apply (f_equal (fun o => match o with Some x => x | None => org end))
      in H. exact H. }
  clear H. subst org.
  rewrite (proj1 (boxes_dict ocs E81)).
  rewrite (board_grid_chars_false _ Eo) in *.
  rewrite length_map in E81. split; [exact E81 | reflexivity].
Qed.

(** X22. The original board as [display_org_cmd] prints it.  Eleven lines
    are printed; the fourth and the eighth are the rule
    [------+------+------]; the others are the nine rows, twenty
    characters each, and the cell in row [r] and column [c] shows the
    character of the grid at place [9r + c], two columns for every cell
    and one more after every third. *)
Theorem display_org_shows_the_grid grid org :
  Board.org_state grid = Some org ->
  exists lines,
    Console.display org = Returned lines /\
    length lines = 11 /\
    nth_error lines 3 = Some (chars "------+------+------") /\
    nth_error lines 7 = Some (chars "------+------+------") /\
    (forall r c, r < 9 -> c < 9 ->
       exists line,
         nth_error lines (r + r / 3) = Some line /\
         length line = 20 /\
         nth_error line (2 * c + c / 3) = nth_error grid (9 * r + c)).
Proof.
  intros H. destruct (org_state_entries _ H) as [E81 ->]. clear H.
  do 81 (destruct grid as [|? grid]; [discriminate E81|]).
  destruct grid as [|? grid]; [clear E81 | discriminate E81].
  eexists. split; [vm_compute; reflexivity|].
  split; [reflexivity|]. split; [reflexivity|]. split; [reflexivity|].
  intros r c Hr Hc.
  do 9 (destruct r as [|r];
        [do 9 (destruct c as [|c];
               [eexists; split; [reflexivity | split; reflexivity]|]);
         exfalso; lia|]).
  exfalso; lia.
Qed.

Lemma display_org_shows_the_grid_witness :
  exists org,
    Board.org_state docstring_grid = Some org /\
    exists lines,
      Console.display org = Returned lines /\
      length lines = 11 /\
      nth_error lines 3 = Some (chars "------+------+------") /\
      nth_error lines 7 = Some (chars "------+------+------") /\
      (forall r c, r < 9 -> c < 9 ->
         exists line,
           nth_error lines (r + r / 3) = Some line /\
           length line = 20 /\
           nth_error line (2 * c + c / 3)
           = nth_error docstring_grid (9 * r + c)).
Proof.
  eexists. split; [reflexivity|].
  apply (@display_org_shows_the_grid docstring_grid). reflexivity.
Defined.

Lemma center_length (v : cand) w :
  length v <= w -> length (Console.center v w) = w.
Proof.
  intros Hl. unfold Console.center.
  destruct (w <=? length v) eqn:E.
  - apply Nat.leb_le in E. lia.
  - apply Nat.leb_gt in E.
    set (marg := w - length v).
    assert (Hb : Nat.land (Nat.land marg w) 1 <= 1).
    { change 1 with (Nat.ones 1) at 1. rewrite Nat.land_ones.
      pose proof (Nat.mod_upper_bound (Nat.land marg w) (2 ^ 1)) as Hm.
      simpl in Hm. specialize (Hm ltac:(lia)). simpl. lia. }
    assert (Hleft : marg / 2 + Nat.land (Nat.land marg w) 1 <= marg).
    { assert (Hm : 1 <= marg) by (unfold marg; lia).
      pose proof (Nat.div_mod_eq marg 2) as Hd.
      pose proof (Nat.mod_upper_bound marg 2 ltac:(lia)) as Hu. lia. }
    rewrite !length_app, !repeat_length. fold marg. lia.
Qed.

Lemma lengths_spec (state : State) : forall bs,
  incl bs (keys state) ->
  exists ls, Console.lengths state bs = Returned ls /\
    length ls = length bs /\
    (forall b v, In b bs -> get state b = Some v -> In (length v) ls) /\
    (forall n, In n ls ->
       exists b v, In b bs /\ get state b = Some v /\ n = length v).
Proof.
  induction bs as [|b bs IH]; intros Hk.
  - exists []. simpl. split; [reflexivity|]. split; [reflexivity|].
    split; [intros b v [] | intros n []].
  - destruct (get_key state b (Hk b (or_introl eq_refl))) as [v Hv].
    destruct IH as [ls [Hls [Hlen [Hin Hex]]]].
    { intros y Hy. apply Hk. right; exact Hy. }
    exists (length v :: ls). cbn [Console.lengths]. unfold getitem.
    rewrite Hv; cbn [bind]. rewrite Hls; cbn [bind].
    split; [reflexivity|]. split; [simpl; congruence|]. split.
    + intros b' v' [<-|Hb'] Hg.
      * rewrite Hv in Hg. inversion Hg; subst. left; reflexivity.
      * right. eapply Hin; eassumption.
    + intros n [<-|Hn].
      * exists b, v. split; [left; reflexivity | auto].
      * destruct (Hex n Hn) as [b' [v' [Hb' [Hg' En]]]].
        exists b', v'. split; [right; exact Hb' | auto].
Qed.

Lemma lengths_missing (state : State) x post : forall pre,
  incl pre (keys state) -> ~ In x (keys state) ->
  Console.lengths state (pre ++ x :: post) = Raised (KeyError x).
Proof.
  induction pre as [|y pre IH]; simpl; intros Hin Hn.
  - unfold getitem. rewrite (get_not_key _ _ Hn). reflexivity.
  - destruct (get_key state y (Hin y (or_introl eq_refl))) as [v Hv].
    unfold getitem at 1. rewrite Hv; simpl.
    rewrite IH; [reflexivity| |exact Hn].
    intros z Hz. apply Hin. right; exact Hz.
Qed.

Lemma fold_max_ge : forall l n m,
  In m (n :: l) -> m <= fold_left Nat.max l n.
Proof.
  induction l as [|x l IH]; intros n m Hin; simpl.
  - destruct Hin as [->|[]]. lia.
  - destruct Hin as [->|[->|Hin]].
    + specialize (IH (Nat.max m x) (Nat.max m x) (or_introl eq_refl)). lia.
    + specialize (IH (Nat.max n m) (Nat.max n m) (or_introl eq_refl)). lia.
    + apply IH. right; exact Hin.
Qed.

Lemma fold_max_In : forall l n, In (fold_left Nat.max l n) (n :: l).
Proof.
  induction l as [|x l IH]; intros n; simpl; [left; reflexivity|].
  destruct (IH (Nat.max n x)) as [E|Hin]; [|right; right; exact Hin].
  rewrite <- E. destruct (Nat.max_dec n x) as [->| ->]; auto.
Qed.

Lemma join_empty_cons (p : cand) (ps : list cand) :
  Console.join [] (p :: ps) = p ++ Console.join [] ps.
Proof.
  cbn [Console.join]. destruct ps; [rewrite app_nil_r|]; reflexivity.
Qed.

Lemma display_cells_length (state : State) r w : forall cs,
  (forall c v, In c cs ->
     get state (String r (String c EmptyString)) = Some v -> length v <= w) ->
  incl (Sudoku.cross [r] cs) (keys state) ->
  exists cells, Console.display_cells state r cs w = Returned cells /\
    length (Console.join [] cells) =
    w * length cs + length (filter (fun c => mem c (chars "36")) cs).
Proof.
  induction cs as [|c cs IH]; intros Hw Hk.
  - exists []. split; [reflexivity|]. simpl. lia.
  - destruct (get_key state (String r (String c EmptyString)))
      as [v Hv].
    { apply Hk. simpl. left; reflexivity. }
    destruct IH as [cells [Hc Hl]].
    { intros c' v' Hc'. apply Hw. right; exact Hc'. }
    { intros k Hin. apply Hk. simpl in *. right. exact Hin. }
    eexists. cbn [Console.display_cells]. unfold getitem.
    rewrite Hv; cbn [bind]. rewrite Hc; cbn [bind].
    split; [reflexivity|].
    rewrite join_empty_cons, !length_app, Hl.
    rewrite center_length
      by (apply (Hw c v); [left; reflexivity | exact Hv]).
    cbn [filter length].
    destruct (mem c (chars "36")); simpl; lia.
Qed.

Lemma display_rows_lines (state : State) w line n :
  (forall b v, In b Sudoku.boxes -> get state b = Some v -> length v <= w) ->
  length line = n ->
  w * length Sudoku.cols
  + length (filter (fun c => mem c (chars "36")) Sudoku.cols) = n ->
  forall rs out, incl (Sudoku.cross rs Sudoku.cols) (keys state) ->
  incl rs Sudoku.rows ->
  Forall (fun l => length l = n) out ->
  exists lines, Console.display_rows state rs w line out = Returned lines /\
    Forall (fun l => length l = n) lines /\
    length lines =
    length out + length rs
    + length (filter (fun r => mem r (chars "CF")) rs).
Proof.
  intros Hw Hline Hn.
  induction rs as [|r rs IH]; intros out Hk Hrs Hout.
  - exists out. split; [reflexivity|]. split; [exact Hout|].
    cbn [length filter]. rewrite !Nat.add_0_r. reflexivity.
  - destruct (@display_cells_length state r w Sudoku.cols) as [cells [Hc Hl]].
    { intros c v Hc Hv.
      apply (Hw (String r (String c EmptyString)) v); [|exact Hv].
      apply In_cross. exists r, c. split; [|split; [exact Hc | reflexivity]].
      apply Hrs. left; reflexivity. }
    { intros k Hin. apply Hk. rewrite cross_cons. apply in_or_app; left.
      apply In_cross in Hin. destruct Hin as [s [t [[<-|[]] [Ht ->]]]].
      apply in_map_iff. exists t; split; [reflexivity | exact Ht]. }
    cbn [Console.display_rows]. rewrite Hc; cbn [bind].
    rewrite Hn in Hl.
    destruct (IH (if mem r (chars "CF")
                  then (out ++ [Console.join [] cells]) ++ [line]
                  else out ++ [Console.join [] cells]))
      as [lines [Hd [Hf Hlen]]].
    { intros k Hin. apply Hk. rewrite cross_cons. apply in_or_app; right.
      exact Hin. }
    { intros y Hy. apply Hrs. right; exact Hy. }
    { destruct (mem r (chars "CF")); repeat (apply Forall_app; split);
        auto. }
    exists lines. split; [exact Hd|]. split; [exact Hf|].
    rewrite Hlen. cbn [filter length].
    destruct (mem r (chars "CF")); rewrite !length_app; simpl; lia.
Qed.

(** X23. The layout of the board [__display] prints, for a state with the
    81 boxes.  Eleven lines are printed, all of the same length: nine
    cells of one common width, the longest candidate string and one more,
    and two bars.  When a box is not a key of the state, [KeyError] is
    raised for the first one, before anything is printed. *)
Theorem display_lines_have_one_length (state : State) :
  (incl Sudoku.boxes (keys state) ->
   exists lines width,
     Console.display state = Returned lines /\
     length lines = 11 /\
     Forall (fun l => length l = 9 * width + 2) lines /\
     (forall b v, In b Sudoku.boxes -> get state b = Some v ->
        length v < width) /\
     (exists b v, In b Sudoku.boxes /\ get state b = Some v /\
        width = length v + 1)) /\
  (forall pre x post, Sudoku.boxes = pre ++ x :: post ->
     incl pre (keys state) -> ~ In x (keys state) ->
     Console.lengths state Sudoku.boxes = Raised (KeyError x) /\
     Console.display state = Raised (KeyError x)).
Proof.
  split.
  - intros Hk.
    destruct (lengths_spec state Hk) as [ls [Hls [Hlen [Hin Hex]]]].
    destruct ls as [|n ls]; [discriminate Hlen|].
    set (m := fold_left Nat.max ls n).
    assert (Hmax : forall b v, In b Sudoku.boxes -> get state b = Some v ->
                     length v <= m).
    { intros b v Hb Hv. apply fold_max_ge. eapply Hin; eassumption. }
    destruct (@display_rows_lines state (1 + m)
                (Console.join ["+"%char]
                   (repeat (repeat "-"%char ((1 + m) * 3)) 3))
                (9 * (1 + m) + 2)) with (rs := Sudoku.rows) (out := @nil cand)
      as [lines [Hd [Hf Hl]]].
    + intros b v Hb Hv. specialize (Hmax b v Hb Hv). lia.
    + cbn [repeat Console.join]. rewrite !length_app, !repeat_length.
      simpl length. lia.
    + change (length Sudoku.cols) with 9.
      change (length (filter (fun c => mem c (chars "36")) Sudoku.cols))
        with 2. lia.
    + exact Hk.
    + apply incl_refl.
    + constructor.
    + exists lines, (1 + m). unfold Console.display.
      rewrite Hls; cbn [bind Console.py_max]. fold m.
      split; [exact Hd|]. split; [rewrite Hl; reflexivity|].
      split; [exact Hf|]. split.
      * intros b v Hb Hv. specialize (Hmax b v Hb Hv). lia.
      * destruct (Hex m (fold_max_In ls n)) as [b [v [Hb [Hv Em]]]].
        exists b, v. split; [exact Hb|]. split; [exact Hv | lia].
  - intros pre x post E Hpre Hx.
    pose proof (@lengths_missing state x post pre Hpre Hx) as Hl.
    unfold Console.display. rewrite E, Hl. split; reflexivity.
Qed.

Lemma get_reversed (prs : dict (list string)) k :
  get (map (fun kv => (fst kv, rev (snd kv))) prs) k
  = option_map (@rev string) (get prs k).
Proof.
  induction prs as [|[k' ps] prs IH]; simpl; [reflexivity|].
  destruct (String.eqb k' k); [reflexivity | exact IH].
Qed.

(* ================================================================== *)
(** * The order of a set of peers, both ways *)

Lemma same_peers_reversed prs :
  (forall k ps, get prs k = Some ps -> NoDup ps) ->
  same_peers prs (map (fun kv => (fst kv, rev (snd kv))) prs) /\
  same_peers (map (fun kv => (fst kv, rev (snd kv))) prs) prs.
Proof.
  intros Hnd. split; intros k ps H.
  - split; [exact (Hnd k ps H)|]. exists (rev ps).
    split; [rewrite get_reversed, H; reflexivity | apply Permutation_rev].
  - rewrite get_reversed in H.
    destruct (get prs k) as [ps0|] eqn:E; [|discriminate H].
    inversion H; subst ps; clear H. split.
    + apply (Permutation_NoDup (Permutation_rev ps0)). exact (Hnd k ps0 E).
    + exists ps0. split; [reflexivity|].
      apply Permutation_sym. apply Permutation_rev.
Qed.

(** X24. The peers of a variable are a set, and the order in which a set
    is gone through is not fixed.  With two dictionaries that hold the
    same peers for every variable, each once, in whatever order,
    [__eliminate] returns the same state. *)
Theorem eliminate_ignores_the_order_of_peers prs prs' (st st' : State) :
  NoDup (keys st) -> same_peers prs prs' -> same_peers prs' prs ->
  (eliminate prs st = Returned st' <-> eliminate prs' st = Returned st').
Proof.
  intros Hnd H1 H2. split; intros H.
  - exact (@eliminate_order prs prs' st st' Hnd H1 H).
  - exact (@eliminate_order prs' prs st st' Hnd H2 H).
Qed.

Lemma eliminate_ignores_the_order_of_peers_witness :
  eliminate (peers australia_blank) wa_red = Returned wa_red_eliminated <->
  eliminate reversed_peers wa_red = Returned wa_red_eliminated.
Proof.
  assert (Hnd : forall k ps, get (peers australia_blank) k = Some ps ->
                  NoDup ps).
  { intros k ps H.
    change (peers australia_blank)
      with (make_peers Australia.C_map Australia.X_map) in H.
    unfold make_peers in H. rewrite get_dict_of in H.
    destruct (mem_str k Australia.X_map); [|discriminate H].
    inversion H. unfold peers_of. apply NoDup_filter. apply NoDup_dedup. }
  apply (@eliminate_ignores_the_order_of_peers (peers australia_blank)
           reversed_peers wa_red wa_red_eliminated).
  - apply nodupb_NoDup. vm_compute; reflexivity.
  - exact (proj1 (@same_peers_reversed (peers australia_blank) Hnd)).
  - exact (proj2 (@same_peers_reversed (peers australia_blank) Hnd)).
Defined.

(* ================================================================== *)
(** * A contradiction in the initial state *)

(** X25. A contradiction in the initial state is found by the first pass
    of the propagation, without search.  On a well-formed problem whose
    state has an empty candidate string, or a solved variable that holds
    the symbol of one of its solved peers, [solve] makes one reduction and
    no branching, leaves a state with an empty candidate string, and
    returns the flag as it stood: [False] on a solver whose flag was not
    set, [True] on one whose flag was. *)
Theorem contradictory_state_fails_at_once self fuel :
  repository_rules self -> well_formed self ->
  unsolvable_units (internal_state self) = true \/
  peer_clash (peers self) (internal_state self) ->
  exists st1,
    solve (S fuel) self =
    Returned (mkSolver st1 (X self) (D self) (C self) (peers self)
                (solved self) (reduce_funcs self) 1 0, solved self) /\
    unsolvable_units st1 = true /\
    state_le st1 (internal_state self).
Proof.
  intros Hr Hwf Hc.
  pose proof (repository_rules_shrinking Hr) as Hsh.
  destruct (repository_rules_head Hr) as [rest [Hfs Hrest]].
  assert (Hret : returns (apply_rules (reduce_funcs self)
                            (internal_state self))).
  { apply (@returns_apply_rules (keys (internal_state self))).
    - exact Hsh.
    - apply repository_rules_defined; assumption.
    - reflexivity. }
  destruct Hret as [st1 H1].
  pose proof (@apply_rules_le _ _ _ Hsh H1) as Hle.
  assert (Hu : unsolvable_units st1 = true).
  { destruct Hc as [He | [a [ps [b [c [Hps [Hin [Ha Hb]]]]]]]].
    - eapply empty_stays; eassumption.
    - destruct (unsolvable_units st1) eqn:E; [reflexivity|].
      exfalso. apply unsolvable_units_false in E. rewrite Hfs in H1.
      exact (@pass_no_clash (peers self) rest (internal_state self) st1
               a b ps c c Hrest H1 E Hps Hin Ha Hb eq_refl). }
  exists st1. split; [|split; assumption].
  unfold solve. cbn [search]. unfold reduce. cbn [reduce_loop].
  rewrite H1. cbn [bind]. rewrite Hu. cbn [bind negb].
  reflexivity.
Qed.

Lemma contradictory_state_fails_at_once_witness :
  (exists st1,
     solve 1 australia_clash =
     Returned (mkSolver st1 (X australia_clash) (D australia_clash)
                 (C australia_clash) (peers australia_clash) false
                 (reduce_funcs australia_clash) 1 0, false) /\
     unsolvable_units st1 = true /\
     state_le st1 (internal_state australia_clash)) /\
  (exists st1,
     solve 1 australia_clash_marked =
     Returned (mkSolver st1 (X australia_clash) (D australia_clash)
                 (C australia_clash) (peers australia_clash) true
                 (reduce_funcs australia_clash) 1 0, true) /\
     unsolvable_units st1 = true /\
     state_le st1 (internal_state australia_clash)).
Proof.
  split.
  - apply (@contradictory_state_fails_at_once australia_clash 0).
    + left; reflexivity.
    + apply well_formedb_wf. vm_compute; reflexivity.
    + right. exists "WA"%string, ["NT"; "SA"]%string, "NT"%string, "R"%char.
      repeat split; try reflexivity. left; reflexivity.
  - apply (@contradictory_state_fails_at_once australia_clash_marked 0).
    + left; reflexivity.
    + apply well_formedb_wf. vm_compute; reflexivity.
    + right. exists "WA"%string, ["NT"; "SA"]%string, "NT"%string, "R"%char.
      repeat split; try reflexivity. left; reflexivity.
Defined.

(* ================================================================== *)
(** * The map as it is printed *)

Lemma colour_name_known c :
  In c Australia.D_map ->
  exists colour, get MapConsole.D_map_name (String c EmptyString) = Some colour.
Proof.
  intros [<-|[<-|[<-|[]]]]; eexists; reflexivity.
Qed.

Lemma colour_name_unknown c :
  ~ In c Australia.D_map ->
  get MapConsole.D_map_name (String c EmptyString) = None.
Proof.
  intros Hn. unfold MapConsole.D_map_name. cbn [get String.eqb].
  destruct (Ascii.eqb_spec "R" c) as [E|_];
    [exfalso; apply Hn; left; exact E|].
  destruct (Ascii.eqb_spec "B" c) as [E|_];
    [exfalso; apply Hn; right; left; exact E|].
  destruct (Ascii.eqb_spec "G" c) as [E|_];
    [exfalso; apply Hn; right; right; left; exact E|].
  reflexivity.
Qed.

Lemma colour_names_known : forall v,
  incl v Australia.D_map ->
  exists names, MapConsole.colour_names v = inr names /\
    Forall2 (fun c n => exists colour,
               get MapConsole.D_map_name (String c EmptyString) = Some colour
               /\ n = chars colour) v names.
Proof.
  induction v as [|c v IH]; intros Hin.
  - exists []. split; [reflexivity | constructor].
  - destruct (@colour_name_known c (Hin c (or_introl eq_refl))) as [colour Hc].
    destruct IH as [names [Hn HF]].
    { intros y Hy. apply Hin. right; exact Hy. }
    exists (chars colour :: names). cbn [MapConsole.colour_names].
    rewrite Hc, Hn. split; [reflexivity|].
    constructor; [exists colour; auto | exact HF].
Qed.

Lemma colour_names_unknown c v2 : forall v1,
  incl v1 Australia.D_map -> ~ In c Australia.D_map ->
  MapConsole.colour_names (v1 ++ c :: v2)
  = inl (MapConsole.RaisedKeyError (String c EmptyString)).
Proof.
  induction v1 as [|d v1 IH]; intros Hin Hn.
  - cbn [app MapConsole.colour_names].
    rewrite (@colour_name_unknown c Hn). reflexivity.
  - destruct (@colour_name_known d (Hin d (or_introl eq_refl))) as [colour Hc].
    cbn [app MapConsole.colour_names]. rewrite Hc, IH; [reflexivity| |exact Hn].
    intros y Hy. apply Hin. right; exact Hy.
Qed.

Lemma region_name_known k :
  In k Australia.X_map ->
  exists name, get MapConsole.X_name k = Some name /\
               length (MapConsole.ljust (chars name) 20) = 20.
Proof.
  intros [<-|[<-|[<-|[<-|[<-|[<-|[]]]]]]]; eexists; split; reflexivity.
Qed.

Lemma item_line_known k v :
  In k Australia.X_map -> incl v Australia.D_map ->
  exists line, MapConsole.item_line k v = inr line /\ map_line (k, v) line.
Proof.
  intros Hk Hv.
  destruct (@region_name_known k Hk) as [name [Hn Hl]].
  destruct (@colour_names_known v Hv) as [names [Hc HF]].
  eexists. unfold MapConsole.item_line. rewrite Hn, Hc.
  split; [reflexivity|]. exists name, names. auto.
Qed.

Lemma display_items_known : forall (state : State) out,
  (forall k v, In (k, v) state ->
     In k Australia.X_map /\ incl v Australia.D_map) ->
  exists lines,
    MapConsole.display_items state out = (out ++ lines, None) /\
    Forall2 map_line state lines.
Proof.
  induction state as [|[k v] state IH]; intros out Hg.
  - exists []. rewrite app_nil_r. split; [reflexivity | constructor].
  - destruct (Hg k v (or_introl eq_refl)) as [Hk Hv].
    destruct (@item_line_known k v Hk Hv) as [line [Hl Hm]].
    destruct (IH (out ++ [line])) as [lines [Hd HF]].
    { intros k' v' Hin. apply Hg. right; exact Hin. }
    exists (line :: lines). cbn [MapConsole.display_items].
    rewrite Hl, Hd, <- app_assoc. split; [reflexivity|].
    constructor; assumption.
Qed.

(** X26. The map as [display_state_cmd] and [display_org_cmd] print it.
    For a state whose keys are regions and whose candidates are colours,
    one line is printed for every item, in the order of the state: the
    full name of the region in twenty columns, a colon and a space, the
    full names of its colours with commas.  A symbol that is not a colour
    stops the printing with [KeyError] for that symbol, after the lines
    of the items before it.  With no initial state, [display_org_cmd]
    raises [AttributeError]. *)
Theorem map_display_lines :
  (forall state : State,
     (forall k v, In (k, v) state ->
        In k Australia.X_map /\ incl v Australia.D_map) ->
     exists lines,
       MapConsole.display_items state [] = (lines, None) /\
       Forall2 map_line state lines) /\
  (forall (pre post : State) k v1 c v2,
     (forall k' v', In (k', v') pre ->
        In k' Australia.X_map /\ incl v' Australia.D_map) ->
     In k Australia.X_map -> incl v1 Australia.D_map ->
     ~ In c Australia.D_map ->
     exists lines,
       MapConsole.display_items (pre ++ (k, v1 ++ c :: v2) :: post) []
       = (lines, Some (MapConsole.RaisedKeyError (String c EmptyString))) /\
       Forall2 map_line pre lines) /\
  MapConsole.display_org_cmd None
  = ([], Some MapConsole.RaisedAttributeError).
Proof.
  split; [|split; [|reflexivity]].
  - intros state Hg. exact (@display_items_known state [] Hg).
  - intros pre post k v1 c v2 Hpre Hk Hv1 Hc.
    assert (H : forall (pre : State) out,
              (forall k' v', In (k', v') pre ->
                 In k' Australia.X_map /\ incl v' Australia.D_map) ->
              exists lines,
                MapConsole.display_items
                  (pre ++ (k, v1 ++ c :: v2) :: post) out
                = (out ++ lines,
                   Some (MapConsole.RaisedKeyError (String c EmptyString)))
                /\ Forall2 map_line pre lines).
    { clear pre Hpre. induction pre as [|[k' v'] pre IH]; intros out Hg.
      - exists []. rewrite app_nil_r. split; [|constructor].
        cbn [app MapConsole.display_items]. unfold MapConsole.item_line.
        destruct (@region_name_known k Hk) as [name [Hn _]].
        rewrite Hn, (@colour_names_unknown c v2 v1 Hv1 Hc). reflexivity.
      - destruct (Hg k' v' (or_introl eq_refl)) as [Hk' Hv'].
        destruct (@item_line_known k' v' Hk' Hv') as [line [Hl Hm]].
        destruct (IH (out ++ [line])) as [lines [Hd HF]].
        { intros k0 v0 Hin. apply Hg. right; exact Hin. }
        exists (line :: lines). cbn [app MapConsole.display_items].
        rewrite Hl, Hd, <- app_assoc. split; [reflexivity|].
        constructor; assumption. }
    exact (H pre [] Hpre).
Qed.

(* ================================================================== *)
(** * What naked twins removes *)

Lemma twins_nums_confine twin unit : NoDup unit ->
  forall nums S S', incl nums twin ->
  Sudoku.twins_nums twin nums unit S = Returned S' ->
  forall box v, In box unit -> get S box = Some v ->
  exists w, get S' box = Some w /\
    (v = twin -> w = twin) /\
    (v <> twin -> w <> twin /\ incl w v /\ forall n, In n nums -> ~ In n w).
Proof.
  intros Hnd. induction nums as [|num nums IH]; simpl;
    intros S S' Hin H box v Hb Hv.
  - inversion H; subst S'. exists v. split; [exact Hv|].
    split; [auto|]. intros Hn. split; [exact Hn|].
    split; [apply incl_refl | intros n []].
  - inv_bind H. rename a into S1.
    destruct (@twins_boxes_get twin num unit S S1 Hnd Ha) as [Hun _].
    destruct (Hun box Hb) as [v0 [Hv0 Hv1]].
    rewrite Hv in Hv0; inversion Hv0; subst v0; clear Hv0.
    destruct (IH S1 S' (fun y Hy => Hin y (or_intror Hy)) H box _ Hb Hv1)
      as [w [Hw [Hsame Hdiff]]].
    exists w. split; [exact Hw|].
    unfold twin_step in Hsame, Hdiff. split.
    + intros ->. rewrite cand_eqb_refl in Hsame. simpl in Hsame.
      apply Hsame; reflexivity.
    + intros Hn.
      destruct (cand_eqb twin v) eqn:E;
        [apply cand_eqb_eq in E; congruence|].
      simpl in Hdiff.
      assert (Hne : replace_empty v [num] <> twin).
      { intros Eq. apply (@replace_single_gone num v). rewrite Eq.
        apply Hin. left; reflexivity. }
      destruct (Hdiff Hne) as [Hw1 [Hw2 Hw3]].
      split; [exact Hw1|]. split.
      * intros x Hx. exact (proj1 (replace_empty_sub v [num]) x (Hw2 x Hx)).
      * intros n [<-|Hn']; [|exact (Hw3 n Hn')].
        intros Hc. exact (@replace_single_gone num v (Hw2 num Hc)).
Qed.

Lemma twins_loop_confine unit T : NoDup unit ->
  forall twins S S', In T twins ->
  Sudoku.twins_loop twins unit S = Returned S' ->
  forall box w, In box unit -> get S' box = Some w ->
  incl w T \/ (forall x, In x T -> ~ In x w).
Proof.
  intros Hnd. induction twins as [|t twins IH]; simpl;
    intros S S' Hin H box w Hb Hw; [contradiction|].
  inv_bind H. rename a into S1.
  destruct Hin as [->|Hin]; [|exact (IH S1 S' Hin H box w Hb Hw)].
  pose proof (twins_loop_le _ _ _ H) as Hle.
  destruct (state_le_get_rev _ Hle Hw) as [w1 [Hw1 [Hincl _]]].
  pose proof (twins_nums_le _ _ _ _ Ha) as Hle1.
  destruct (state_le_get_rev _ Hle1 Hw1) as [v [Hv _]].
  destruct (@twins_nums_confine T unit Hnd T S S1 (incl_refl T) Ha box v
              Hb Hv) as [w1' [Hw1' [Hsame Hdiff]]].
  rewrite Hw1 in Hw1'; inversion Hw1'; subst w1'; clear Hw1'.
  destruct (list_eq_dec ascii_dec v T) as [E|E].
  - left. rewrite (Hsame E) in Hincl. exact Hincl.
  - right. destruct (Hdiff E) as [_ [_ Hno]].
    intros x HxT Hxw. exact (Hno x HxT (Hincl x Hxw)).
Qed.

(** X27. What [naked_twins] removes.  Let a unit without repetition be
    reached in a state [S], and let [T] be one of its twins there: a
    string of two candidates that exactly two of its boxes hold.  In the
    state [naked_twins] returns, a box of that unit has candidates among
    those of [T] only, or none of them. *)
Theorem naked_twins_confines_the_twins before unit after st S st' pairs T
  box w :
  NoDup unit ->
  Sudoku.naked_twins_units before st = Returned S ->
  Sudoku.pair_values unit S = Returned pairs ->
  In T (Sudoku.twins_of pairs) ->
  Sudoku.naked_twins (before ++ unit :: after) st = Returned st' ->
  In box unit -> get st' box = Some w ->
  incl w T \/ (forall x, In x T -> ~ In x w).
Proof.
  intros Hnd Hb Hp HT H Hbox Hw.
  unfold Sudoku.naked_twins in H.
  assert (Hsplit : forall bs s, Sudoku.naked_twins_units bs s = Returned S ->
            Sudoku.naked_twins_units (bs ++ unit :: after) s = Returned st' ->
            Sudoku.naked_twins_units (unit :: after) S = Returned st').
  { induction bs as [|b bs IH]; intros s Hs Hall.
    - simpl in Hs. inversion Hs; subst s. exact Hall.
    - cbn [app Sudoku.naked_twins_units] in Hs, Hall.
      inv_bind Hs. inv_bind Hs. rewrite Ha in Hall; cbn [bind] in Hall.
      rewrite Ha0 in Hall; cbn [bind] in Hall. exact (IH _ Hs Hall). }
  pose proof (Hsplit before st Hb H) as Hu.
  cbn [Sudoku.naked_twins_units] in Hu.
  rewrite Hp in Hu; cbn [bind] in Hu. inv_bind Hu. rename a into S1.
  pose proof (naked_twins_units_le _ _ Hu) as Hle.
  destruct (state_le_get_rev _ Hle Hw) as [w1 [Hw1 [Hincl _]]].
  destruct (@twins_loop_confine unit T Hnd (Sudoku.twins_of pairs) S S1 HT Ha
              box w1 Hbox Hw1) as [H1|H1].
  - left. intros y Hy. exact (H1 y (Hincl y Hy)).
  - right. intros x HxT Hxw. exact (H1 x HxT (Hincl x Hxw)).
Qed.

Lemma naked_twins_confines_the_twins_witness :
  incl (chars "3") (chars "12") \/
  (forall x, In x (chars "12") -> ~ In x (chars "3")).
Proof.
  apply (@naked_twins_confines_the_twins [] ["A"; "B"; "C"]%string []
           twins_before twins_before twins_after
           [chars "12"; chars "12"] (chars "12") "C"%string (chars "3")).
  - apply nodupb_NoDup. vm_compute; reflexivity.
  - reflexivity.
  - vm_compute; reflexivity.
  - vm_compute. left; reflexivity.
  - vm_compute; reflexivity.
  - right; right; left; reflexivity.
  - reflexivity.
Defined.

(* ================================================================== *)
(** * Failure and the exhausted search *)

Lemma reduce_loop_agree funcs fuel1 fuel2 st r1 r2 :
  reduce_loop funcs fuel1 st = Returned r1 ->
  reduce_loop funcs fuel2 st = Returned r2 -> r1 = r2.
Proof.
  intros H1 H2.
  assert (E1 : reduce_loop funcs (max fuel1 fuel2) st = Returned r1).
  { eapply reduce_loop_more_fuel; [exact H1 | discriminate | lia]. }
  assert (E2 : reduce_loop funcs (max fuel1 fuel2) st = Returned r2).
  { eapply reduce_loop_more_fuel; [exact H2 | discriminate | lia]. }
  congruence.
Qed.

Lemma tried_falsy rec st s vals cnt r cnt' :
  tried rec st s vals cnt r cnt' -> truthy r = false ->
  forall val new, In val vals -> assign_value st s [val] = Returned new ->
  exists c st2 a c', rec new c = Returned (st2, a, c') /\ truthy a = false.
Proof.
  induction 1 as [cnt | val0 vals cnt new0 st1 attempt cnt1 Hass Hrec Htr
                 | val0 vals cnt new0 st1 attempt cnt1 r cnt' Hass Hrec Htr
                     Hrest IH];
    intros Hf val new Hin Hnew.
  - destruct Hin.
  - congruence.
  - destruct Hin as [<-|Hin].
    + rewrite Hass in Hnew. inversion Hnew; subst.
      exists cnt, st1, attempt, cnt1. split; assumption.
    + eapply IH; eassumption.
Qed.

Lemma tried_all_falsy rec st s vals cnt r cnt' :
  tried rec st s vals cnt r cnt' ->
  (forall val new, In val vals -> assign_value st s [val] = Returned new ->
   forall c st2 a c', rec new c = Returned (st2, a, c') ->
                      truthy a = false) ->
  truthy r = false.
Proof.
  induction 1 as [cnt | val0 vals cnt new0 st1 attempt cnt1 Hass Hrec Htr
                 | val0 vals cnt new0 st1 attempt cnt1 r cnt' Hass Hrec Htr
                     Hrest IH];
    intros Hall.
  - reflexivity.
  - rewrite (Hall val0 new0 (or_introl eq_refl) Hass _ _ _ _ Hrec) in Htr.
    discriminate Htr.
  - apply IH. intros val new Hin. apply Hall. right; assumption.
Qed.

Lemma search_falsy_exhausted funcs xs : Forall shrinking funcs ->
  forall fuel st cnt st' r cnt', st <> [] ->
  search funcs xs fuel st cnt = Returned (st', r, cnt') ->
  truthy r = false -> exhausted funcs xs st.
Proof.
  intros HF. induction fuel as [|fuel IH]; intros st cnt st' r cnt' Hne H Hf;
    [discriminate H|].
  apply search_unfold in H.
  inversion H as [ ? Hred | ? Hred Hall
                 | ? pairs n s vals ? ? Hred Hall Hpairs Hmin Hget Htried ];
    subst.
  - eapply exhausted_infeasible; eassumption.
  - exfalso. simpl in Hf. apply negb_false_iff in Hf.
    pose proof (state_le_length (reduce_loop_le HF _ _ Hred)) as Hl.
    destruct st'; [|discriminate Hf]. destruct st; [congruence|discriminate Hl].
  - pose proof (reduce_loop_le HF _ _ Hred) as Hle.
    eapply exhausted_branches; try eassumption.
    intros val new Hin Hass.
    destruct (tried_falsy Htried Hf val Hin Hass)
      as [c [st2 [a [c' [Hrec Ha]]]]].
    eapply IH; [|exact Hrec|exact Ha].
    pose proof (assign_value_keys _ _ _ Hass) as Hk.
    pose proof (state_le_keys Hle) as Hk'.
    intros ->. simpl in Hk. rewrite Hk' in Hk.
    destruct st; [congruence|discriminate Hk].
Qed.

Lemma exhausted_falsy funcs xs st :
  exhausted funcs xs st ->
  forall fuel cnt st' r cnt',
  search funcs xs fuel st cnt = Returned (st', r, cnt') -> truthy r = false.
Proof.
  induction 1 as [st fuel0 st1 Hred0
                 | st fuel0 st1 pairs0 n0 s0 vals0 Hred0 Hall0 Hpairs0 Hmin0
                     Hget0 Hbelow IH];
    intros fuel cnt st' r cnt' H;
    (destruct fuel as [|fuel]; [discriminate H|]);
    apply search_unfold in H;
    inversion H as [ ? Hred | ? Hred Hall
                   | ? pairs n s vals ? ? Hred Hall Hpairs Hmin Hget Htried ];
    subst; try reflexivity;
    pose proof (@reduce_loop_agree _ _ _ _ _ _ Hred0 Hred) as E;
    inversion E; subst.
  - congruence.
  - rewrite Hpairs0 in Hpairs. inversion Hpairs; subst.
    rewrite Hmin0 in Hmin. inversion Hmin; subst.
    rewrite Hget0 in Hget. inversion Hget; subst.
    eapply tried_all_falsy; [exact Htried|].
    intros val new Hin Hass c st2 a c' Hrec.
    eapply IH; eassumption.
Qed.

Lemma search_prunes funcs xs fuel st1 s val vals new st2 cnt :
  assign_value st1 s [val] = Returned new ->
  reduce_loop funcs (S fuel) new = Returned (st2, false) ->
  try_values (search funcs xs (S fuel)) st1 s (val :: vals) cnt =
  try_values (search funcs xs (S fuel)) st1 s vals
    (mkCounts (reduces cnt + 1) (searches cnt)).
Proof.
  intros Hass Hred. cbn [try_values]. rewrite Hass. cbn [bind].
  cbn [search]. unfold reduce. rewrite Hred. cbn [bind negb truthy].
  reflexivity.
Qed.

Lemma sudoku_dead_end_init :
  Sudoku.init dead_end_grid false = Some sudoku_dead_end.
Proof.
  unfold sudoku_dead_end, Sudoku.init.
  destruct (Sudoku.grid_values dead_end_grid) eqn:G; [reflexivity|].
  vm_compute in G. discriminate G.
Qed.

(** A solver the Sudoku adapter builds meets every proviso. *)
Lemma sudoku_provisos grid diag self :
  Sudoku.init grid diag = Some self ->
  solved self = false /\ repository_rules self /\ well_formed self /\
  peers_cover (C self) (peers self) /\
  (forall g, In g (C self) -> incl g (X self)) /\
  NoDup (keys (internal_state self)) /\ internal_state self <> [] /\
  peers_from_groups (C self) (peers self) /\
  exact_groups (C self) (D self) /\
  (forall k v, get (internal_state self) k = Some v -> incl v (D self)).
Proof.
  intros H.
  destruct (sudoku_setup _ _ H)
    as [Hs [Hr [HX [HD [HC [HP [HK Hdom]]]]]]].
  assert (Hgx : forall g, In g (C self) -> incl g (X self)).
  { rewrite HC, HX. apply forallb_incl.
    destruct diag; vm_compute; reflexivity. }
  destruct (@derived_peers_well_formed self) as [Hwf [Hcov Hpg]];
    [rewrite HP, HC, HX; reflexivity | congruence | exact Hgx |].
  split; [exact Hs|]. split; [exact Hr|]. split; [exact Hwf|].
  split; [exact Hcov|]. split; [exact Hgx|].
  split; [rewrite HK; apply nodupb_NoDup; vm_compute; reflexivity|].
  split; [intros E; rewrite E in HK; discriminate HK|].
  split; [exact Hpg|]. split; [|rewrite HD; exact Hdom].
  rewrite HC, HD. apply exact_groupsb_exact.
  destruct diag; vm_compute; reflexivity.
Qed.

Lemma dead_end_fails :
  exists self', solve 90 sudoku_dead_end = Returned (self', false).
Proof.
  assert (E : match solve 90 sudoku_dead_end with
              | Returned (_, b) => Some b
              | _ => None
              end = Some false) by (vm_compute; reflexivity).
  destruct (solve 90 sudoku_dead_end) as [[s b]| |]; try discriminate E.
  inversion E; subst. exists s; reflexivity.
Qed.

(** C2, as the code has it.  On a well-formed problem, with the rules of
    the repository and the flag not set, [solve] returns a value.  With
    peers that cover the groups and groups made of variables of [X], a
    successful [solve] exhibits a consistent assignment within the initial
    candidates, so on a problem that has none [solve] returns [False].
    The converse needs only-choice to be sound: when the keys of the state
    are distinct, every group has as many different variables as the
    alphabet has different symbols, the peers hold nothing but the groups
    and the candidates are symbols of the alphabet, a [solve] that returns
    [False] means that no consistent assignment exists.  On a state that
    is not empty, [solve] returns [False] only when the search is
    exhausted, every branch having ended on an empty candidate string, and
    it does return [False] then.  A branch whose propagation met an empty
    candidate string is counted as one reduction, and the loop over the
    values goes on with the next value. *)
Theorem solve_failure_and_assignments self :
  solved self = false ->
  repository_rules self ->
  well_formed self ->
  (exists self' b,
     forall fuel, unsolved_count (internal_state self) < fuel ->
       solve fuel self = Returned (self', b)) /\
  (peers_cover (C self) (peers self) ->
   (forall g, In g (C self) -> incl g (X self)) ->
   (forall fuel self',
      solve fuel self = Returned (self', true) -> solvable self) /\
   (~ solvable self ->
    exists self',
      forall fuel, unsolved_count (internal_state self) < fuel ->
        solve fuel self = Returned (self', false))) /\
  (NoDup (keys (internal_state self)) -> internal_state self <> [] ->
   peers_from_groups (C self) (peers self) ->
   exact_groups (C self) (D self) ->
   (forall k v, get (internal_state self) k = Some v -> incl v (D self)) ->
   forall fuel self',
     solve fuel self = Returned (self', false) -> ~ solvable self) /\
  (internal_state self <> [] ->
   forall fuel self',
     solve fuel self = Returned (self', false) ->
     exhausted (reduce_funcs self) (X self) (internal_state self)) /\
  (exhausted (reduce_funcs self) (X self) (internal_state self) ->
   exists self',
     forall fuel, unsolved_count (internal_state self) < fuel ->
       solve fuel self = Returned (self', false)) /\
  (forall fuel st1 s val vals new st2 cnt,
     assign_value st1 s [val] = Returned new ->
     reduce_loop (reduce_funcs self) (S fuel) new = Returned (st2, false) ->
     try_values (search (reduce_funcs self) (X self) (S fuel))
       st1 s (val :: vals) cnt =
     try_values (search (reduce_funcs self) (X self) (S fuel))
       st1 s vals (mkCounts (reduces cnt + 1) (searches cnt))).
Proof.
  intros Hs Hr Hwf.
  pose proof (repository_rules_shrinking Hr) as HS.
  destruct (solve_returns Hr Hwf) as [self0 [b0 Hret]].
  split; [exists self0, b0; exact Hret|].
  split; [|split; [|split; [|split]]].
  - intros Hcover Hgx.
    assert (Hsucc : forall fuel self',
               solve fuel self = Returned (self', true) -> solvable self).
    { intros fuel self' H.
      destruct (solve_success_solvable _ Hs Hr Hcover Hgx H) as [Hc Hw].
      exists (assignment_of (internal_state self')); auto. }
    split; [exact Hsucc|].
    intros Hno. exists self0. destruct b0; [|exact Hret].
    exfalso. apply Hno.
    apply (Hsucc (S (unsolved_count (internal_state self))) self0).
    apply Hret. lia.
  - intros Hnd Hnil Hpg Hex Hdom fuel self' H.
    eapply solve_false_unsolvable; try eassumption. apply Hwf.
  - intros Hnil fuel self' H.
    destruct (solve_false _ _ H) as [st1 [r [cnt [Hsearch [Hf _]]]]].
    eapply search_falsy_exhausted; eassumption.
  - intros Hex. exists self0. destruct b0; [|exact Hret].
    exfalso.
    specialize (Hret (S (unsolved_count (internal_state self)))
                  ltac:(lia)).
    destruct (@solve_true _ _ _ Hs Hret) as [st1 [d [cnt [Hsearch [Hd _]]]]].
    pose proof (exhausted_falsy Hex _ _ Hsearch) as Hf.
    simpl in Hf. rewrite Hd in Hf. discriminate Hf.
  - intros fuel st1 s val vals new st2 cnt. apply search_prunes.
Qed.

Lemma solve_failure_and_assignments_witness :
  solvable australia_blank /\
  (exists self',
     forall fuel, unsolved_count (internal_state australia_clash) < fuel ->
       solve fuel australia_clash = Returned (self', false)) /\
  ~ solvable sudoku_dead_end /\
  exhausted (reduce_funcs sudoku_dead_end) (X sudoku_dead_end)
    (internal_state sudoku_dead_end) /\
  (exists self',
     forall fuel, unsolved_count (internal_state sudoku_dead_end) < fuel ->
       solve fuel sudoku_dead_end = Returned (self', false)).
Proof.
  destruct (@sudoku_provisos _ _ _ sudoku_dead_end_init)
    as [Hs [Hr [Hwf [Hcov [Hgx [Hnd [Hnil [Hpg [Hex Hdom]]]]]]]]].
  destruct dead_end_fails as [s1 Hs1].
  destruct (@solve_failure_and_assignments sudoku_dead_end Hs Hr Hwf)
    as [_ [_ [H3 [H4 [H5 _]]]]].
  destruct (@solve_failure_and_assignments australia_blank eq_refl
              (or_introl eq_refl)
              (well_formedb_wf australia_blank eq_refl))
    as [_ [H2 _]].
  destruct (@solve_failure_and_assignments australia_clash eq_refl
              (or_introl eq_refl)
              (well_formedb_wf australia_clash eq_refl))
    as [_ [H2' _]].
  split; [|split; [|split; [|split]]].
  - refine (proj1 (H2 _ _) 10 australia_coloured _).
    + apply peers_coverb_cover; vm_compute; reflexivity.
    + apply forallb_incl; vm_compute; reflexivity.
    + vm_compute; reflexivity.
  - refine (proj2 (H2' _ _) australia_clash_unsolvable).
    + apply peers_coverb_cover; vm_compute; reflexivity.
    + apply forallb_incl; vm_compute; reflexivity.
  - exact (H3 Hnd Hnil Hpg Hex Hdom 90 s1 Hs1).
  - exact (H4 Hnil 90 s1 Hs1).
  - exact (H5 (H4 Hnil 90 s1 Hs1)).
Defined.

(* ================================================================== *)
(** * The second call *)

Lemma state_rel_eq R (st' st : State) :
  state_rel R st' st -> NoDup (keys st) ->
  (forall k v v', get st k = Some v -> get st' k = Some v' -> R v' v ->
                  v' = v) ->
  st' = st.
Proof.
  unfold keys.
  induction 1 as [|[k1 v1] [k2 v2] l l' [Hk Hr] Hl IH]; intros Hnd Hp.
  - reflexivity.
  - simpl in Hk, Hr. subst k2. simpl in Hnd.
    inversion Hnd as [|? ? Hnotin Hnd']; subst.
    assert (E : v1 = v2).
    { apply (Hp k1); simpl; try rewrite String.eqb_refl; auto. }
    subst v2. f_equal. apply IH; [assumption|].
    intros k v v' Hv Hv' HR. apply (Hp k); simpl; try assumption.
    + destruct (String.eqb k1 k) eqn:E; [|assumption].
      apply String.eqb_eq in E. subst k. exfalso. apply Hnotin.
      apply get_In in Hv. apply in_map_iff. exists (k1, v); auto.
    + destruct (String.eqb k1 k) eqn:E; [|assumption].
      apply String.eqb_eq in E. subst k. exfalso. apply Hnotin.
      apply get_In in Hv. apply in_map_iff. exists (k1, v); auto.
Qed.

Lemma eliminate_items_peers prs i : forall items st st',
  eliminate_items prs items st = Returned st' -> In i items ->
  exists ps, get prs i = Some ps.
Proof.
  induction items as [|item items IH]; simpl; intros st st' H Hin;
    [contradiction|].
  inv_bind H. inv_bind H. inv_bind H. apply getitem_Returned in Ha0.
  destruct Hin as [<-|Hin]; [eauto | eapply IH; eassumption].
Qed.

(** With the two base rules, a pass that solved nothing and emptied
    nothing has left a state the pass does not change. *)
Lemma base_pass_fixed prs units dom st0 st1 :
  NoDup (keys st0) ->
  pass [eliminate prs; only_choice units dom] st0 st1 ->
  solved_units_count st0 = solved_units_count st1 -> no_empty st1 ->
  pass [eliminate prs; only_choice units dom] st1 st1.
Proof.
  intros Hnd Hp Hc Hne. unfold pass in *. simpl in Hp.
  inv_bind Hp. rename a into e, Ha into He. inv_bind Hp.
  inversion Hp; subst a; clear Hp. rename Ha into Ho.
  pose proof (eliminate_shrinking _ _ He) as Hle0.
  pose proof (only_choice_shrinking _ _ _ Ho) as Hle1.
  pose proof (no_empty_up Hle1 Hne) as Hnee.
  pose proof (solved_count_mono Hle0 Hnee) as M0.
  pose proof (solved_count_mono Hle1 Hne) as M1.
  assert (Hke : keys e = keys st0) by (apply state_le_keys; assumption).
  assert (Hnde : NoDup (keys e)) by (rewrite Hke; assumption).
  assert (E1 : st1 = e).
  { apply (@state_rel_eq _ st1 e
             (@solved_count_same st1 e Hle1 Hne ltac:(lia)) Hnde).
    intros k v v' Hv Hv' HR.
    destruct (only_choice_units_effect _ _ _ Ho k Hv) as [w [Hw Hs]].
    rewrite Hv' in Hw. inversion Hw; subst w.
    destruct Hs as [->|[u [-> _]]]; [reflexivity|].
    symmetry. apply HR. reflexivity. }
  subst st1.
  assert (E0 : eliminate prs e = Returned e).
  { unfold eliminate. apply eliminate_items_id. intros i Hi.
    destruct (@solved_units_get _ _ Hnde Hi) as [c Hc'].
    pose proof (@solved_count_same e st0 Hle0 Hnee ltac:(lia)) as Hsame.
    destruct (@state_rel_get_rev _ _ _ _ _ Hsame Hc') as [v0 [Hv0 Hv0']].
    specialize (Hv0' eq_refl). subst v0.
    pose proof (@In_solved_units _ _ _ Hv0) as Hi0.
    unfold eliminate in He.
    destruct (@eliminate_items_peers _ _ _ _ _ He Hi0) as [ps Hps].
    exists c, ps. split; [assumption|]. split; [assumption|].
    intros p Hp.
    exact (@eliminate_items_removes prs i c ps p Hps Hp _ _ _ He Hnee
             Hi0 Hv0). }
  simpl. rewrite E0; simpl. rewrite Ho; simpl. reflexivity.
Qed.

Lemma base_reduce_fixed prs units dom fuel st st1 :
  NoDup (keys st) ->
  reduce_loop [eliminate prs; only_choice units dom] fuel st
    = Returned (st1, true) ->
  forall fuel', reduce_loop [eliminate prs; only_choice units dom]
                  (S fuel') st1 = Returned (st1, true).
Proof.
  intros Hnd H fuel'.
  assert (HF : Forall shrinking [eliminate prs; only_choice units dom]).
  { repeat constructor;
      auto using eliminate_shrinking, only_choice_shrinking. }
  destruct (reduce_loop_final HF _ _ H) as [st0 [Hle [Hp [Hc Hne]]]].
  assert (Hnd0 : NoDup (keys st0)).
  { rewrite (state_le_keys Hle). assumption. }
  pose proof (base_pass_fixed Hnd0 Hp Hc Hne) as Hfix.
  unfold pass in Hfix. cbn [reduce_loop]. rewrite Hfix. cbn [bind].
  apply unsolvable_units_false in Hne. rewrite Hne, Nat.eqb_refl.
  reflexivity.
Qed.

Lemma search_from_stalled funcs xs fuel st st1 cnt :
  reduce_loop funcs (S fuel) st = Returned (st1, true) ->
  reduce_loop funcs (S fuel) st1 = Returned (st1, true) ->
  search funcs xs (S fuel) st1 cnt = search funcs xs (S fuel) st cnt.
Proof.
  intros H H1. cbn [search]. unfold reduce. rewrite H, H1. reflexivity.
Qed.

Lemma solve_with_empty self :
  repository_rules self -> well_formed self ->
  unsolvable_units (internal_state self) = true ->
  exists st1,
    (forall fuel,
       solve (S fuel) self =
       Returned (mkSolver st1 (X self) (D self) (C self) (peers self)
                   (solved self) (reduce_funcs self) 1 0, solved self)) /\
    unsolvable_units st1 = true /\
    state_le st1 (internal_state self).
Proof.
  intros Hr Hwf Hu.
  pose proof (repository_rules_shrinking Hr) as Hsh.
  destruct (@returns_apply_rules (keys (internal_state self))
              (reduce_funcs self) (internal_state self) Hsh
              (repository_rules_defined Hr Hwf) eq_refl) as [st1 H1].
  pose proof (@apply_rules_le _ _ _ Hsh H1) as Hle.
  pose proof (empty_stays Hle Hu) as Hu1.
  exists st1. split; [|split; assumption]. intros fuel.
  unfold solve. cbn [search]. unfold reduce. cbn [reduce_loop].
  rewrite H1. cbn [bind]. rewrite Hu1. cbn [bind negb]. reflexivity.
Qed.

Lemma well_formed_same self self' :
  X self' = X self -> C self' = C self -> peers self' = peers self ->
  keys (internal_state self') = keys (internal_state self) ->
  well_formed self -> well_formed self'.
Proof.
  unfold well_formed. intros -> -> -> ->. auto.
Qed.

Lemma repository_rules_same self self' :
  C self' = C self -> D self' = D self -> peers self' = peers self ->
  reduce_funcs self' = reduce_funcs self ->
  repository_rules self -> repository_rules self'.
Proof.
  unfold repository_rules, sudoku_rules, base_rules.
  intros -> -> -> ->. auto.
Qed.

Lemma within_le sigma st' st :
  state_le st' st -> within sigma st' -> within sigma st.
Proof.
  intros Hle Hw k v Hv.
  destruct (state_le_get _ Hle Hv) as [v' [Hv' [Hi _]]].
  apply Hi. apply Hw. assumption.
Qed.

(** On the blank map the first call counts three propagations and two
    branchings, the second one propagation and none; on the grid with no
    solution the first call counts three propagations and one branching,
    the second one propagation and none. *)
Lemma repeated_solve_counts_differ :
  ~ repeated_solve_same australia_blank 10 /\
  ~ repeated_solve_same sudoku_dead_end 90.
Proof.
  split; intros H.
  - destruct (H australia_coloured true
                (mkSolver (internal_state australia_coloured)
                   Australia.X_map Australia.D_map Australia.C_map
                   (make_peers Australia.C_map Australia.X_map) true
                   (reduce_funcs australia_blank) 1 0) true)
      as [_ [Hr _]].
    + vm_compute; reflexivity.
    + vm_compute; reflexivity.
    + simpl in Hr. discriminate Hr.
  - assert (E1 : report (solve 90 sudoku_dead_end) = Some (false, 3, 1))
      by (vm_compute; reflexivity).
    assert (E2 : report ('(self1, _) <- solve 90 sudoku_dead_end ;;
                         solve 90 self1) = Some (false, 1, 0))
      by (vm_compute; reflexivity).
    destruct (solve 90 sudoku_dead_end) as [[s1 b1]| |] eqn:S1;
      try discriminate E1.
    cbn [bind] in E2.
    destruct (solve 90 s1) as [[s2 b2]| |] eqn:S2; try discriminate E2.
    destruct (H s1 b1 s2 b2 S1 S2) as [_ [Hr _]].
    simpl in E1, E2. inversion E1. inversion E2. congruence.
Qed.

(** C4, as the code has it.  On a solver whose flag is not set, with the
    rules of the repository.  [solve] sets both counters to zero before it
    searches, so what it returns does not depend on the counts the solver
    held; but it searches from the state the solver holds and writes into
    it.  After a call that returned [True] (keys distinct, all of them
    variables of [X]) a further call returns [True] with the same state,
    after one propagation and no branching, whatever the first call
    counted.  After a call that returned [False] and left an empty
    candidate string (well-formed problem), both calls count one
    propagation and no branching and the further call returns [False].
    After a call that returned [False] and left none, with the two base
    rules and distinct keys, the further call returns [False] and leaves
    the solver as it is, counts included.  With either list of rules, on
    a well-formed problem that meets the assumptions under which failure
    means that no assignment exists, the further call returns [False]. *)
Theorem solve_again self :
  solved self = false ->
  repository_rules self ->
  (forall fuel rc sc,
     solve fuel (mkSolver (internal_state self) (X self) (D self) (C self)
                   (peers self) (solved self) (reduce_funcs self) rc sc)
     = solve fuel self) /\
  (NoDup (keys (internal_state self)) ->
   incl (keys (internal_state self)) (X self) ->
   forall fuel self',
     solve fuel self = Returned (self', true) ->
     forall fuel2,
       solve (S fuel2) self' =
       Returned (mkSolver (internal_state self') (X self) (D self) (C self)
                   (peers self) true (reduce_funcs self) 1 0, true)) /\
  (well_formed self ->
   forall fuel self',
     solve fuel self = Returned (self', false) ->
     unsolvable_units (internal_state self') = true ->
     reduce_count self' = 1 /\ search_count self' = 0 /\
     exists st2,
       state_le st2 (internal_state self') /\
       forall fuel2,
         solve (S fuel2) self' =
         Returned (mkSolver st2 (X self) (D self) (C self) (peers self)
                     false (reduce_funcs self) 1 0, false)) /\
  (reduce_funcs self = base_rules self ->
   NoDup (keys (internal_state self)) ->
   forall fuel self',
     solve fuel self = Returned (self', false) ->
     unsolvable_units (internal_state self') = false ->
     solve fuel self' = Returned (self', false)) /\
  (well_formed self ->
   peers_cover (C self) (peers self) ->
   (forall g, In g (C self) -> incl g (X self)) ->
   NoDup (keys (internal_state self)) -> internal_state self <> [] ->
   peers_from_groups (C self) (peers self) ->
   exact_groups (C self) (D self) ->
   (forall k v, get (internal_state self) k = Some v -> incl v (D self)) ->
   forall fuel self',
     solve fuel self = Returned (self', false) ->
     exists self'',
       state_le (internal_state self'') (internal_state self') /\
       forall fuel2, unsolved_count (internal_state self') < fuel2 ->
         solve fuel2 self' = Returned (self'', false)).
Proof.
  intros Hs Hr.
  pose proof (repository_rules_shrinking Hr) as HF.
  split; [reflexivity|]. split; [|split; [|split]].
  - intros Hnd Hi fuel self' H fuel2.
    destruct (@solve_true _ _ _ Hs H) as [st1 [d [cnt [Hsearch [Hd ->]]]]].
    pose proof (@search_success _ _ HF _ _ _ _ _ _ Hsearch) as Hres.
    assert (Hk : keys d = keys (internal_state self)).
    { apply state_le_keys. apply Hres. }
    assert (Hfix : pass (reduce_funcs self) d d /\ no_empty d).
    { eapply search_result_fixed; try eassumption; rewrite Hk; assumption. }
    destruct Hfix as [Hp Hne].
    unfold solve. cbn [internal_state X reduce_funcs D C peers solved].
    rewrite (@search_fixed _ _ _ _ _ Hp Hne (proj1 Hres)).
    cbn [bind truthy]. rewrite Hd. reflexivity.
  - intros Hwf fuel self' H Hu.
    destruct (solve_false _ _ H) as [st1 [r [cnt [Hsearch [Hf [_ ->]]]]]].
    cbn [internal_state reduce_count search_count] in *.
    destruct fuel as [|fuel]; [discriminate Hsearch|].
    apply search_unfold in Hsearch.
    assert (Hcnt : reduces cnt = 1 /\ searches cnt = 0).
    { inversion Hsearch as [ ? Hred | ? Hred Hall
                  | ? ? ? ? ? ? ? Hred Hall Hpairs Hmin Hget Htried ];
        subst; [simpl; auto | |];
        destruct (reduce_loop_final HF _ _ Hred) as [_ [_ [_ [_ Hne]]]];
        apply unsolvable_units_false in Hne; congruence. }
    destruct Hcnt as [-> ->]. split; [reflexivity|]. split; [reflexivity|].
    assert (Hle : state_le st1 (internal_state self)).
    { inversion Hsearch; subst; eapply reduce_loop_le; eassumption. }
    set (self1 := mkSolver st1 (X self) (D self) (C self) (peers self) false
                    (reduce_funcs self) 1 0).
    assert (Hr1 : repository_rules self1).
    { apply (@repository_rules_same self); auto. }
    assert (Hwf1 : well_formed self1).
    { apply (@well_formed_same self); auto.
      apply state_le_keys; exact Hle. }
    destruct (@solve_with_empty self1 Hr1 Hwf1 Hu) as [st2 [H2 [_ Hle2]]].
    exists st2. split; [exact Hle2|]. exact H2.
  - intros Hbase Hnd fuel self' H Hu.
    destruct (solve_false _ _ H) as [st1 [r [cnt [Hsearch [Hf [_ ->]]]]]].
    cbn [internal_state] in Hu.
    destruct fuel as [|fuel]; [discriminate Hsearch|].
    pose proof Hsearch as Hstep. apply search_unfold in Hstep.
    assert (Hred : reduce_loop (reduce_funcs self) (S fuel)
                     (internal_state self) = Returned (st1, true)).
    { inversion Hstep as [ ? Hred | ? Hred Hall
                  | ? ? ? ? ? ? ? Hred Hall Hpairs Hmin Hget Htried ];
        subst; try assumption.
      apply reduce_loop_false in Hred. congruence. }
    assert (Hred1 : reduce_loop (reduce_funcs self) (S fuel) st1
                    = Returned (st1, true)).
    { rewrite Hbase in *. unfold base_rules in *.
      eapply base_reduce_fixed; eassumption. }
    unfold solve. cbn [internal_state X reduce_funcs D C peers solved].
    rewrite (@search_from_stalled _ (X self) _ _ _ (mkCounts 0 0) Hred Hred1),
      Hsearch.
    cbn [bind].
    destruct r as [| |d]; try reflexivity.
    rewrite Hf. reflexivity.
  - intros Hwf Hcover Hgx Hnd Hnil Hpg Hex Hdom fuel self' H.
    destruct (solve_false _ _ H) as [st1 [r [cnt [Hsearch [Hf [_ E]]]]]].
    pose proof (@search_le _ (X self) HF _ _ _ _ _ _ Hsearch) as Hle.
    assert (HI : internal_state self' = st1) by (rewrite E; reflexivity).
    assert (HX : X self' = X self) by (rewrite E; reflexivity).
    assert (HC : C self' = C self) by (rewrite E; reflexivity).
    assert (HD : D self' = D self) by (rewrite E; reflexivity).
    assert (HP : peers self' = peers self) by (rewrite E; reflexivity).
    assert (HR : reduce_funcs self' = reduce_funcs self)
      by (rewrite E; reflexivity).
    assert (HS : solved self' = false) by (rewrite E; reflexivity).
    clear E. rewrite <- HI in Hle.
    assert (Hr1 : repository_rules self').
    { apply (@repository_rules_same self); auto. }
    assert (Hwf1 : well_formed self').
    { apply (@well_formed_same self); auto.
      apply state_le_keys; exact Hle. }
    destruct (solve_returns Hr1 Hwf1) as [self'' [b Hret]].
    assert (Hb : b = false).
    { destruct b; [|reflexivity]. exfalso.
      specialize (Hret (S (unsolved_count (internal_state self')))
                    ltac:(lia)).
      assert (Hsolv : solvable self).
      { destruct (@solve_success_solvable self'
                    (S (unsolved_count (internal_state self'))) self'' HS Hr1)
          as [Hc Hw]; [rewrite HC, HP; exact Hcover
                      | rewrite HC, HX; exact Hgx | exact Hret |].
        exists (assignment_of (internal_state self'')).
        split; [rewrite <- HC; exact Hc|].
        eapply within_le; [exact Hle | exact Hw]. }
      revert Hsolv.
      eapply solve_false_unsolvable; try eassumption. apply Hwf. }
    subst b. exists self''. split; [|exact Hret].
    specialize (Hret (S (unsolved_count (internal_state self')))
                  ltac:(lia)).
    destruct (solve_false _ _ Hret) as [st2 [r2 [cnt2 [Hsearch2 [_ [_ ->]]]]]].
    simpl.
    exact (@search_le _ _ (repository_rules_shrinking Hr1) _ _ _ _ _ _
             Hsearch2).
Qed.

Lemma solve_again_witness :
  (forall rc sc,
     solve 10 (mkSolver (internal_state australia_blank)
                 (X australia_blank) (D australia_blank)
                 (C australia_blank) (peers australia_blank)
                 (solved australia_blank) (reduce_funcs australia_blank)
                 rc sc)
     = solve 10 australia_blank) /\
  (forall fuel2,
     solve (S fuel2) australia_coloured =
     Returned (mkSolver (internal_state australia_coloured)
                 (X australia_blank) (D australia_blank)
                 (C australia_blank) (peers australia_blank) true
                 (reduce_funcs australia_blank) 1 0, true)) /\
  (reduce_count australia_clash_after = 1 /\
   search_count australia_clash_after = 0 /\
   exists st2,
     state_le st2 (internal_state australia_clash_after) /\
     forall fuel2,
       solve (S fuel2) australia_clash_after =
       Returned (mkSolver st2 (X australia_clash) (D australia_clash)
                   (C australia_clash) (peers australia_clash) false
                   (reduce_funcs australia_clash) 1 0, false)) /\
  solve 10 australia_dead_end_after
    = Returned (australia_dead_end_after, false) /\
  (exists self' self'',
     solve 90 sudoku_dead_end = Returned (self', false) /\
     state_le (internal_state self'') (internal_state self') /\
     forall fuel2, unsolved_count (internal_state self') < fuel2 ->
       solve fuel2 self' = Returned (self'', false)).
Proof.
  destruct (@solve_again australia_blank eq_refl (or_introl eq_refl))
    as [A1 [A2 _]].
  destruct (@solve_again australia_clash eq_refl (or_introl eq_refl))
    as [_ [_ [A3 _]]].
  destruct (@solve_again australia_dead_end eq_refl (or_introl eq_refl))
    as [_ [_ [_ [A4 _]]]].
  destruct (@sudoku_provisos _ _ _ sudoku_dead_end_init)
    as [Hs [Hr [Hwf [Hcov [Hgx [Hnd [Hnil [Hpg [Hex Hdom]]]]]]]]].
  destruct (@solve_again sudoku_dead_end Hs Hr) as [_ [_ [_ [_ A5]]]].
  destruct dead_end_fails as [s1 Hs1].
  split; [exact (A1 10)|]. split; [|split; [|split]].
  - apply (A2 ltac:(apply nodupb_NoDup; vm_compute; reflexivity)
              ltac:(vm_compute; intros x Hx; exact Hx) 10).
    vm_compute; reflexivity.
  - apply (A3 (well_formedb_wf australia_clash eq_refl) 10);
      vm_compute; reflexivity.
  - apply (A4 eq_refl ltac:(apply nodupb_NoDup; vm_compute; reflexivity) 10);
      vm_compute; reflexivity.
  - destruct (A5 Hwf Hcov Hgx Hnd Hnil Hpg Hex Hdom 90 s1 Hs1)
      as [s2 [Hle H2]].
    exists s1, s2. auto.
Defined.
